(** * tm1-blackhawk: the delta-tracking streaming synchronizer

    A shallow embedding of the Go sources

      - utils/json_reviver.go   (package odata: the token stream parser)
      - the earlier variant of the same parser, whose callback takes
        [(entry, isFinal)] instead of a container
      - the OData client        (TrackCollection, IterateCollection,
                                 ValidateStatusCode)
      - the tracker's main file (processTransactionLogEntries, and the
                                 interval and version check of main)
      - mock_server.go          (the handler of the mock server)

    together with a model of the part of Go's [encoding/json] the parser
    drives: [Decoder.Token], [Decoder.More] and [Decoder.Decode], and of
    [strconv.Atoi] and the range check of [strconv.ParseFloat].

    Level of the model.  A stream is a list of JSON lexemes (punctuation
    and scalars) instead of a list of bytes: white space, the spelling of
    string escapes and of numbers, and the rounding of a number to its
    float64 are below this level.  Above it everything is as in Go: the
    decoder's token state machine, its sticky error, the scanner with its
    stack of parse states and the limit on nesting it has in the current
    releases of the library, the range of float64 (a number outside it
    does not decode into an [interface{}]), the backing array of a slice
    that is decoded into twice, and the unmarshalling rules for the
    struct the parser decodes into.

    Effects.  The parser is given its callback as a function on a state
    of the caller's.  The goroutine of the forwarder is modelled by what
    it does, in program order, to the pipe (the lexemes written, the
    close), to the channel (the values sent) and to the process
    ([log.Fatal]); a call comes out as a return, as blocked for ever, or
    as the end of the process.  The poll loop runs against a transport
    that answers requests in a world it may change, and leaves a trace of
    its requests and sleeps; as it is meant to run for ever it is given
    fuel.  Failures of the network are not modelled. *)

From Stdlib Require Import String Ascii List ZArith Bool Lia Permutation.
From Stdlib Require Import OrderedTypeEx.
Import ListNotations.

Set Warnings "-register-all".

Local Open Scope string_scope.
Local Open Scope list_scope.

(* ================================================================== *)
(** ** Package strconv (model): [Atoi] and [ParseFloat]                 *)
(* ================================================================== *)

Module strconv.

Definition maxUint64 : Z := (2 ^ 64 - 1)%Z.
Definition MaxInt64 : Z := (2 ^ 63 - 1)%Z.
Definition MinInt64 : Z := (- 2 ^ 63)%Z.

Inductive parsed :=
| Uint (n : Z)
| ErrSyntax
| ErrRange.

(** The loop of [ParseUint(s, 10, 64)] from the number [n] read so far:
    a byte that is not a digit is a syntax error; a number past
    [maxUint64] is a range error at the digit that overflows, whatever
    follows it. *)
Fixpoint ParseUint (s : string) (n : Z) : parsed :=
  match s with
  | EmptyString => Uint n
  | String c s' =>
      let d := (Z.of_nat (nat_of_ascii c) - 48)%Z in
      if negb ((0 <=? d)%Z && (d <=? 9)%Z) then ErrSyntax
      else if (maxUint64 / 10 + 1 <=? n)%Z then ErrRange
      else
        let n1 := (n * 10 + d)%Z in
        if (maxUint64 <? n1)%Z then ErrRange else ParseUint s' n1
  end.

(** [strconv.Atoi], for a 64-bit [int]: the value, and whether the error
    is [nil].  With a syntax error the value is 0; with a range error it
    is the nearest [int]. *)
Definition Atoi (s : string) : Z * bool :=
  match s with
  | EmptyString => (0%Z, false)
  | String c s' =>
      let neg := Ascii.eqb c "-" in
      let s0 := if neg || Ascii.eqb c "+" then s' else s in
      match s0 with
      | EmptyString => (0%Z, false)
      | String _ _ =>
          match ParseUint s0 0 with
          | ErrSyntax => (0%Z, false)
          | ErrRange => (if neg then MinInt64 else MaxInt64, false)
          | Uint un =>
              if negb neg && (2 ^ 63 <=? un)%Z then (MaxInt64, false)
              else if neg && (2 ^ 63 <? un)%Z then (MinInt64, false)
              else (if neg then (- un)%Z else un, true)
          end
      end
  end.

(** *** The error of [ParseFloat(s, 64)] *)

(** What [decimal.set] reads from the text: the digits it keeps, read
    here as one integer, their number (at most 800; leading zeros are
    not kept and further digits are dropped), and the position of the
    decimal point, so that the number read is
    [digits * 10 ^ (dp - nd)]. *)
Record decimal := mkDecimal { digits : Z; nd : Z; dp : Z }.

Definition is_digit (c : ascii) : bool :=
  let n := nat_of_ascii c in ((48 <=? n) && (n <=? 57))%nat.

Definition digit_of (c : ascii) : Z := (Z.of_nat (nat_of_ascii c) - 48)%Z.

(** The loop over the digits and the decimal point, up to the first
    other byte; [None] at a second point. *)
Fixpoint set_digits (s : string) (sawdot sawdigits : bool) (b : decimal)
  : option (decimal * bool * bool * string) :=
  match s with
  | EmptyString => Some (b, sawdot, sawdigits, s)
  | String c s' =>
      if Ascii.eqb c "." then
        if sawdot then None
        else set_digits s' true sawdigits (mkDecimal (digits b) (nd b) (nd b))
      else if is_digit c then
        if Ascii.eqb c "0" && (nd b =? 0)%Z
        then set_digits s' sawdot true
               (mkDecimal (digits b) (nd b) (dp b - 1))
        else if (nd b <? 800)%Z
        then set_digits s' sawdot true
               (mkDecimal (digits b * 10 + digit_of c) (nd b + 1) (dp b))
        else set_digits s' sawdot true b
      else Some (b, sawdot, sawdigits, s)
  end.

(** The loop over the digits of the exponent: [if e < 10000 { e = e*10 +
    digit }], so a very long exponent moves the point by a lot, not by
    the exact number. *)
Fixpoint set_exponent (s : string) (e : Z) : Z * string :=
  match s with
  | EmptyString => (e, s)
  | String c s' =>
      if is_digit c
      then set_exponent s' (if (e <? 10000)%Z then e * 10 + digit_of c else e)%Z
      else (e, s)
  end.

(** [(b *decimal) set(s)] on a decimal text: an optional sign, digits
    with an optional point, an optional exponent; [None] when the text
    is not of this form.  The sign has no part in the range check and is
    not kept. *)
Definition set (s : string) : option decimal :=
  let s1 := match s with
            | String c s' =>
                if Ascii.eqb c "+" || Ascii.eqb c "-" then s' else s
            | EmptyString => s
            end in
  match set_digits s1 false false (mkDecimal 0 0 0) with
  | None => None
  | Some (b, sawdot, sawdigits, rest) =>
      if negb sawdigits then None
      else
        let b := if sawdot then b else mkDecimal (digits b) (nd b) (nd b) in
        match rest with
        | EmptyString => Some b
        | String c rest1 =>
            if negb (Ascii.eqb c "e" || Ascii.eqb c "E") then None
            else
              match rest1 with
              | EmptyString => None
              | String c1 rest2 =>
                  let esign := if Ascii.eqb c1 "-" then (-1)%Z else 1%Z in
                  let rest3 :=
                    if Ascii.eqb c1 "+" || Ascii.eqb c1 "-" then rest2
                    else rest1 in
                  match rest3 with
                  | EmptyString => None
                  | String c2 _ =>
                      if negb (is_digit c2) then None
                      else
                        match set_exponent rest3 0 with
                        | (e, EmptyString) =>
                            Some (mkDecimal (digits b) (nd b)
                                    (dp b + e * esign))
                        | (_, String _ _) => None
                        end
                  end
              end
        end
  end.

(** The largest float64 is [2^1024 - 2^971]; a number rounds to it, or
    to a smaller one, when it is below the middle between it and
    [2^1024], and overflows from that middle on (a tie goes to the even
    mantissa, which is the one of [2^1024]). *)
Definition overflow_from : Z := (2 ^ 1024 - 2 ^ 970)%Z.

(** Whether [(d *decimal) floatBits] reports an overflow: never for
    zero, always with the point beyond 310 digits, never with it 330
    places before the digits, and else by the exact rounding. *)
Definition overflows (b : decimal) : bool :=
  if (nd b =? 0)%Z then false
  else if (310 <? dp b)%Z then true
  else if (dp b <? -330)%Z then false
  else
    let k := (dp b - nd b)%Z in
    if (0 <=? k)%Z then (overflow_from <=? digits b * 10 ^ k)%Z
    else (overflow_from * 10 ^ (- k) <=? digits b)%Z.

Inductive float_error :=
| SyntaxErr
| RangeErr.

(** [ParseFloat(s, 64)] on a decimal text: the error it returns, if
    any.  (Its fast paths return no error and give up on an overflow,
    which leaves the decision to [decimal.set] and [floatBits].  The
    forms a JSON number cannot have, infinities, hexadecimal digits and
    underscores, are not read here.) *)
Definition ParseFloat (s : string) : option float_error :=
  match set s with
  | None => Some SyntaxErr
  | Some b => if overflows b then Some RangeErr else None
  end.

End strconv.

(* ================================================================== *)
(** ** Package encoding/json (model)                                    *)
(* ================================================================== *)

Module json.

(** A number literal: an integer literal, or a literal with a fraction or
    an exponent (kept as its text). *)
Inductive number :=
| Int (z : Z)
| Frac (lit : string).

Inductive lexeme :=
| LBrace | RBrace | LBracket | RBracket | LColon | LComma
| LString (s : string)
| LNumber (n : number)
| LBool (b : bool)
| LNull.

(** JSON documents, members in source order. *)
Inductive value :=
| JNull
| JBool (b : bool)
| JNumber (n : number)
| JString (s : string)
| JArray (elems : list value)
| JObject (members : list (string * value)).

(** What [Decode] stores into an [interface{}]: [map[string]interface{}]
    has no member order, so a map is kept sorted by key without
    duplicates, which is also the order [Encode] writes it in. *)
Inductive any :=
| nil
| abool (b : bool)
| float64 (n : number)
| astring (s : string)
| aslice (l : list any)
| amap (m : list (string * any)).

Inductive error :=
| io_EOF
| io_ErrUnexpectedEOF
| io_ErrClosedPipe
| SyntaxError
| UnmarshalTypeError
| errors_New (msg : string).

(** [json.Token]: a delimiter or a scalar. *)
Inductive Token :=
| Delim (c : ascii)
| Scalar (x : any).

(** *** Serialisation to lexemes *)

Fixpoint commas (chunks : list (list lexeme)) : list lexeme :=
  match chunks with
  | [] => []
  | c :: rest =>
      match rest with
      | [] => c
      | _ :: _ => c ++ LComma :: commas rest
      end
  end.

Fixpoint lexemes_of (v : value) : list lexeme :=
  match v with
  | JNull => [LNull]
  | JBool b => [LBool b]
  | JNumber n => [LNumber n]
  | JString s => [LString s]
  | JArray elems => LBracket :: commas (map lexemes_of elems) ++ [RBracket]
  | JObject members =>
      LBrace ::
      commas (map (fun kv => LString (fst kv) :: LColon :: lexemes_of (snd kv))
                  members)
      ++ [RBrace]
  end.

(** *** The scanner: a pushdown automaton over the lexemes of one value *)

Inductive frame :=
| parseArray (elems : list value)
| parseObject (members : list (string * value)) (key : option string).

Inductive step :=
| stateBeginValue
| stateBeginValueOrEmpty
| stateBeginStringOrEmpty
| stateBeginString
| stateEndValue.

Inductive scanned :=
| scanContinue (st : list frame) (s : step)
| scanEnd (v : value)
| scanError.

(** The limit on nesting: [pushParseState] refuses a stack of more than
    [maxNestingDepth] parse states. *)
Definition maxNestingDepth : nat := Z.to_nat 10000.

(** The scanner is written for any limit, so as to have, beside the
    scanner of the decoder, the grammar of JSON itself, which has
    none. *)
Section Scanner.

Variable limit : nat.

(** A value has just been completed under the stack [st]. *)
Definition endValue (v : value) (st : list frame) : scanned :=
  match st with
  | [] => scanEnd v
  | parseArray elems :: st' =>
      scanContinue (parseArray (elems ++ [v]) :: st') stateEndValue
  | parseObject ms (Some k) :: st' =>
      scanContinue (parseObject (ms ++ [(k, v)]) None :: st') stateEndValue
  | parseObject _ None :: _ => scanError
  end.

Definition pushParseState (st : list frame) (newParseState : frame)
    (successState : step) : scanned :=
  if (length (newParseState :: st) <=? limit)%nat
  then scanContinue (newParseState :: st) successState
  else scanError.

Definition beginValue (st : list frame) (c : lexeme) : scanned :=
  match c with
  | LBrace => pushParseState st (parseObject [] None) stateBeginStringOrEmpty
  | LBracket => pushParseState st (parseArray []) stateBeginValueOrEmpty
  | LString s => endValue (JString s) st
  | LNumber n => endValue (JNumber n) st
  | LBool b => endValue (JBool b) st
  | LNull => endValue JNull st
  | RBrace | RBracket | LColon | LComma => scanError
  end.

Definition beginString (st : list frame) (c : lexeme) : scanned :=
  match c, st with
  | LString k, parseObject ms None :: st' =>
      scanContinue (parseObject ms (Some k) :: st') stateEndValue
  | _, _ => scanError
  end.

Definition scan_step (st : list frame) (s : step) (c : lexeme) : scanned :=
  match s with
  | stateBeginValue => beginValue st c
  | stateBeginValueOrEmpty =>
      match c, st with
      | RBracket, parseArray elems :: st' => endValue (JArray elems) st'
      | _, _ => beginValue st c
      end
  | stateBeginStringOrEmpty =>
      match c, st with
      | RBrace, parseObject ms None :: st' => endValue (JObject ms) st'
      | _, _ => beginString st c
      end
  | stateBeginString => beginString st c
  | stateEndValue =>
      match st, c with
      | parseObject ms (Some k) :: st', LColon =>
          scanContinue (parseObject ms (Some k) :: st') stateBeginValue
      | parseObject ms None :: st', LComma =>
          scanContinue (parseObject ms None :: st') stateBeginString
      | parseObject ms None :: st', RBrace => endValue (JObject ms) st'
      | parseArray elems :: st', LComma =>
          scanContinue (parseArray elems :: st') stateBeginValue
      | parseArray elems :: st', RBracket => endValue (JArray elems) st'
      | _, _ => scanError
      end
  end.

Fixpoint scan (st : list frame) (s : step) (buf : list lexeme)
  : (value * list lexeme) + error :=
  match buf with
  | [] => inr io_ErrUnexpectedEOF
  | c :: buf' =>
      match scan_step st s c with
      | scanContinue st' s' => scan st' s' buf'
      | scanEnd v => inl (v, buf')
      | scanError => inr SyntaxError
      end
  end.

End Scanner.

(** [Decoder.readValue]: the next whole value and what follows it. *)
Definition readValue (buf : list lexeme) : (value * list lexeme) + error :=
  match buf with
  | [] => inr io_EOF
  | _ :: _ => scan maxNestingDepth [] stateBeginValue buf
  end.

(** *** The decoder *)

Inductive tokenState :=
| tokenTopValue
| tokenArrayStart
| tokenArrayValue
| tokenArrayComma
| tokenObjectStart
| tokenObjectKey
| tokenObjectColon
| tokenObjectValue
| tokenObjectComma.

Record Decoder := mkDecoder {
  buf : list lexeme;
  tokState : tokenState;
  tokenStack : list tokenState;
  err : option error
}.

Definition NewDecoder (stream : list lexeme) : Decoder :=
  {| buf := stream; tokState := tokenTopValue; tokenStack := []; err := None |}.

Definition peek (dec : Decoder) : lexeme + error :=
  match buf dec with
  | [] => inr io_EOF
  | c :: _ => inl c
  end.

Definition advance (dec : Decoder) (ts : tokenState) : Decoder :=
  {| buf := tl (buf dec); tokState := ts;
     tokenStack := tokenStack dec; err := err dec |}.

Definition tokenPrepareForDecode (dec : Decoder) : Decoder * option error :=
  match tokState dec with
  | tokenArrayComma =>
      match peek dec with
      | inr e => (dec, Some e)
      | inl LComma => (advance dec tokenArrayValue, None)
      | inl _ => (dec, Some SyntaxError)
      end
  | tokenObjectColon =>
      match peek dec with
      | inr e => (dec, Some e)
      | inl LColon => (advance dec tokenObjectValue, None)
      | inl _ => (dec, Some SyntaxError)
      end
  | _ => (dec, None)
  end.

Definition tokenValueAllowed (ts : tokenState) : bool :=
  match ts with
  | tokenTopValue | tokenArrayStart | tokenArrayValue | tokenObjectValue => true
  | _ => false
  end.

Definition tokenValueEnd (ts : tokenState) : tokenState :=
  match ts with
  | tokenArrayStart | tokenArrayValue => tokenArrayComma
  | tokenObjectValue => tokenObjectComma
  | _ => ts
  end.

(** [Decoder.Decode(&target)], for a target whose unmarshalling rule is
    [unmarshal]: the value read is consumed also when unmarshalling it
    fails, and only a scanner error sticks to the decoder. *)
Definition Decode {T : Type} (unmarshal : value -> T -> T * option error)
    (dec : Decoder) (target : T) : Decoder * T * option error :=
  match err dec with
  | Some e => (dec, target, Some e)
  | None =>
      match tokenPrepareForDecode dec with
      | (dec1, Some e) => (dec1, target, Some e)
      | (dec1, None) =>
          if negb (tokenValueAllowed (tokState dec1))
          then (dec1, target, Some SyntaxError)
          else
            match readValue (buf dec1) with
            | inr e =>
                ({| buf := buf dec1; tokState := tokState dec1;
                    tokenStack := tokenStack dec1; err := Some e |},
                 target, Some e)
            | inl (v, rest) =>
                let (target', e) := unmarshal v target in
                ({| buf := rest; tokState := tokenValueEnd (tokState dec1);
                    tokenStack := tokenStack dec1; err := None |},
                 target', e)
            end
      end
  end.

(** *** Unmarshalling rules of the scalar targets *)

(** First error wins ([decodeState.saveError]). *)
Definition saveError (saved new : option error) : option error :=
  match saved with
  | Some _ => saved
  | None => new
  end.

(** [m[k] = x] on a map kept sorted by name; Go orders strings byte by
    byte, as [String.compare] does. *)
Fixpoint map_store (k : string) (x : any) (m : list (string * any))
  : list (string * any) :=
  match m with
  | [] => [(k, x)]
  | (k', x') :: m' =>
      match String.compare k k' with
      | Lt => (k, x) :: m
      | Eq => (k, x) :: m'
      | Gt => (k', x') :: map_store k x m'
      end
  end.

(** Whether [strconv.ParseFloat(s, 64)] returns no error on the literal.
    For an integer literal read as [Int z], [|z|] is the number
    [decimal.set] reads when it has at most 800 digits, and is out of
    range, as is what [decimal.set] reads, when it has more. *)
Definition in_float64 (n : number) : bool :=
  match n with
  | Int z => (Z.abs z <? strconv.overflow_from)%Z
  | Frac lit =>
      match strconv.ParseFloat lit with
      | None => true
      | Some _ => false
      end
  end.

(** [decodeState.convertNumber]: the float64, or [nil] and an
    [UnmarshalTypeError] for a number outside float64. *)
Definition convertNumber (n : number) : any * option error :=
  if in_float64 n then (float64 n, None) else (nil, Some UnmarshalTypeError).

(** [decodeState.arrayInterface]: the elements in their order; an
    element whose number does not convert is [nil] and its error is
    saved. *)
Fixpoint arrayInterface {A : Type} (valueInterface : A -> any * option error)
    (elems : list A) : list any * option error :=
  match elems with
  | [] => ([], None)
  | v :: elems' =>
      let (x, e1) := valueInterface v in
      let (l, e2) := arrayInterface valueInterface elems' in
      (x :: l, saveError e1 e2)
  end.

(** [decodeState.objectInterface]: [m[key] = d.valueInterface()] for the
    members in their order, a later member over an earlier one with its
    name. *)
Fixpoint objectInterface {A : Type} (valueInterface : A -> any * option error)
    (ms : list (string * A)) (m : list (string * any))
  : list (string * any) * option error :=
  match ms with
  | [] => (m, None)
  | kx :: ms' =>
      let (x, e1) := valueInterface (snd kx) in
      let (m', e2) :=
        objectInterface valueInterface ms' (map_store (fst kx) x m) in
      (m', saveError e1 e2)
  end.

(** [decodeState.valueInterface], with the error it saves. *)
Fixpoint valueInterface (v : value) : any * option error :=
  match v with
  | JNull => (nil, None)
  | JBool b => (abool b, None)
  | JNumber n => convertNumber n
  | JString s => (astring s, None)
  | JArray elems =>
      let (l, e) := arrayInterface valueInterface elems in (aslice l, e)
  | JObject members =>
      let (m, e) := objectInterface valueInterface members [] in (amap m, e)
  end.

(** Into [*interface{}]: an array or an object is stored as
    [valueInterface] builds it; a literal is stored by [literalStore],
    where a number that does not convert leaves the target as it is. *)
Definition unmarshal_any (v : value) (target : any) : any * option error :=
  match v with
  | JNumber n =>
      if in_float64 n then (float64 n, None)
      else (target, Some UnmarshalTypeError)
  | _ => valueInterface v
  end.

(** Into [*string]: [null] leaves the target as it is. *)
Definition unmarshal_string (v : value) (target : string)
  : string * option error :=
  match v with
  | JString s => (s, None)
  | JNull => (target, None)
  | _ => (target, Some UnmarshalTypeError)
  end.

(** [Decoder.Token]: delimiters are consumed one by one, colons and
    commas are skipped, a scalar is read through [Decode].  The stack is
    never empty in an array or object state, which are entered by a
    push only. *)
Fixpoint Token_from (b : list lexeme) (ts : tokenState)
    (stack : list tokenState) (e : option error)
  : Decoder * (Token + error) :=
  let dec := mkDecoder b ts stack e in
  let tokenError := (dec, inr SyntaxError) in
  let scalar :=
    if tokenValueAllowed ts then
      match Decode unmarshal_any dec nil with
      | (dec', _, Some e') => (dec', inr e')
      | (dec', x, None) => (dec', inl (Scalar x))
      end
    else tokenError in
  match b with
  | [] => (dec, inr io_EOF)
  | c :: b' =>
      match c with
      | LBracket =>
          if tokenValueAllowed ts
          then (mkDecoder b' tokenArrayStart (ts :: stack) e, inl (Delim "["))
          else tokenError
      | RBracket =>
          match ts, stack with
          | (tokenArrayStart | tokenArrayComma), top :: stack' =>
              (mkDecoder b' (tokenValueEnd top) stack' e, inl (Delim "]"))
          | _, _ => tokenError
          end
      | LBrace =>
          if tokenValueAllowed ts
          then (mkDecoder b' tokenObjectStart (ts :: stack) e, inl (Delim "{"))
          else tokenError
      | RBrace =>
          match ts, stack with
          | (tokenObjectStart | tokenObjectComma), top :: stack' =>
              (mkDecoder b' (tokenValueEnd top) stack' e, inl (Delim "}"))
          | _, _ => tokenError
          end
      | LColon =>
          match ts with
          | tokenObjectColon => Token_from b' tokenObjectValue stack e
          | _ => tokenError
          end
      | LComma =>
          match ts with
          | tokenArrayComma => Token_from b' tokenArrayValue stack e
          | tokenObjectComma => Token_from b' tokenObjectKey stack e
          | _ => tokenError
          end
      | LString _ =>
          match ts with
          | tokenObjectStart | tokenObjectKey =>
              match Decode unmarshal_string
                      (mkDecoder b tokenTopValue stack e) "" with
              | (dec', _, Some e') =>
                  (mkDecoder (buf dec') ts stack (err dec'), inr e')
              | (dec', x, None) =>
                  (mkDecoder (buf dec') tokenObjectColon stack (err dec'),
                   inl (Scalar (astring x)))
              end
          | _ => scalar
          end
      | LNumber _ | LBool _ | LNull => scalar
      end
  end.

Definition Token_ (dec : Decoder) : Decoder * (Token + error) :=
  Token_from (buf dec) (tokState dec) (tokenStack dec) (err dec).

(** [Decoder.More]. *)
Definition More (dec : Decoder) : bool :=
  match peek dec with
  | inl RBracket | inl RBrace => false
  | inl _ => true
  | inr _ => false
  end.

End json.

Import json.

(* ================================================================== *)
(** ** Package odata: the entity type and its JSON mapping              *)
(* ================================================================== *)

Module odata.

(** [TransactionLogEntry]; a nil [Tuple] slice is [None].  A slice is
    kept as its elements; what its backing array holds behind them is
    kept by the decode that can bring it back (below). *)
Record TransactionLogEntry := mkEntry {
  ID : Z;
  ChangeSetID : string;
  TimeStamp : string;
  ReplicationTime : string;
  User : string;
  Cube : string;
  Tuple : option (list string);
  OldValue : any;
  NewValue : any;
  StatusMessage : any
}.

(** [TransactionLogEntry{}] *)
Definition zeroEntry : TransactionLogEntry :=
  mkEntry 0 "" "" "" "" "" None nil nil nil.

Inductive field :=
| fID | fChangeSetID | fTimeStamp | fReplicationTime | fUser | fCube
| fTuple | fOldValue | fNewValue | fStatusMessage.

(** The [json:"..."] tags. *)
Definition fields : list (string * field) :=
  [ ("ID", fID); ("ChangeSetID", fChangeSetID); ("TimeStamp", fTimeStamp);
    ("ReplicationTime", fReplicationTime); ("User", fUser); ("Cube", fCube);
    ("Tuple", fTuple); ("OldValue", fOldValue); ("NewValue", fNewValue);
    ("StatusMessage", fStatusMessage) ].

Definition upper (c : ascii) : ascii :=
  let n := nat_of_ascii c in
  if (97 <=? n)%nat && (n <=? 122)%nat then ascii_of_nat (n - 32) else c.

(** Case folding of a member name, on its UTF-8 bytes: ASCII letters to
    upper case, and the two runes that fold to ASCII letters, U+017F to S
    and U+212A to K. *)
Fixpoint foldName (s : string) : string :=
  match s with
  | EmptyString => EmptyString
  | String c1 s1 =>
      match s1 with
      | String c2 s2 =>
          if Ascii.eqb c1 "197" && Ascii.eqb c2 "191"
          then String "S" (foldName s2)
          else
            match s2 with
            | String c3 s3 =>
                if Ascii.eqb c1 "226" && Ascii.eqb c2 "132" && Ascii.eqb c3 "170"
                then String "K" (foldName s3)
                else String (upper c1) (foldName s1)
            | EmptyString => String (upper c1) (foldName s1)
            end
      | EmptyString => String (upper c1) EmptyString
      end
  end.

(** The struct field a member name selects: an exact match, else a match
    up to case folding. *)
Definition field_of (key : string) : option field :=
  match find (fun nf => String.eqb (fst nf) key) fields with
  | Some nf => Some (snd nf)
  | None =>
      match find (fun nf => String.eqb (foldName (fst nf)) (foldName key))
                 fields with
      | Some nf => Some (snd nf)
      | None => None
      end
  end.

Definition inInt64 (z : Z) : bool :=
  ((- 2 ^ 63 <=? z) && (z <? 2 ^ 63))%Z.

(** Into an [int] field. *)
Definition unmarshal_int (v : value) (target : Z) : Z * option error :=
  match v with
  | JNumber (Int z) =>
      if inInt64 z then (z, None) else (target, Some UnmarshalTypeError)
  | JNull => (target, None)
  | _ => (target, Some UnmarshalTypeError)
  end.

(** The elements of an array stored into a [[]string], element [i] over
    what the backing array holds at [i]: [v.SetLen(i + 1)] brings back
    what an earlier, longer array left there, and past that the element
    is the zero value, in the old array as in a grown one. *)
Fixpoint store_elems (elems : list value) (backing : list string)
  : list string * option error :=
  match elems with
  | [] => ([], None)
  | v :: elems' =>
      let (s, e1) := unmarshal_string v (hd "" backing) in
      let (rest, e2) := store_elems elems' (tl backing) in
      (s :: rest, saveError e1 e2)
  end.

(** Into a [[]string] field, with [spare], the strings the backing array
    holds behind the elements of the slice: an array is stored element
    by element and the slice is cut to its length, which leaves the rest
    of the backing array as it is; [[]] gives a new empty slice, [null]
    the nil slice. *)
Definition unmarshal_strings (v : value) (target : option (list string))
    (spare : list string)
  : option (list string) * list string * option error :=
  match v with
  | JArray elems =>
      let backing := match target with Some l => l | None => [] end ++ spare in
      let (l, e) := store_elems elems backing in
      match elems with
      | [] => (Some [], [], e)
      | _ :: _ => (Some l, skipn (length elems) backing, e)
      end
  | JNull => (None, [], None)
  | _ => (target, spare, Some UnmarshalTypeError)
  end.

(** One member stored into its field; [spare] is what the backing array
    of [Tuple] holds behind its elements. *)
Definition store_field (f : field) (v : value) (t : TransactionLogEntry)
    (spare : list string)
  : TransactionLogEntry * list string * option error :=
  match t with
  | mkEntry id cs ts rt us cu tu ov nv sm =>
      match f with
      | fID => let (x, e) := unmarshal_int v id in
               (mkEntry x cs ts rt us cu tu ov nv sm, spare, e)
      | fChangeSetID => let (x, e) := unmarshal_string v cs in
               (mkEntry id x ts rt us cu tu ov nv sm, spare, e)
      | fTimeStamp => let (x, e) := unmarshal_string v ts in
               (mkEntry id cs x rt us cu tu ov nv sm, spare, e)
      | fReplicationTime => let (x, e) := unmarshal_string v rt in
               (mkEntry id cs ts x us cu tu ov nv sm, spare, e)
      | fUser => let (x, e) := unmarshal_string v us in
               (mkEntry id cs ts rt x cu tu ov nv sm, spare, e)
      | fCube => let (x, e) := unmarshal_string v cu in
               (mkEntry id cs ts rt us x tu ov nv sm, spare, e)
      | fTuple => let '(x, spare', e) := unmarshal_strings v tu spare in
               (mkEntry id cs ts rt us cu x ov nv sm, spare', e)
      | fOldValue => let (x, e) := unmarshal_any v ov in
               (mkEntry id cs ts rt us cu tu x nv sm, spare, e)
      | fNewValue => let (x, e) := unmarshal_any v nv in
               (mkEntry id cs ts rt us cu tu ov x sm, spare, e)
      | fStatusMessage => let (x, e) := unmarshal_any v sm in
               (mkEntry id cs ts rt us cu tu ov nv x, spare, e)
      end
  end.

Fixpoint store_members (ms : list (string * value)) (t : TransactionLogEntry)
    (spare : list string) (saved : option error)
  : TransactionLogEntry * option error :=
  match ms with
  | [] => (t, saved)
  | (k, v) :: ms' =>
      match field_of k with
      | Some f =>
          let '(t', spare', e) := store_field f v t spare in
          store_members ms' t' spare' (saveError saved e)
      | None => store_members ms' t spare saved
      end
  end.

(** Into a [*TransactionLogEntry]: members are stored in their order,
    unknown ones skipped; a type mismatch is remembered and the decode
    goes on; [null] is no error and stores nothing.  The record decoded
    into is a new one ([TransactionLogEntry{}]): its [Tuple] has no
    backing array yet. *)
Definition unmarshal_entry (v : value) (t : TransactionLogEntry)
  : TransactionLogEntry * option error :=
  match v with
  | JObject ms => store_members ms t [] None
  | JNull => (t, None)
  | _ => (t, Some UnmarshalTypeError)
  end.

(** What [Encode] writes for an [interface{}]. *)
Fixpoint marshal_any (x : any) : value :=
  match x with
  | nil => JNull
  | abool b => JBool b
  | float64 n => JNumber n
  | astring s => JString s
  | aslice l => JArray (map marshal_any l)
  | amap m => JObject (map (fun kx => (fst kx, marshal_any (snd kx))) m)
  end.

(** What [Encode] writes for a [*TransactionLogEntry]: every field, in
    declaration order. *)
Definition marshal_entry (t : TransactionLogEntry) : value :=
  JObject
    [ ("ID", JNumber (Int (ID t)));
      ("ChangeSetID", JString (ChangeSetID t));
      ("TimeStamp", JString (TimeStamp t));
      ("ReplicationTime", JString (ReplicationTime t));
      ("User", JString (User t));
      ("Cube", JString (Cube t));
      ("Tuple", match Tuple t with
                | None => JNull
                | Some l => JArray (map JString l)
                end);
      ("OldValue", marshal_any (OldValue t));
      ("NewValue", marshal_any (NewValue t));
      ("StatusMessage", marshal_any (StatusMessage t)) ].

End odata.

Import odata.

Definition is_delim (t : Token) (c : ascii) : bool :=
  match t with
  | Delim d => Ascii.eqb d c
  | Scalar _ => false
  end.

(** [token == "..."] on a [json.Token]: a string with that content. *)
Definition is_string (t : Token) (s : string) : bool :=
  match t with
  | Scalar (astring x) => String.eqb x s
  | _ => false
  end.

(* ================================================================== *)
(** ** utils/json_reviver.go                                            *)
(* ================================================================== *)

Module reviver.

(** Modelled from the spec: the declaration of [TransactionLogContainer]
    is not among the sources.  It is the parse result unit, used by the
    parser and by the forwarder with these two fields: a record (a nil
    pointer in the final unit) and the continuation token. *)
Record TransactionLogContainer := mkContainer {
  TransactionLogEntry_ : option TransactionLogEntry;
  DeltaLink : string
}.

Record JSONReviver := mkReviver { decoder : Decoder }.

Definition NewJSONReviver (stream : list lexeme) : JSONReviver :=
  mkReviver (NewDecoder stream).

Section Parse.

(** The callback acts on a state of the caller's. *)
Context {St : Type}.
Variable callback : TransactionLogContainer -> St -> St.

(** [for r.decoder.More() { ... Decode(&txnLog) ... callback(...) }].
    [None] only when [fuel] runs out. *)
Fixpoint array_loop (fuel : nat) (dec : Decoder) (st : St)
  : option (Decoder * St * option error) :=
  match fuel with
  | O => None
  | S fuel' =>
      if More dec then
        match Decode unmarshal_entry dec zeroEntry with
        | (dec1, _, Some _) =>
            Some (dec1, st,
                  Some (errors_New "unable to decode transaction log entry"))
        | (dec1, txnLog, None) =>
            array_loop fuel' dec1
              (callback (mkContainer (Some txnLog) "") st)
        end
      else Some (dec, st, None)
  end.

(** The loop over the members of the root object. *)
Fixpoint object_loop (fuel : nat) (dec : Decoder) (deltaLink : string)
    (st : St) : option (Decoder * string * St * option error) :=
  match fuel with
  | O => None
  | S fuel' =>
      if More dec then
        match Token_ dec with
        | (dec1, inr e) => Some (dec1, deltaLink, st, Some e)
        | (dec1, inl token) =>
            let '(dec2, deltaLink2) :=
              if is_string token "@odata.deltaLink"
              then let '(d, dl, _) := Decode unmarshal_string dec1 deltaLink in
                   (d, dl)
              else (dec1, deltaLink) in
            if negb (is_string token "value")
            then object_loop fuel' dec2 deltaLink2 st
            else
              match Token_ dec2 with
              | (dec3, inr e) => Some (dec3, deltaLink2, st, Some e)
              | (dec3, inl token) =>
                  if negb (is_delim token "[")
                  then Some (dec3, deltaLink2, st,
                             Some (errors_New
                                     "JSON array start delimiter not found"))
                  else
                    match array_loop fuel' dec3 st with
                    | None => None
                    | Some (dec4, st4, Some e) =>
                        Some (dec4, deltaLink2, st4, Some e)
                    | Some (dec4, st4, None) =>
                        match Token_ dec4 with
                        | (dec5, inr e) =>
                            Some (dec5, deltaLink2, st4, Some e)
                        | (dec5, inl token) =>
                            if negb (is_delim token "]")
                            then Some (dec5, deltaLink2, st4,
                                       Some (errors_New
                                         "JSON array end delimiter not found"))
                            else object_loop fuel' dec5 deltaLink2 st4
                        end
                    end
              end
        end
      else Some (dec, deltaLink, st, None)
  end.

Definition ParseTransactionLogs_fuel (fuel : nat) (r : JSONReviver) (st : St)
  : option (JSONReviver * St * option error) :=
  match Token_ (decoder r) with
  | (dec1, inr e) => Some (mkReviver dec1, st, Some e)
  | (dec1, inl t) =>
      if negb (is_delim t "{")
      then Some (mkReviver dec1, st,
                 Some (errors_New "JSON object start delimiter not found"))
      else
        match object_loop fuel dec1 "" st with
        | None => None
        | Some (dec2, _, st2, Some e) => Some (mkReviver dec2, st2, Some e)
        | Some (dec2, deltaLink, st2, None) =>
            match Token_ dec2 with
            | (dec3, inr e) => Some (mkReviver dec3, st2, Some e)
            | (dec3, inl t) =>
                if negb (is_delim t "}")
                then Some (mkReviver dec3, st2,
                           Some (errors_New
                                   "JSON object end delimiter not found"))
                else
                  Some (mkReviver dec3,
                        callback (mkContainer None deltaLink) st2, None)
            end
        end
  end.

(** [(r *JSONReviver) ParseTransactionLogs(callback)]: every turn of
    either loop consumes a lexeme or returns, so the length of the
    stream bounds the turns. *)
Definition ParseTransactionLogs (r : JSONReviver) (st : St)
  : option (JSONReviver * St * option error) :=
  ParseTransactionLogs_fuel (S (length (buf (decoder r)))) r st.

End Parse.

(** The callbacks in the order they were made. *)
Definition record (c : TransactionLogContainer)
    (log : list TransactionLogContainer) : list TransactionLogContainer :=
  log ++ [c].

Definition parse (stream : list lexeme)
  : option (list TransactionLogContainer * option error) :=
  match ParseTransactionLogs record (NewJSONReviver stream) [] with
  | Some (_, log, e) => Some (log, e)
  | None => None
  end.

End reviver.

(* ================================================================== *)
(** ** The earlier variant of the parser: [callback(entry, isFinal)]    *)
(* ================================================================== *)

Module reviver0.

Record JSONReviver := mkReviver { decoder : Decoder }.

Definition NewJSONReviver (stream : list lexeme) : JSONReviver :=
  mkReviver (NewDecoder stream).

Section Parse.

Context {St : Type}.
Variable callback : option TransactionLogEntry -> bool -> St -> St.

Fixpoint array_loop (fuel : nat) (dec : Decoder) (st : St)
  : option (Decoder * St * option error) :=
  match fuel with
  | O => None
  | S fuel' =>
      if More dec then
        match Decode unmarshal_entry dec zeroEntry with
        | (dec1, _, Some _) =>
            Some (dec1, st,
                  Some (errors_New "unable to decode transaction log entry"))
        | (dec1, txnLog, None) =>
            array_loop fuel' dec1 (callback (Some txnLog) false st)
        end
      else Some (dec, st, None)
  end.

Fixpoint object_loop (fuel : nat) (dec : Decoder) (st : St)
  : option (Decoder * St * option error) :=
  match fuel with
  | O => None
  | S fuel' =>
      if More dec then
        match Token_ dec with
        | (dec1, inr e) => Some (dec1, st, Some e)
        | (dec1, inl token) =>
            if negb (is_string token "value")
            then object_loop fuel' dec1 st
            else
              match Token_ dec1 with
              | (dec3, inr e) => Some (dec3, st, Some e)
              | (dec3, inl token) =>
                  if negb (is_delim token "[")
                  then Some (dec3, st,
                             Some (errors_New
                                     "JSON array start delimiter not found"))
                  else
                    match array_loop fuel' dec3 st with
                    | None => None
                    | Some (dec4, st4, Some e) => Some (dec4, st4, Some e)
                    | Some (dec4, st4, None) =>
                        match Token_ dec4 with
                        | (dec5, inr e) => Some (dec5, st4, Some e)
                        | (dec5, inl token) =>
                            if negb (is_delim token "]")
                            then Some (dec5, st4,
                                       Some (errors_New
                                         "JSON array end delimiter not found"))
                            else object_loop fuel' dec5 st4
                        end
                    end
              end
        end
      else Some (dec, st, None)
  end.

Definition ParseTransactionLogs_fuel (fuel : nat) (r : JSONReviver) (st : St)
  : option (JSONReviver * St * option error) :=
  match Token_ (decoder r) with
  | (dec1, inr e) => Some (mkReviver dec1, st, Some e)
  | (dec1, inl t) =>
      if negb (is_delim t "{")
      then Some (mkReviver dec1, st,
                 Some (errors_New "JSON object start delimiter not found"))
      else
        match object_loop fuel dec1 st with
        | None => None
        | Some (dec2, st2, Some e) => Some (mkReviver dec2, st2, Some e)
        | Some (dec2, st2, None) =>
            Some (mkReviver dec2, callback None true st2, None)
        end
  end.

Definition ParseTransactionLogs (r : JSONReviver) (st : St)
  : option (JSONReviver * St * option error) :=
  ParseTransactionLogs_fuel (S (length (buf (decoder r)))) r st.

End Parse.

Definition record (e : option TransactionLogEntry) (isFinal : bool)
    (log : list (option TransactionLogEntry * bool))
  : list (option TransactionLogEntry * bool) :=
  log ++ [(e, isFinal)].

Definition parse (stream : list lexeme)
  : option (list (option TransactionLogEntry * bool) * option error) :=
  match ParseTransactionLogs record (NewJSONReviver stream) [] with
  | Some (_, log, e) => Some (log, e)
  | None => None
  end.

End reviver0.

(* ================================================================== *)
(** ** The OData client                                                 *)
(* ================================================================== *)

Module client.

Definition CRLF : string := String "013" (String "010" EmptyString).

Record Request := mkRequest {
  Method : string;
  URL : string;
  Header : list (string * string)
}.

(** An [http.Response] whose body has been read as a [B]. *)
Record Response (B : Type) := mkResponse {
  StatusCode : Z;
  Status : string;
  Body : B
}.
Arguments mkResponse {B}.
Arguments StatusCode {B}.
Arguments Status {B}.
Arguments Body {B}.

Definition Header_Add (k v : string) (req : Request) : Request :=
  mkRequest (Method req) (URL req) (Header req ++ [(k, v)]).

(** The request [ExecutePOSTRequest] makes; its body is the stream it is
    given. *)
Definition POST_request (urlStr contentType : string) : Request :=
  let req := mkRequest "POST" urlStr [] in
  let req := Header_Add "Content-Type" contentType req in
  let req := Header_Add "OData-Version" "4.0" req in
  Header_Add "Accept" "application/json" req.

(** How a call that may block for ever or end the process comes out. *)
Inductive call (A : Type) :=
| returns (a : A)
| blocks
| exits (msg : string).
Arguments returns {A}.
Arguments blocks {A}.
Arguments exits {A}.

(** [ValidateStatusCode]: [Some msg] is [log.Fatal(msg)]. *)
Definition ValidateStatusCode (resp : Response string) (statusCode : Z)
    (logFmt : unit -> string) : option string :=
  if negb (StatusCode resp =? statusCode)%Z
  then Some (logFmt tt ++ CRLF ++ "Server responded with: " ++ Status resp
             ++ CRLF ++ Body resp)%string
  else None.

Inductive event :=
| EvRequest (req : Request)
| EvSleep (d : Z).

Inductive status :=
| loop_exit           (* the [for] loop was left *)
| blocked             (* the processor never returned *)
| exited (msg : string)
| running.            (* still polling when the fuel ran out *)

Section Client.

(** The world the requests are made in (the server and its state), the
    transport, which answers a request, and the client's processor. *)
Context {W B : Type}.
Variable Do : W -> Request -> W * Response B.
Variable processorFunc : W -> B -> W * call (string * string).

Definition ExecuteGETRequestEx (w : W) (urlStr : string)
    (preReq : Request -> Request) : Request * (W * Response B) :=
  let req := mkRequest "GET" urlStr [] in
  let req := Header_Add "OData-Version" "4.0" req in
  let req := Header_Add "Accept" "application/json" req in
  let req := preReq req in
  (req, Do w req).

(** One turn of the loop of [TrackCollection]: the events of the turn
    and the URL of the next turn, if there is one. *)
Definition TrackCollection_turn (serviceRootURL urlStr : string)
    (interval : Z) (w : W) : W * list event * (string + status) :=
  let '(req, (w1, resp)) :=
    ExecuteGETRequestEx w (serviceRootURL ++ urlStr)%string
      (Header_Add "Prefer" "odata.track-changes") in
  match processorFunc w1 (Body resp) with
  | (w2, returns (nextLink, deltaLink)) =>
      if negb (String.eqb nextLink "")
      then (w2, [EvRequest req], inl nextLink)
      else if negb (String.eqb deltaLink "")
      then (w2, [EvRequest req; EvSleep interval], inl deltaLink)
      else (w2, [EvRequest req], inr loop_exit)
  | (w2, blocks) => (w2, [EvRequest req], inr blocked)
  | (w2, exits msg) => (w2, [EvRequest req], inr (exited msg))
  end.

(** [TrackCollection]: the loop runs while [urlStr] is not empty. *)
Fixpoint TrackCollection (fuel : nat) (serviceRootURL urlStr : string)
    (interval : Z) (w : W) : W * list event * status :=
  if String.eqb urlStr "" then (w, [], loop_exit)
  else
    match fuel with
    | O => (w, [], running)
    | S fuel' =>
        match TrackCollection_turn serviceRootURL urlStr interval w with
        | (w', evs, inl next) =>
            let '(w'', evs', s) :=
              TrackCollection fuel' serviceRootURL next interval w' in
            (w'', evs ++ evs', s)
        | (w', evs, inr s) => (w', evs, s)
        end
    end.

End Client.

(** *** [ExecuteGETRequest] and [IterateCollection] *)

(** What [IterateCollection] does, in order: the requests, the lines
    printed in verbose mode (the operands of [fmt.Println]), and the
    deferred [resp.Body.Close()] calls, which run when the function
    returns. *)
Inductive action :=
| ActRequest (req : Request)
| ActPrintln (operands : list string)
| ActClose (resp : Response string).

Section Iterate.

(** [Verbose] is the package variable, which [main] sets to [false];
    the body of a response is what [ioutil.ReadAll] reads from it. *)
Context {W : Type}.
Variable Verbose : bool.
Variable Do : W -> Request -> W * Response string.
Variable processResponse : W -> string -> W * (Z * string).

Definition ExecuteGETRequest (w : W) (urlStr : string)
  : list action * (W * Response string) :=
  let req := mkRequest "GET" urlStr [] in
  let req := Header_Add "OData-Version" "4.0" req in
  let req := Header_Add "Accept" "application/json" req in
  ((if Verbose then [ActPrintln [Method req; URL req]] else [])
   ++ [ActRequest req],
   Do w req).

(** The loop of [IterateCollection], with the responses whose close is
    deferred, the last one first.  The flag tells whether the function
    returned, or the fuel ran out first. *)
Fixpoint IterateCollection_loop (fuel : nat)
    (datasourceServiceRootURL nextLink : string) (w : W)
    (deferred : list (Response string)) : W * list action * bool :=
  if String.eqb nextLink "" then (w, map ActClose deferred, true)
  else
    match fuel with
    | O => (w, [], false)
    | S fuel' =>
        let '(acts, (w1, resp)) :=
          ExecuteGETRequest w (datasourceServiceRootURL ++ nextLink)%string in
        let body := Body resp in
        let prints := if Verbose then [ActPrintln [body]] else [] in
        let '(w2, (_, nextLink')) := processResponse w1 body in
        let '(w3, acts', returned) :=
          IterateCollection_loop fuel' datasourceServiceRootURL nextLink' w2
            (resp :: deferred) in
        (w3, acts ++ prints ++ acts', returned)
    end.

Definition IterateCollection (fuel : nat)
    (datasourceServiceRootURL urlStr : string) (w : W)
  : W * list action * bool :=
  IterateCollection_loop fuel datasourceServiceRootURL urlStr w [].

End Iterate.

End client.

(* ================================================================== *)
(** ** The tracker: processTransactionLogEntries                        *)
(* ================================================================== *)

Module main.

Import reviver client.

(** What the goroutine of [processTransactionLogEntries] has done to the
    pipe, the channel and the process. *)
Record forwarder := mkForwarder {
  count : Z;
  written : list lexeme;           (* written to [outputStream] *)
  closed : bool;                   (* [outputStream.Close()] *)
  posts : list Request;            (* POST requests reading [outputPipe] *)
  drains : nat;                    (* goroutines draining [outputPipe] *)
  deltaLinkChannel : list string;  (* sent on the channel *)
  fatal : option error;            (* [log.Fatal] *)
  stuck : bool                     (* a send nobody will receive *)
}.

Definition forwarder0 : forwarder :=
  mkForwarder 0 [] false [] 0 [] None false.

(** [outputStream.Write]; on a closed pipe it writes nothing and returns
    [io.ErrClosedPipe]. *)
Definition Write (p : list lexeme) (f : forwarder) : forwarder * option error :=
  if closed f then (f, Some io_ErrClosedPipe)
  else (mkForwarder (count f) (written f ++ p) (closed f) (posts f)
          (drains f) (deltaLinkChannel f) (fatal f) (stuck f), None).

(** [encoder.Encode(txnLogEntry)]: the entry, then a new line. *)
Definition Encode (t : TransactionLogEntry) (f : forwarder)
  : forwarder * option error :=
  Write (lexemes_of (marshal_entry t)) f.

(** The three literals written around the records, as the source spells
    them: the opening of the object and of its "value" array, the
    separator, and the closing of the array. *)
Definition quote : ascii := "034".

Definition open_framing_text : string :=
  ("{ " ++ String quote ("value" ++ String quote ": [ "))%string.
Definition separator_text : string := ", ".
Definition close_framing_text : string := "] ".

Definition punctuation (c : ascii) : option lexeme :=
  if Ascii.eqb c "{" then Some LBrace
  else if Ascii.eqb c "}" then Some RBrace
  else if Ascii.eqb c "[" then Some LBracket
  else if Ascii.eqb c "]" then Some RBracket
  else if Ascii.eqb c ":" then Some LColon
  else if Ascii.eqb c "," then Some LComma
  else None.

(** The lexemes of a text made of white space, punctuation and plain
    strings, which is all these literals hold; [cur] is the string being
    read, if any. *)
Fixpoint lexemes_of_text (s : string) (cur : option string)
  : option (list lexeme) :=
  match s with
  | EmptyString =>
      match cur with
      | None => Some []
      | Some _ => None
      end
  | String c s' =>
      match cur with
      | Some str =>
          if Ascii.eqb c quote
          then option_map (cons (LString str)) (lexemes_of_text s' None)
          else lexemes_of_text s' (Some (str ++ String c EmptyString)%string)
      | None =>
          if Ascii.eqb c quote then lexemes_of_text s' (Some EmptyString)
          else if Ascii.eqb c " " || Ascii.eqb c "009" || Ascii.eqb c "010"
                  || Ascii.eqb c "013"
          then lexemes_of_text s' None
          else
            match punctuation c with
            | Some l => option_map (cons l) (lexemes_of_text s' None)
            | None => None
            end
      end
  end.

Definition open_framing : list lexeme :=
  [LBrace; LString "value"; LColon; LBracket].
Definition separator : list lexeme := [LComma].
Definition close_framing : list lexeme := [RBracket].

(** The callback given to [ParseTransactionLogs]. *)
Definition callback (txnLogContainer : TransactionLogContainer)
    (f : forwarder) : forwarder :=
  match fatal f, stuck f with
  | Some _, _ | _, true => f
  | None, false =>
      let f1 :=
        match TransactionLogEntry_ txnLogContainer with
        | Some txnLogEntry =>
            let f' :=
              if (count f =? 0)%Z then
                let f' := mkForwarder (count f) (written f) (closed f)
                            (posts f ++
                               [POST_request "http://localhost:12345"
                                  "application/json"])
                            (drains f) (deltaLinkChannel f) (fatal f)
                            (stuck f) in
                let f' := fst (Write open_framing f') in
                mkForwarder (count f' + 1) (written f') (closed f') (posts f')
                  (drains f') (deltaLinkChannel f') (fatal f') (stuck f')
              else fst (Write separator f) in
            match Encode txnLogEntry f' with
            | (f'', Some e) =>
                mkForwarder (count f'') (written f'') (closed f'') (posts f'')
                  (drains f'') (deltaLinkChannel f'') (Some e) (stuck f'')
            | (f'', None) => f''
            end
        | None => f
        end in
      match fatal f1 with
      | Some _ => f1
      | None =>
          if negb (String.eqb (DeltaLink txnLogContainer) "") then
            let f2 :=
              if (count f1 >? 0)%Z then fst (Write close_framing f1)
              else mkForwarder (count f1) (written f1) (closed f1) (posts f1)
                     (S (drains f1)) (deltaLinkChannel f1) (fatal f1)
                     (stuck f1) in
            mkForwarder (count f2) (written f2) true (posts f2) (drains f2)
              (deltaLinkChannel f2 ++ [DeltaLink txnLogContainer]) (fatal f2)
              (match deltaLinkChannel f2 with [] => false | _ :: _ => true end)
          else f1
      end
  end.

(** [err.Error()]; the text of a decoder error is cut down to its kind. *)
Definition Error (e : error) : string :=
  match e with
  | io_EOF => "EOF"
  | io_ErrUnexpectedEOF => "unexpected EOF"
  | io_ErrClosedPipe => "io: read/write on closed pipe"
  | SyntaxError => "invalid character"
  | UnmarshalTypeError => "json: cannot unmarshal"
  | errors_New msg => msg
  end.

(** [processTransactionLogEntries]: what the caller sees, and what the
    goroutine did.  The caller receives the first value sent on
    [deltaLinkChannel]; without one it waits for ever, unless
    [log.Fatal] ends the process.  The parse always returns
    ([ParseTransactionLogs_returns] below), so the last case never
    occurs. *)
Definition processTransactionLogEntries (stream : list lexeme)
  : call (string * string) * forwarder :=
  match ParseTransactionLogs callback (NewJSONReviver stream) forwarder0 with
  | Some (_, f, e) =>
      (match deltaLinkChannel f with
       | deltaLink :: _ => returns ("", deltaLink)
       | [] =>
           match fatal f, e with
           | Some e', _ => exits (Error e')
           | None, Some e' => exits (Error e')
           | None, None => blocks
           end
       end, f)
  | None => (blocks, forwarder0)
  end.

(** The stream is well-formed JSON: read by the grammar of the scanner,
    without the limit on nesting that the decoder adds (a stream nests
    no deeper than it is long), it is one value and nothing is left. *)
Definition well_formed (stream : list lexeme) : bool :=
  match scan (length stream) [] stateBeginValue stream with
  | inl (_, []) => true
  | _ => false
  end.

(** *** The start of [main] *)

(** The poll interval: [interval, _ = strconv.Atoi(os.Getenv(
    "TM1_TRACKER_INTERVAL"))], then [if interval < 1 { interval = 5 }].
    An unset variable reads as the empty string. *)
Definition interval (TM1_TRACKER_INTERVAL : string) : Z :=
  let interval := fst (strconv.Atoi TM1_TRACKER_INTERVAL) in
  if (interval <? 1)%Z then 5%Z else interval.

(** [time.Duration(interval) * time.Second], the interval given to
    [TrackCollection]: nanoseconds in an int64, the product wraps
    around. *)
Definition Second : Z := 1000000000.

Definition wrap64 (z : Z) : Z := ((z + 2 ^ 63) mod 2 ^ 64 - 2 ^ 63)%Z.

Definition poll_duration (interval : Z) : Z := wrap64 (interval * Second).

(** How the version check comes out: [main] goes on to poll, ends in
    [log.Fatalln], or panics. *)
Inductive startup :=
| proceeds
| Fatalln (msg : string)
| panics.

Definition LF : string := String "010" EmptyString.

(** The version check: [string(version)[0:10] < "10.2.20500"] ends the
    process; the slice expression panics on a version of fewer than ten
    bytes. *)
Definition check_version (version : string) : startup :=
  if (String.length version <? 10)%nat then panics
  else if String.ltb (substring 0 10 version) "10.2.20500"
  then Fatalln ("The TM1 Server version of your server is: " ++ version
                ++ " " ++ LF
                ++ " Minimal required version to use a tracker is 10.2.2 FP5!"
                ++ LF)%string
  else proceeds.

End main.

(* ================================================================== *)
(** ** mock_server.go: the handler of the mock server                   *)
(* ================================================================== *)

Module mock_server.

Definition port : string := "12345".

(** What a [r.Body.Read(buf)] returns besides the bytes read: [nil],
    [io.EOF] or another error, with its text. *)
Inductive read_error :=
| ok
| EOF
| failed (msg : string).

(** How the handler ends: it served the request and closed the body, it
    gave up on a read error, it refused the method, or it is still
    waiting for a read to return. *)
Inductive handled :=
| served
| aborted
| refused
| reading.

Definition LF : string := String "010" EmptyString.

(** The read loop of the handler over what the reads of the body
    return, in order (each read fills at most the 8096 bytes of [buf]);
    the text is what the loop prints. *)
Fixpoint read_loop (reads : list (string * read_error)) : string * handled :=
  match reads with
  | [] => ("", reading)
  | (data, err) :: reads' =>
      let printed := if (0 <? String.length data)%nat then data else "" in
      match err with
      | EOF => (printed, served)
      | failed msg => ((printed ++ msg ++ LF)%string, aborted)
      | ok =>
          let (text, h) := read_loop reads' in
          ((printed ++ text)%string, h)
      end
  end.

(** The handler registered for ["/"]. *)
Definition handler (Method : string) (reads : list (string * read_error))
  : string * handled :=
  if negb (String.eqb Method "POST")
  then (("Method not supported on this endpoint!" ++ LF)%string, refused)
  else
    let (text, h) := read_loop reads in
    (("Mock server received a connection!" ++ LF ++ text)%string, h).

End mock_server.

(* ================================================================== *)
(** ** Auxiliary definitions of the development                         *)
(* ================================================================== *)

(** Induction on a value with the hypothesis for every element and
    every member. *)
Section ValueInduction.

Variable P : value -> Prop.
Hypothesis Hnull : P JNull.
Hypothesis Hbool : forall b, P (JBool b).
Hypothesis Hnumber : forall n, P (JNumber n).
Hypothesis Hstring : forall s, P (JString s).
Hypothesis Harray : forall elems, Forall P elems -> P (JArray elems).
Hypothesis Hobject :
  forall ms, Forall (fun kv => P (snd kv)) ms -> P (JObject ms).

Fixpoint value_nested_ind (v : value) : P v :=
  match v with
  | JNull => Hnull
  | JBool b => Hbool b
  | JNumber n => Hnumber n
  | JString s => Hstring s
  | JArray elems =>
      Harray elems
        ((fix all (l : list value) : Forall P l :=
            match l with
            | [] => Forall_nil P
            | x :: l' => Forall_cons x (value_nested_ind x) (all l')
            end) elems)
  | JObject ms =>
      Hobject ms
        ((fix all (l : list (string * value))
            : Forall (fun kv => P (snd kv)) l :=
            match l with
            | [] => Forall_nil _
            | kv :: l' =>
                Forall_cons kv (value_nested_ind (snd kv)) (all l')
            end) ms)
  end.

End ValueInduction.

Definition member_lexemes (kv : string * value) : list lexeme :=
  LString (fst kv) :: LColon :: lexemes_of (snd kv).

Definition resume (limit : nat) (r : scanned) (l : list lexeme)
  : (value * list lexeme) + error :=
  match r with
  | scanContinue st s => scan limit st s l
  | scanEnd v => inl (v, l)
  | scanError => inr SyntaxError
  end.

(** How deep a value nests: the parse states the scanner stacks to read
    it. *)
Fixpoint depth (v : value) : nat :=
  match v with
  | JArray elems => S (fold_right (fun e m => Nat.max (depth e) m) 0 elems)
  | JObject ms =>
      S (fold_right (fun kv m => Nat.max (depth (snd kv)) m) 0 ms)
  | _ => 0
  end.

(** A value the scanner of the decoder reads. *)
Definition shallow (v : value) : bool := (depth v <=? maxNestingDepth)%nat.

Fixpoint any_depth (x : any) : nat :=
  match x with
  | aslice l => S (fold_right (fun y m => Nat.max (any_depth y) m) 0 l)
  | amap m => S (fold_right (fun kx n => Nat.max (any_depth (snd kx)) n) 0 m)
  | _ => 0
  end.

(** A value all of whose numbers are within float64. *)
Fixpoint convertible (v : value) : bool :=
  match v with
  | JNumber n => in_float64 n
  | JArray elems => forallb convertible elems
  | JObject ms => forallb (fun kv => convertible (snd kv)) ms
  | _ => true
  end.

Definition no_error (e : option error) : bool :=
  match e with
  | None => true
  | Some _ => false
  end.

(** The first lexeme of a value opens it. *)
Definition opens_value (c : lexeme) : bool :=
  match c with
  | RBrace | RBracket | LColon | LComma => false
  | _ => true
  end.


(** Induction on an [any] with the hypothesis for every element. *)
Section AnyInduction.

Variable P : any -> Prop.
Hypothesis Hnil : P nil.
Hypothesis Hbool : forall b, P (abool b).
Hypothesis Hfloat : forall n, P (float64 n).
Hypothesis Hstring : forall s, P (astring s).
Hypothesis Hslice : forall l, Forall P l -> P (aslice l).
Hypothesis Hmap : forall m, Forall (fun kx => P (snd kx)) m -> P (amap m).

Fixpoint any_nested_ind (x : any) : P x :=
  match x with
  | nil => Hnil
  | abool b => Hbool b
  | float64 n => Hfloat n
  | astring s => Hstring s
  | aslice l =>
      Hslice l
        ((fix all (l : list any) : Forall P l :=
            match l with
            | [] => Forall_nil P
            | y :: l' => Forall_cons y (any_nested_ind y) (all l')
            end) l)
  | amap m =>
      Hmap m
        ((fix all (l : list (string * any))
            : Forall (fun kx => P (snd kx)) l :=
            match l with
            | [] => Forall_nil _
            | kx :: l' => Forall_cons kx (any_nested_ind (snd kx)) (all l')
            end) m)
  end.

End AnyInduction.

(** *** Values a decode produces *)

(** The names of a map in strictly increasing order. *)
Fixpoint sorted_keys (m : list (string * any)) : bool :=
  match m with
  | [] => true
  | kx :: m' =>
      match m' with
      | [] => true
      | kx' :: _ =>
          match String.compare (fst kx) (fst kx') with
          | Lt => sorted_keys m'
          | _ => false
          end
      end
  end.

(** An [any] as [valueInterface] builds it: every map in it is sorted
    and every number in it is a float64. *)
Fixpoint normal (x : any) : bool :=
  match x with
  | float64 n => in_float64 n
  | aslice l => forallb normal l
  | amap m => sorted_keys m && forallb (fun kx => normal (snd kx)) m
  | _ => true
  end.

(** An [any] as it is found in a field of a record that [Decode] has
    read: it nests less deep than the record. *)
Definition built (x : any) : bool :=
  normal x && (any_depth x <? maxNestingDepth)%nat.

(** What [valueInterface] builds is normal and nests no deeper than the
    value. *)
Definition builds (D : nat) (x : any) : Prop :=
  normal x = true /\ any_depth x <= D.

(** The stack of the scanner under a limit: every value held in a parse
    state at height [h] nests no deeper than the limit leaves room for,
    and so does the value the scanner returns. *)
Section Fits.

Variable limit : nat.

Definition frame_fits (h : nat) (f : frame) : Prop :=
  match f with
  | parseArray elems => Forall (fun v => depth v + h <= limit) elems
  | parseObject ms _ => Forall (fun kv => depth (snd kv) + h <= limit) ms
  end.

Fixpoint stack_fits (st : list frame) : Prop :=
  match st with
  | [] => True
  | f :: st' =>
      length st <= limit /\ frame_fits (length st) f /\ stack_fits st'
  end.

Definition scanned_fits (r : scanned) : Prop :=
  match r with
  | scanContinue st _ => stack_fits st
  | scanEnd v => depth v <= limit
  | scanError => True
  end.

End Fits.

(** A record as [Decode] fills it, starting from the zero record. *)
Definition normal_entry (t : TransactionLogEntry) : bool :=
  inInt64 (ID t) && built (OldValue t) && built (NewValue t)
  && built (StatusMessage t).

(** *** What a body holds, read off the document *)

(** The element decodes as a record, and the record it decodes as: what
    [Decode] returns, and leaves in a new record, on the lexemes of the
    element. *)
Definition decodes (v : value) : bool :=
  no_error (snd (Decode unmarshal_entry (NewDecoder (lexemes_of v)) zeroEntry)).

Definition entry_of (v : value) : TransactionLogEntry :=
  snd (fst (Decode unmarshal_entry (NewDecoder (lexemes_of v)) zeroEntry)).

(** The element unmarshals as a record, once the scanner has read it. *)
Definition unmarshals (v : value) : bool :=
  no_error (snd (unmarshal_entry v zeroEntry)).

(** A value [Token] reads as one token: [null], a boolean, a string, or
    a number within float64. *)
Definition scalar (v : value) : bool :=
  match v with
  | JArray _ | JObject _ => false
  | JNumber n => in_float64 n
  | _ => true
  end.

Definition is_collection_name (v : value) : bool :=
  match v with
  | JString s => String.eqb s "value"
  | _ => false
  end.

Definition collection_field (kv : string * value) : bool :=
  String.eqb (fst kv) "value".

Definition continuation_field (kv : string * value) : bool :=
  String.eqb (fst kv) "@odata.deltaLink".

(** An unrelated member the parser skips by reading its value as one
    token: a scalar other than the string ["value"], a number being
    within float64. *)
Definition skippable (kv : string * value) : bool :=
  negb (collection_field kv) && negb (continuation_field kv)
  && scalar (snd kv) && negb (is_collection_name (snd kv)).

(** A collection member: an array of elements that decode. *)
Definition collection_ok (kv : string * value) : bool :=
  collection_field kv &&
  match snd kv with
  | JArray elems => forallb decodes elems
  | _ => false
  end.

(** The continuation member: its value is one the scanner reads. *)
Definition continuation_ok (kv : string * value) : bool :=
  continuation_field kv && shallow (snd kv).

Definition member_ok (kv : string * value) : bool :=
  collection_ok kv || continuation_ok kv || skippable kv.

(** A valid body: a root object of such members. *)
Definition valid_body (ms : list (string * value)) : bool :=
  forallb member_ok ms.

(** The elements under the collection field. *)
Definition elements_of (kv : string * value) : list value :=
  if collection_field kv then
    match snd kv with
    | JArray elems => elems
    | _ => []
    end
  else [].

Definition collection (ms : list (string * value)) : list value :=
  flat_map elements_of ms.

(** The continuation token of the body, over a remembered one. *)
Definition token_of (ms : list (string * value)) (deltaLink : string)
  : string :=
  fold_left
    (fun dl kv =>
       if continuation_field kv then fst (unmarshal_string (snd kv) dl)
       else dl)
    ms deltaLink.

Definition body (ms : list (string * value)) : list lexeme :=
  lexemes_of (JObject ms).

(** The record callbacks of the parser, made in order. *)
Definition deliver {St : Type}
    (callback : reviver.TransactionLogContainer -> St -> St)
    (records : list TransactionLogEntry) (st : St) : St :=
  fold_left (fun s t => callback (reviver.mkContainer (Some t) "") s)
    records st.

(** The array from its first element on, after the opening bracket. *)
Definition elements_lexemes (es : list value) : list lexeme :=
  match es with
  | [] => []
  | e :: es' => lexemes_of e ++ flat_map (fun x => LComma :: lexemes_of x) es'
  end.

(** *** The same for the earlier variant, which knows the collection
    field only and skips every other member as one token *)

Definition skippable0 (kv : string * value) : bool :=
  negb (collection_field kv) && scalar (snd kv)
  && negb (is_collection_name (snd kv)).

Definition member_ok0 (kv : string * value) : bool :=
  collection_ok kv || skippable0 kv.

Definition valid_body0 (ms : list (string * value)) : bool :=
  forallb member_ok0 ms.

Definition deliver0 {St : Type}
    (callback : option TransactionLogEntry -> bool -> St -> St)
    (records : list TransactionLogEntry) (st : St) : St :=
  fold_left (fun s t => callback (Some t) false s) records st.

(** A callback of the earlier variant as one on containers. *)
Definition as_container {St : Type}
    (callback : option TransactionLogEntry -> bool -> St -> St)
    (c : reviver.TransactionLogContainer) : St -> St :=
  callback (reviver.TransactionLogEntry_ c) false.

(** The two parse result units. *)
Definition record_unit (t : TransactionLogEntry)
  : reviver.TransactionLogContainer :=
  reviver.mkContainer (Some t) "".

Definition final_unit (deltaLink : string) : reviver.TransactionLogContainer :=
  reviver.mkContainer None deltaLink.

Definition record_unit0 (t : TransactionLogEntry)
  : option TransactionLogEntry * bool :=
  (Some t, false).

Definition final_unit0 : option TransactionLogEntry * bool := (None, true).

Definition decode_failed : error :=
  errors_New "unable to decode transaction log entry".

(** *** Sample documents *)

Definition entry1 : value :=
  JObject [("ID", JNumber (Int 1)); ("User", JString "Admin");
           ("Cube", JString "Sales"); ("Tuple", JArray [JString "a"]);
           ("NewValue", JNumber (Int 7))].

Definition entry2 : value :=
  JObject [("ID", JNumber (Int 2)); ("User", JString "Admin");
           ("OldValue", JString "x"); ("NewValue", JNull)].

Definition sample_body : list (string * value) :=
  [ ("@odata.context", JString "$metadata#TransactionLogEntries");
    ("value", JArray [entry1; entry2]);
    ("@odata.deltaLink", JString "TransactionLogEntries/!delta('T2')") ].

(** The same body with an unrelated member that holds an object. *)
Definition nested_body : list (string * value) :=
  ("meta", JObject [("a", JNumber (Int 1))]) :: sample_body.

(** *** What the forwarder has done after a body *)

Definition the_post : client.Request :=
  client.POST_request "http://localhost:12345" "application/json".

(** The stream after the records [rs]: the opening, the first record,
    then a separator and a record for each further one. *)
Definition framed (rs : list TransactionLogEntry) : list lexeme :=
  match rs with
  | [] => []
  | r :: rs' =>
      main.open_framing ++ lexemes_of (marshal_entry r) ++
      flat_map (fun t => main.separator ++ lexemes_of (marshal_entry t)) rs'
  end.

(** The forwarder after the records [rs] and the final unit with the
    continuation token [deltaLink]. *)
Definition forwarded (rs : list TransactionLogEntry) (deltaLink : string)
  : main.forwarder :=
  let sent := negb (String.eqb deltaLink "") in
  main.mkForwarder
    (match rs with [] => 0 | _ :: _ => 1 end)
    (framed rs ++
     match rs with
     | [] => []
     | _ :: _ => if sent then main.close_framing else []
     end)
    sent
    (match rs with [] => [] | _ :: _ => [the_post] end)
    (match rs with [] => if sent then 1 else 0 | _ :: _ => 0 end)
    (if sent then [deltaLink] else [])
    None false.

(** The processor as the client is given it in [main]. *)
Definition processor {W : Type} (w : W) (stream : list lexeme)
  : W * client.call (string * string) :=
  (w, fst (main.processTransactionLogEntries stream)).

(** The request [TrackCollection] makes for a URL. *)
Definition track_request (urlStr : string) : client.Request :=
  client.mkRequest "GET" urlStr
    [ ("OData-Version", "4.0"); ("Accept", "application/json");
      ("Prefer", "odata.track-changes") ].

(** A body without Records and without a continuation token. *)
Definition empty_body : list (string * value) := [("value", JArray [])].

(** A server that answers every request with status 500 and a body that
    carries a delta link. *)
Definition failing_server (w : unit) (req : client.Request)
  : unit * client.Response (list lexeme) :=
  (w, client.mkResponse 500 "500 Internal Server Error"
        (body [("value", JArray []); ("@odata.deltaLink", JString "T3")])).

(** The same server answering with status 200. *)
Definition ok_server (w : unit) (req : client.Request)
  : unit * client.Response (list lexeme) :=
  (w, client.mkResponse 200 "200 OK"
        (body [("value", JArray []); ("@odata.deltaLink", JString "T3")])).

(** The answer to the version request of [main], had it failed. *)
Definition version_response : client.Response string :=
  client.mkResponse 503 "503 Service Unavailable" "try later".

Definition version_logFmt (_ : unit) : string :=
  "Server responded with an unexpected result while asking for its version number.".



(** *** Bodies the parser does not take as a whole *)

(** The members of an object after its opening brace. *)
Definition members_lexemes (ms : list (string * value)) : list lexeme :=
  match ms with
  | [] => []
  | m :: ms' =>
      member_lexemes m ++ flat_map (fun x => LComma :: member_lexemes x) ms'
  end.

Definition is_array (v : value) : bool :=
  match v with
  | JArray _ => true
  | _ => false
  end.

(** A member that is neither the collection nor the continuation token. *)
Definition unrelated (k : string) : bool :=
  negb (String.eqb k "value") && negb (String.eqb k "@odata.deltaLink").

(** An array element the member loop reads as one token and passes
    over: a scalar (a number being within float64) that is neither of
    the two names. *)
Definition passed_over (v : value) : bool :=
  scalar v && negb (is_collection_name v) &&
  match v with
  | JString s => negb (String.eqb s "@odata.deltaLink")
  | _ => true
  end.

Definition passed_over0 (v : value) : bool :=
  scalar v && negb (is_collection_name v).

Definition array_start_missing : error :=
  errors_New "JSON array start delimiter not found".
Definition object_start_missing : error :=
  errors_New "JSON object start delimiter not found".
Definition object_end_missing : error :=
  errors_New "JSON object end delimiter not found".

(** The error of the token the parser reads where it expects the
    opening bracket of the collection: that of [Token] on a number
    outside float64, and else that of the parser. *)
Definition no_array_error (v : value) : error :=
  match v with
  | JNumber n =>
      if in_float64 n then array_start_missing else UnmarshalTypeError
  | _ => array_start_missing
  end.

(** The same where it expects the opening brace of the root object. *)
Definition no_object_error (l : lexeme) : error :=
  match l with
  | LNumber n =>
      if in_float64 n then object_start_missing else UnmarshalTypeError
  | _ => object_start_missing
  end.

(** What [ParseTransactionLogs] does after the member loop, in
    utils/json_reviver.go and in the earlier variant. *)
Definition after_members {St : Type}
    (callback : reviver.TransactionLogContainer -> St -> St)
    (r : option (Decoder * string * St * option error))
  : option (reviver.JSONReviver * St * option error) :=
  match r with
  | None => None
  | Some (dec2, _, st2, Some e) => Some (reviver.mkReviver dec2, st2, Some e)
  | Some (dec2, deltaLink, st2, None) =>
      match Token_ dec2 with
      | (dec3, inr e) => Some (reviver.mkReviver dec3, st2, Some e)
      | (dec3, inl t) =>
          if negb (is_delim t "}")
          then Some (reviver.mkReviver dec3, st2, Some object_end_missing)
          else
            Some (reviver.mkReviver dec3,
                  callback (reviver.mkContainer None deltaLink) st2, None)
      end
  end.

Definition after_members0 {St : Type}
    (callback : option TransactionLogEntry -> bool -> St -> St)
    (r : option (Decoder * St * option error))
  : option (reviver0.JSONReviver * St * option error) :=
  match r with
  | None => None
  | Some (dec2, st2, Some e) => Some (reviver0.mkReviver dec2, st2, Some e)
  | Some (dec2, st2, None) =>
      Some (reviver0.mkReviver dec2, callback None true st2, None)
  end.

(** *** The elements that decode as a record *)

(** The values a field of [TransactionLogEntry] accepts, by its type;
    [null] is accepted by every field, and an [interface{}] accepts
    every value whose numbers are within float64. *)
Definition string_or_null (v : value) : bool :=
  match v with
  | JString _ | JNull => true
  | _ => false
  end.

Definition fits (f : field) (v : value) : bool :=
  match f with
  | fID =>
      match v with
      | JNumber (Int z) => inInt64 z
      | JNull => true
      | _ => false
      end
  | fChangeSetID | fTimeStamp | fReplicationTime | fUser | fCube =>
      string_or_null v
  | fTuple =>
      match v with
      | JArray elems => forallb string_or_null elems
      | JNull => true
      | _ => false
      end
  | fOldValue | fNewValue | fStatusMessage => convertible v
  end.

(** A member that names no field fits. *)
Definition member_fits (kv : string * value) : bool :=
  match field_of (fst kv) with
  | Some f => fits f (snd kv)
  | None => true
  end.

(** *** Runs of the forwarder and of the two loops of the client *)

(** A parse result unit that carries a Record. *)
Definition is_record (c : reviver.TransactionLogContainer) : bool :=
  match reviver.TransactionLogEntry_ c with
  | Some _ => true
  | None => false
  end.

(** The traces of the poll loop: requests for links under the service
    root with the change-tracking header, each followed by at most one
    sleep, of the interval. *)
Inductive polled (serviceRootURL : string) (interval : Z)
  : list client.event -> Prop :=
| polled_nil : polled serviceRootURL interval []
| polled_request (u : string) (evs : list client.event) :
    u <> "" ->
    polled serviceRootURL interval evs ->
    polled serviceRootURL interval
      (client.EvRequest (track_request (serviceRootURL ++ u)%string) :: evs)
| polled_sleep (u : string) (evs : list client.event) :
    u <> "" ->
    polled serviceRootURL interval evs ->
    polled serviceRootURL interval
      (client.EvRequest (track_request (serviceRootURL ++ u)%string)
       :: client.EvSleep interval :: evs).

(** The request [ExecuteGETRequest] makes for a URL. *)
Definition plain_request (urlStr : string) : client.Request :=
  client.mkRequest "GET" urlStr
    [ ("OData-Version", "4.0"); ("Accept", "application/json") ].



(** The URLs requested, in order, by [IterateCollection] and by
    [TrackCollection]. *)
Definition requested (acts : list client.action) : list string :=
  flat_map (fun a => match a with
                     | client.ActRequest req => [client.URL req]
                     | _ => []
                     end) acts.

Definition polled_urls (evs : list client.event) : list string :=
  flat_map (fun ev => match ev with
                      | client.EvRequest req => [client.URL req]
                      | client.EvSleep _ => []
                      end) evs.

(** The processor that makes [TrackCollection] page as
    [IterateCollection] does: the next-link, and no delta-link. *)
Definition paging_processor {W : Type}
    (processResponse : W -> string -> W * (Z * string))
    (w : W) (body : string) : W * client.call (string * string) :=
  let '(w', (_, nextLink)) := processResponse w body in
  (w', client.returns (nextLink, "")).

(** A collection served in three pages, each answered with its own URL:
    the first two link to the next one. *)
Definition countdown_server (w : nat) (req : client.Request)
  : nat * client.Response string :=
  (S w, client.mkResponse 200 "200 OK" (client.URL req)).

Definition countdown_processResponse (w : nat) (page : string)
  : nat * (Z * string) :=
  (w,
   if String.eqb page "root/p2" then (2%Z, "p1")
   else if String.eqb page "root/p1" then (2%Z, "p0")
   else (1%Z, "")).

(* ================================================================== *)
(** * Properties                                                        *)
(* ================================================================== *)

(** ** The scanner reads back what [lexemes_of] writes *)

Lemma commas_cons (c : list lexeme) (rest : list (list lexeme)) :
  commas (c :: rest) = c ++ flat_map (fun x => LComma :: x) rest.
Proof.
  revert c. induction rest as [|d rest IH]; intros c.
  - simpl. now rewrite app_nil_r.
  - change (commas (c :: d :: rest)) with (c ++ LComma :: commas (d :: rest)).
    rewrite IH. reflexivity.
Qed.

Lemma flat_map_map {A B C} (f : A -> B) (g : B -> list C) (l : list A) :
  flat_map g (map f l) = flat_map (fun a => g (f a)) l.
Proof. induction l as [|a l IH]; simpl; [reflexivity | now rewrite IH]. Qed.

Lemma lexemes_of_array (elems : list value) :
  lexemes_of (JArray elems) =
  LBracket ::
  match elems with
  | [] => []
  | e :: es => lexemes_of e ++ flat_map (fun x => LComma :: lexemes_of x) es
  end ++ [RBracket].
Proof.
  destruct elems as [|e es]; [reflexivity|].
  cbn [lexemes_of map]. rewrite commas_cons, flat_map_map. reflexivity.
Qed.

Lemma lexemes_of_object (ms : list (string * value)) :
  lexemes_of (JObject ms) =
  LBrace ::
  match ms with
  | [] => []
  | m :: ms' =>
      member_lexemes m ++ flat_map (fun x => LComma :: member_lexemes x) ms'
  end ++ [RBrace].
Proof.
  destruct ms as [|m ms']; [reflexivity|].
  cbn [lexemes_of map]. rewrite commas_cons, flat_map_map. reflexivity.
Qed.

Lemma lexemes_of_head (v : value) :
  exists c l, lexemes_of v = c :: l /\ opens_value c = true.
Proof.
  destruct v; cbn [lexemes_of]; eauto.
Qed.

Lemma max_fold_le {A} (f : A -> nat) (l : list A) (m : nat) :
  fold_right (fun x n => Nat.max (f x) n) 0 l <= m <->
  Forall (fun x => f x <= m) l.
Proof.
  induction l as [|a l IH]; cbn [fold_right].
  - split; [constructor | lia].
  - split.
    + intros H. constructor; [lia|]. apply IH. lia.
    + intros H. inversion H as [|? ? Ha Hl]; subst. apply IH in Hl. lia.
Qed.

Lemma depth_array (elems : list value) (m : nat) :
  depth (JArray elems) <= S m <-> Forall (fun e => depth e <= m) elems.
Proof.
  cbn [depth]. rewrite <- (max_fold_le depth elems m). lia.
Qed.

Lemma depth_object (ms : list (string * value)) (m : nat) :
  depth (JObject ms) <= S m <-> Forall (fun kv => depth (snd kv) <= m) ms.
Proof.
  cbn [depth]. rewrite <- (max_fold_le (fun kv => depth (snd kv)) ms m). lia.
Qed.

Lemma shallow_le (v : value) :
  shallow v = true <-> depth v <= maxNestingDepth.
Proof. unfold shallow. apply Nat.leb_le. Qed.

Lemma maxNestingDepth_ge : 2 <= maxNestingDepth.
Proof. unfold maxNestingDepth. lia. Qed.

Section ScanProps.

Variable limit : nat.

Lemma pushParseState_ok (st : list frame) (f : frame) (s : step) :
  S (length st) <= limit ->
  pushParseState limit st f s = scanContinue (f :: st) s.
Proof.
  intros H. unfold pushParseState. cbn [length].
  apply Nat.leb_le in H. now rewrite H.
Qed.

Lemma pushParseState_full (st : list frame) (f : frame) (s : step) :
  limit < S (length st) ->
  pushParseState limit st f s = scanError.
Proof.
  intros H. unfold pushParseState. cbn [length].
  apply Nat.leb_gt in H. now rewrite H.
Qed.

Lemma scan_array_rest (st : list frame) (l : list lexeme) (es : list value) :
  Forall (fun v => forall st l,
            depth v + length st <= limit ->
            scan limit st stateBeginValue (lexemes_of v ++ l)
            = resume limit (endValue v st) l) es ->
  Forall (fun v => depth v + S (length st) <= limit) es ->
  forall acc,
    scan limit (parseArray acc :: st) stateEndValue
      (flat_map (fun x => LComma :: lexemes_of x) es ++ RBracket :: l)
    = resume limit (endValue (JArray (acc ++ es)) st) l.
Proof.
  induction 1 as [|e es He _ IH]; intros Hd acc.
  - rewrite app_nil_r. reflexivity.
  - inversion Hd as [|? ? Hde Hdes]; subst.
    cbn [flat_map]. rewrite <- !app_comm_cons, <- app_assoc.
    cbn [scan scan_step]. rewrite He by exact Hde. cbn [endValue resume].
    rewrite (IH Hdes), <- app_assoc. reflexivity.
Qed.

Lemma scan_object_rest (st : list frame) (l : list lexeme)
    (ms : list (string * value)) :
  Forall (fun kv => forall st l,
            depth (snd kv) + length st <= limit ->
            scan limit st stateBeginValue (lexemes_of (snd kv) ++ l)
            = resume limit (endValue (snd kv) st) l) ms ->
  Forall (fun kv => depth (snd kv) + S (length st) <= limit) ms ->
  forall acc,
    scan limit (parseObject acc None :: st) stateEndValue
      (flat_map (fun x => LComma :: member_lexemes x) ms ++ RBrace :: l)
    = resume limit (endValue (JObject (acc ++ ms)) st) l.
Proof.
  induction 1 as [|[k v] ms Hm _ IH]; intros Hd acc.
  - rewrite app_nil_r. reflexivity.
  - inversion Hd as [|? ? Hde Hdes]; subst.
    cbn [flat_map].
    change (member_lexemes (k, v)) with (LString k :: LColon :: lexemes_of v).
    rewrite <- !app_comm_cons, <- app_assoc.
    cbn [scan scan_step beginString]. cbn [snd] in Hm, Hde.
    rewrite Hm by exact Hde.
    cbn [endValue resume]. rewrite (IH Hdes), <- app_assoc. reflexivity.
Qed.

Lemma Forall_depth_under {A} (f : A -> nat) (l : list A) (n : nat) :
  S (fold_right (fun x m => Nat.max (f x) m) 0 l) + n <= limit ->
  Forall (fun x => f x + S n <= limit) l.
Proof.
  intros H.
  assert (Hm : fold_right (fun x m => Nat.max (f x) m) 0 l <= limit - S n)
    by lia.
  apply max_fold_le in Hm. eapply Forall_impl; [|exact Hm].
  cbn beta. intros a Ha. lia.
Qed.

(** A value that fits under the stack is read back, whatever follows. *)
Lemma scan_value (v : value) :
  forall st l,
    depth v + length st <= limit ->
    scan limit st stateBeginValue (lexemes_of v ++ l)
    = resume limit (endValue v st) l.
Proof.
  induction v as [| b | n | s | elems IH | ms IH] using value_nested_ind;
    intros st l Hd; try reflexivity.
  - rewrite lexemes_of_array.
    assert (Hpush : S (length st) <= limit) by (cbn [depth] in Hd; lia).
    pose proof (Forall_depth_under depth elems (length st) Hd) as Hes'.
    destruct IH as [|e es He Hes].
    + rewrite <- app_comm_cons. cbn [scan scan_step beginValue].
      rewrite pushParseState_ok by exact Hpush. reflexivity.
    + inversion Hes' as [|? ? Hde Hdes]; subst.
      rewrite <- app_comm_cons. cbn [scan scan_step beginValue].
      rewrite pushParseState_ok by exact Hpush.
      destruct (lexemes_of_head e) as (c & l' & Hc & Hopen).
      rewrite <- !app_assoc.
      assert (Hstep : forall X,
                 scan limit (parseArray [] :: st) stateBeginValueOrEmpty
                   (lexemes_of e ++ X)
                 = scan limit (parseArray [] :: st) stateBeginValue
                     (lexemes_of e ++ X)).
      { intros X. rewrite Hc. destruct c; try discriminate Hopen; reflexivity. }
      rewrite Hstep, He by exact Hde. cbn [endValue resume app].
      apply (scan_array_rest st l es Hes Hdes [e]).
  - rewrite lexemes_of_object.
    assert (Hpush : S (length st) <= limit) by (cbn [depth] in Hd; lia).
    pose proof (Forall_depth_under (fun kv => depth (snd kv)) ms (length st) Hd)
      as Hms'.
    destruct IH as [|[k v] ms Hm Hms].
    + rewrite <- app_comm_cons. cbn [scan scan_step beginValue].
      rewrite pushParseState_ok by exact Hpush. reflexivity.
    + inversion Hms' as [|? ? Hde Hdes]; subst.
      rewrite <- app_comm_cons. cbn [scan scan_step beginValue].
      rewrite pushParseState_ok by exact Hpush.
      change (member_lexemes (k, v)) with (LString k :: LColon :: lexemes_of v).
      rewrite <- !app_comm_cons.
      cbn [scan scan_step beginString].
      rewrite <- !app_assoc. cbn [snd] in Hm, Hde. rewrite Hm by exact Hde.
      cbn [endValue resume app].
      apply (scan_object_rest st l ms Hms Hdes [(k, v)]).
Qed.

(** The elements of an array, one of which nests too deep for the stack:
    the scanner stops at it. *)
Lemma scan_array_rest_deep (st : list frame) (l : list lexeme)
    (es : list value) :
  Forall (fun v => forall st l,
            length st <= limit -> limit < depth v + length st ->
            scan limit st stateBeginValue (lexemes_of v ++ l)
            = inr SyntaxError) es ->
  S (length st) <= limit ->
  Exists (fun v => limit < depth v + S (length st)) es ->
  forall acc,
    scan limit (parseArray acc :: st) stateEndValue
      (flat_map (fun x => LComma :: lexemes_of x) es ++ RBracket :: l)
    = inr SyntaxError.
Proof.
  induction 1 as [|e es He _ IH]; intros Hst Hex acc.
  - inversion Hex.
  - cbn [flat_map]. rewrite <- !app_comm_cons, <- app_assoc.
    cbn [scan scan_step].
    destruct (Nat.lt_ge_cases limit (depth e + S (length st))) as [Hdeep|Hok].
    + apply He; [exact Hst | exact Hdeep].
    + rewrite scan_value by exact Hok. cbn [endValue resume].
      apply IH; [exact Hst|].
      inversion Hex as [? ? Hx | ? ? Hx]; subst; [lia | exact Hx].
Qed.

Lemma scan_object_rest_deep (st : list frame) (l : list lexeme)
    (ms : list (string * value)) :
  Forall (fun kv => forall st l,
            length st <= limit -> limit < depth (snd kv) + length st ->
            scan limit st stateBeginValue (lexemes_of (snd kv) ++ l)
            = inr SyntaxError) ms ->
  S (length st) <= limit ->
  Exists (fun kv => limit < depth (snd kv) + S (length st)) ms ->
  forall acc,
    scan limit (parseObject acc None :: st) stateEndValue
      (flat_map (fun x => LComma :: member_lexemes x) ms ++ RBrace :: l)
    = inr SyntaxError.
Proof.
  induction 1 as [|[k v] ms Hm _ IH]; intros Hst Hex acc.
  - inversion Hex.
  - cbn [flat_map].
    change (member_lexemes (k, v)) with (LString k :: LColon :: lexemes_of v).
    rewrite <- !app_comm_cons, <- app_assoc.
    cbn [scan scan_step beginString]. cbn [snd] in Hm.
    destruct (Nat.lt_ge_cases limit (depth v + S (length st))) as [Hdeep|Hok].
    + apply Hm; [exact Hst | exact Hdeep].
    + rewrite scan_value by exact Hok. cbn [endValue resume].
      apply IH; [exact Hst|].
      inversion Hex as [? ? Hx | ? ? Hx]; subst;
        [cbn [snd] in Hx; lia | exact Hx].
Qed.

Lemma Exists_depth_over {A} (f : A -> nat) (l : list A) (n : nat) :
  S n <= limit ->
  limit < S (fold_right (fun x m => Nat.max (f x) m) 0 l) + n ->
  Exists (fun x => limit < f x + S n) l.
Proof.
  intros Hn H. induction l as [|a l IH]; cbn [fold_right] in H; [lia|].
  destruct (Nat.lt_ge_cases limit (f a + S n)) as [Ha|Ha].
  - now left.
  - right. apply IH. lia.
Qed.

(** A value that nests too deep for the stack is not read: the scanner
    stops where the stack would grow past the limit. *)
Lemma scan_value_deep (v : value) :
  forall st l,
    length st <= limit ->
    limit < depth v + length st ->
    scan limit st stateBeginValue (lexemes_of v ++ l) = inr SyntaxError.
Proof.
  induction v as [| b | n | s | elems IH | ms IH] using value_nested_ind;
    intros st l Hst Hd; try (cbn [depth] in Hd; lia).
  - rewrite lexemes_of_array. rewrite <- app_comm_cons.
    cbn [scan scan_step beginValue].
    destruct (Nat.lt_ge_cases limit (S (length st))) as [Hfull|Hpush].
    + rewrite pushParseState_full by exact Hfull. reflexivity.
    + rewrite pushParseState_ok by exact Hpush.
      pose proof (Exists_depth_over depth elems (length st) Hpush Hd) as Hex.
      destruct IH as [|e es He Hes]; [inversion Hex|].
      destruct (lexemes_of_head e) as (c & l' & Hc & Hopen).
      rewrite <- !app_assoc.
      assert (Hstep : forall X,
                 scan limit (parseArray [] :: st) stateBeginValueOrEmpty
                   (lexemes_of e ++ X)
                 = scan limit (parseArray [] :: st) stateBeginValue
                     (lexemes_of e ++ X)).
      { intros X. rewrite Hc. destruct c; try discriminate Hopen; reflexivity. }
      rewrite Hstep.
      destruct (Nat.lt_ge_cases limit (depth e + S (length st)))
        as [Hdeep|Hok].
      * apply He; [exact Hpush | exact Hdeep].
      * rewrite scan_value by exact Hok. cbn [endValue resume app].
        apply (scan_array_rest_deep st l es Hes Hpush).
        inversion Hex as [? ? Hx | ? ? Hx]; subst; [lia | exact Hx].
  - rewrite lexemes_of_object. rewrite <- app_comm_cons.
    cbn [scan scan_step beginValue].
    destruct (Nat.lt_ge_cases limit (S (length st))) as [Hfull|Hpush].
    + rewrite pushParseState_full by exact Hfull. reflexivity.
    + rewrite pushParseState_ok by exact Hpush.
      pose proof (Exists_depth_over (fun kv => depth (snd kv)) ms (length st)
                    Hpush Hd) as Hex.
      destruct IH as [|[k v] ms Hm Hms]; [inversion Hex|].
      change (member_lexemes (k, v)) with (LString k :: LColon :: lexemes_of v).
      rewrite <- !app_comm_cons.
      cbn [scan scan_step beginString].
      rewrite <- !app_assoc. cbn [snd] in Hm.
      destruct (Nat.lt_ge_cases limit (depth v + S (length st)))
        as [Hdeep|Hok].
      * apply Hm; [exact Hpush | exact Hdeep].
      * rewrite scan_value by exact Hok. cbn [endValue resume app].
        apply (scan_object_rest_deep st l ms Hms Hpush).
        inversion Hex as [? ? Hx | ? ? Hx]; subst;
          [cbn [snd] in Hx; lia | exact Hx].
Qed.

End ScanProps.

Lemma readValue_lexemes_of (v : value) (l : list lexeme) :
  shallow v = true ->
  readValue (lexemes_of v ++ l) = inl (v, l).
Proof.
  intros Hv. apply shallow_le in Hv. unfold readValue.
  destruct (lexemes_of_head v) as (c & l' & Hc & _).
  pose proof (scan_value maxNestingDepth v [] l) as H. rewrite Hc in *.
  apply H. cbn [length]. lia.
Qed.

Lemma readValue_deep (v : value) (l : list lexeme) :
  shallow v = false ->
  readValue (lexemes_of v ++ l) = inr SyntaxError.
Proof.
  intros Hv. unfold shallow in Hv. apply Nat.leb_gt in Hv. unfold readValue.
  destruct (lexemes_of_head v) as (c & l' & Hc & _).
  pose proof (scan_value_deep maxNestingDepth v [] l) as H. rewrite Hc in *.
  apply H; cbn [length]; lia.
Qed.

(** ** The decoder on the lexemes of a document *)

Lemma More_value (v : value) (b : list lexeme) ts stack e :
  More (mkDecoder (lexemes_of v ++ b) ts stack e) = true.
Proof.
  destruct (lexemes_of_head v) as (c & l & Hc & Hopen).
  unfold More, peek. cbn [buf]. rewrite Hc.
  destruct c; try discriminate Hopen; reflexivity.
Qed.

Lemma Decode_value {T} (u : value -> T -> T * option error)
    (v : value) (b : list lexeme) ts stack (target : T) :
  tokenValueAllowed ts = true ->
  shallow v = true ->
  Decode u (mkDecoder (lexemes_of v ++ b) ts stack None) target
  = (mkDecoder b (tokenValueEnd ts) stack None,
     fst (u v target), snd (u v target)).
Proof.
  intros Hts Hv. unfold Decode. cbn [err].
  assert (Hprep : tokenPrepareForDecode
                    (mkDecoder (lexemes_of v ++ b) ts stack None)
                  = (mkDecoder (lexemes_of v ++ b) ts stack None, None)).
  { destruct ts; try discriminate Hts; reflexivity. }
  rewrite Hprep. cbn [tokState buf tokenStack]. rewrite Hts. cbn [negb].
  rewrite readValue_lexemes_of by exact Hv. destruct (u v target); reflexivity.
Qed.

(** A value that nests too deep is not consumed, and the error of the
    scanner sticks to the decoder. *)
Lemma Decode_value_deep {T} (u : value -> T -> T * option error)
    (v : value) (b : list lexeme) ts stack (target : T) :
  tokenValueAllowed ts = true ->
  shallow v = false ->
  Decode u (mkDecoder (lexemes_of v ++ b) ts stack None) target
  = (mkDecoder (lexemes_of v ++ b) ts stack (Some SyntaxError), target,
     Some SyntaxError).
Proof.
  intros Hts Hv. unfold Decode. cbn [err].
  assert (Hprep : tokenPrepareForDecode
                    (mkDecoder (lexemes_of v ++ b) ts stack None)
                  = (mkDecoder (lexemes_of v ++ b) ts stack None, None)).
  { destruct ts; try discriminate Hts; reflexivity. }
  rewrite Hprep. cbn [tokState buf tokenStack]. rewrite Hts. cbn [negb].
  rewrite readValue_deep by exact Hv. reflexivity.
Qed.

Lemma Decode_after_comma {T} (u : value -> T -> T * option error)
    (v : value) (b : list lexeme) stack (target : T) :
  shallow v = true ->
  Decode u (mkDecoder (LComma :: lexemes_of v ++ b) tokenArrayComma stack None)
    target
  = (mkDecoder b tokenArrayComma stack None,
     fst (u v target), snd (u v target)).
Proof.
  intros Hv.
  unfold Decode. cbn [err tokenPrepareForDecode tokState peek buf advance tl
                      tokenStack tokenValueAllowed negb].
  rewrite readValue_lexemes_of by exact Hv. destruct (u v target); reflexivity.
Qed.

Lemma Decode_after_comma_deep {T} (u : value -> T -> T * option error)
    (v : value) (b : list lexeme) stack (target : T) :
  shallow v = false ->
  Decode u (mkDecoder (LComma :: lexemes_of v ++ b) tokenArrayComma stack None)
    target
  = (mkDecoder (lexemes_of v ++ b) tokenArrayValue stack (Some SyntaxError),
     target, Some SyntaxError).
Proof.
  intros Hv.
  unfold Decode. cbn [err tokenPrepareForDecode tokState peek buf advance tl
                      tokenStack tokenValueAllowed negb].
  rewrite readValue_deep by exact Hv. reflexivity.
Qed.

Lemma Decode_after_colon {T} (u : value -> T -> T * option error)
    (v : value) (b : list lexeme) stack (target : T) :
  shallow v = true ->
  Decode u (mkDecoder (LColon :: lexemes_of v ++ b) tokenObjectColon stack None)
    target
  = (mkDecoder b tokenObjectComma stack None,
     fst (u v target), snd (u v target)).
Proof.
  intros Hv.
  unfold Decode. cbn [err tokenPrepareForDecode tokState peek buf advance tl
                      tokenStack tokenValueAllowed negb].
  rewrite readValue_lexemes_of by exact Hv. destruct (u v target); reflexivity.
Qed.

(** The element decodes when the scanner reads it and it unmarshals. *)
Lemma decodes_spec (v : value) : decodes v = shallow v && unmarshals v.
Proof.
  unfold decodes, unmarshals, NewDecoder.
  rewrite <- (app_nil_r (lexemes_of v)).
  destruct (shallow v) eqn:Hv.
  - rewrite Decode_value by (reflexivity || exact Hv). reflexivity.
  - rewrite Decode_value_deep by (reflexivity || exact Hv). reflexivity.
Qed.

Lemma entry_of_spec (v : value) :
  entry_of v = if shallow v then fst (unmarshal_entry v zeroEntry)
               else zeroEntry.
Proof.
  unfold entry_of, NewDecoder.
  rewrite <- (app_nil_r (lexemes_of v)).
  destruct (shallow v) eqn:Hv.
  - rewrite Decode_value by (reflexivity || exact Hv). reflexivity.
  - rewrite Decode_value_deep by (reflexivity || exact Hv). reflexivity.
Qed.

Lemma decodes_shallow (v : value) : decodes v = true -> shallow v = true.
Proof. rewrite decodes_spec. now intros [H _]%andb_prop. Qed.

Lemma decodes_entry (v : value) :
  decodes v = true ->
  unmarshal_entry v zeroEntry = (entry_of v, None).
Proof.
  rewrite decodes_spec, entry_of_spec. intros [Hv Hu]%andb_prop. rewrite Hv.
  unfold unmarshals in Hu.
  destruct (unmarshal_entry v zeroEntry) as [t [e|]];
    [discriminate | reflexivity].
Qed.

Lemma not_decodes_entry (v : value) :
  decodes v = false ->
  shallow v = false \/
  (shallow v = true /\ exists t e, unmarshal_entry v zeroEntry = (t, Some e)).
Proof.
  rewrite decodes_spec. destruct (shallow v); [|now left].
  cbn [andb]. unfold unmarshals. intros H. right. split; [reflexivity|].
  destruct (unmarshal_entry v zeroEntry) as [t [e|]]; [eauto | discriminate].
Qed.

(** ** The element loop *)

Section ElementLoop.

Import reviver.

Context {St : Type}.
Variable callback : TransactionLogContainer -> St -> St.

Lemma array_loop_rest (es : list value) :
  forallb decodes es = true ->
  forall fuel b stack st,
    length (flat_map (fun x => LComma :: lexemes_of x) es ++ RBracket :: b)
      < fuel ->
    array_loop callback fuel
      (mkDecoder (flat_map (fun x => LComma :: lexemes_of x) es
                  ++ RBracket :: b) tokenArrayComma stack None) st
    = Some (mkDecoder (RBracket :: b) tokenArrayComma stack None,
            deliver callback (map entry_of es) st, None).
Proof.
  induction es as [|e es IH]; intros Hes fuel b stack st Hlen.
  - destruct fuel as [|f]; [cbn in Hlen; lia|]. reflexivity.
  - cbn [forallb] in Hes. apply andb_prop in Hes as [He Hes].
    destruct fuel as [|f]; [cbn in Hlen; lia|].
    cbn [flat_map] in *. rewrite <- !app_comm_cons, <- app_assoc in *.
    cbn [array_loop]. change (More _) with true. cbv iota.
    rewrite Decode_after_comma, decodes_entry
      by (assumption || now apply decodes_shallow).
    cbn [fst snd]. rewrite IH; [reflexivity | assumption |].
    cbn [length] in Hlen. rewrite length_app in Hlen. lia.
Qed.

Lemma array_loop_elements (es : list value) :
  forallb decodes es = true ->
  forall fuel b stack st,
    length (elements_lexemes es ++ RBracket :: b) < fuel ->
    exists ts,
      (ts = tokenArrayStart \/ ts = tokenArrayComma) /\
      array_loop callback fuel
        (mkDecoder (elements_lexemes es ++ RBracket :: b)
           tokenArrayStart stack None) st
      = Some (mkDecoder (RBracket :: b) ts stack None,
              deliver callback (map entry_of es) st, None).
Proof.
  intros Hes fuel b stack st Hlen. destruct es as [|e es].
  - exists tokenArrayStart. split; [now left|].
    destruct fuel as [|f]; [cbn in Hlen; lia|]. reflexivity.
  - exists tokenArrayComma. split; [now right|].
    cbn [forallb] in Hes. apply andb_prop in Hes as [He Hes].
    destruct fuel as [|f]; [cbn in Hlen; lia|].
    cbn [elements_lexemes] in *. rewrite <- app_assoc in *.
    cbn [array_loop]. rewrite More_value.
    rewrite Decode_value, decodes_entry
      by (assumption || reflexivity || now apply decodes_shallow).
    cbn [fst snd tokenValueEnd].
    rewrite array_loop_rest; [reflexivity | assumption |].
    rewrite length_app in Hlen.
    destruct (lexemes_of_head e) as (c & l & Hc & _). rewrite Hc in Hlen.
    cbn [length] in Hlen. lia.
Qed.

End ElementLoop.

(** ** The member loop of utils/json_reviver.go *)

Section MemberLoop.

Import reviver.

Context {St : Type}.
Variable callback : TransactionLogContainer -> St -> St.

Lemma Token_scalar (v : value) (b : list lexeme) stack :
  scalar v = true ->
  Token_ (mkDecoder (LColon :: lexemes_of v ++ b) tokenObjectColon stack None)
  = (mkDecoder b tokenObjectComma stack None,
     inl (Scalar (fst (valueInterface v)))).
Proof.
  destruct v; intros Hs; try discriminate Hs; try reflexivity.
  cbn [scalar] in Hs. unfold Token_.
  cbn [buf tokState tokenStack err Token_from lexemes_of app].
  unfold Decode.
  cbn [err tokenPrepareForDecode tokState peek buf advance tl tokenStack
       tokenValueAllowed negb readValue scan scan_step beginValue endValue].
  cbn [unmarshal_any valueInterface]. unfold convertNumber.
  rewrite Hs. reflexivity.
Qed.

(** A number outside float64 is consumed, and [Token] returns the error
    of its conversion. *)
Lemma Token_number_out_of_range (n : number) (b : list lexeme) stack :
  in_float64 n = false ->
  Token_ (mkDecoder (LColon :: LNumber n :: b) tokenObjectColon stack None)
  = (mkDecoder b tokenObjectComma stack None, inr UnmarshalTypeError).
Proof.
  intros Hn. unfold Token_.
  cbn [buf tokState tokenStack err Token_from].
  unfold Decode.
  cbn [err tokenPrepareForDecode tokState peek buf advance tl tokenStack
       tokenValueAllowed negb readValue scan scan_step beginValue endValue].
  cbn [unmarshal_any]. rewrite Hn. reflexivity.
Qed.

(** The token of a scalar is the string ["value"] only for that string. *)
Lemma scalar_not_value (v : value) :
  scalar v = true ->
  is_collection_name v = false ->
  is_string (Scalar (fst (valueInterface v))) "value" = false.
Proof.
  intros Hscalar Hname.
  destruct v; try discriminate Hscalar; try reflexivity.
  - cbn [valueInterface]. unfold convertNumber. now destruct (in_float64 n).
  - exact Hname.
Qed.

Lemma Token_array_open (es : list value) (b : list lexeme) stack :
  Token_ (mkDecoder (LColon :: lexemes_of (JArray es) ++ b)
            tokenObjectColon stack None)
  = (mkDecoder (elements_lexemes es ++ RBracket :: b) tokenArrayStart
       (tokenObjectValue :: stack) None, inl (Delim "[")).
Proof.
  rewrite lexemes_of_array. unfold Token_. cbn [buf tokState tokenStack err].
  cbn [Token_from app tokenValueAllowed]. rewrite <- app_assoc. reflexivity.
Qed.

Lemma Token_array_close (b : list lexeme) ts stack :
  ts = tokenArrayStart \/ ts = tokenArrayComma ->
  Token_ (mkDecoder (RBracket :: b) ts (tokenObjectValue :: stack) None)
  = (mkDecoder b tokenObjectComma stack None, inl (Delim "]")).
Proof. intros [-> | ->]; reflexivity. Qed.

Lemma object_loop_unfold (f : nat) (dec : Decoder) (deltaLink : string)
    (st : St) :
  object_loop callback (S f) dec deltaLink st =
  if More dec then
    match Token_ dec with
    | (dec1, inr e) => Some (dec1, deltaLink, st, Some e)
    | (dec1, inl token) =>
        let '(dec2, deltaLink2) :=
          if is_string token "@odata.deltaLink"
          then let '(d, dl, _) := Decode unmarshal_string dec1 deltaLink in
               (d, dl)
          else (dec1, deltaLink) in
        if negb (is_string token "value")
        then object_loop callback f dec2 deltaLink2 st
        else
          match Token_ dec2 with
          | (dec3, inr e) => Some (dec3, deltaLink2, st, Some e)
          | (dec3, inl token) =>
              if negb (is_delim token "[")
              then Some (dec3, deltaLink2, st,
                         Some (errors_New
                                 "JSON array start delimiter not found"))
              else
                match array_loop callback f dec3 st with
                | None => None
                | Some (dec4, st4, Some e) =>
                    Some (dec4, deltaLink2, st4, Some e)
                | Some (dec4, st4, None) =>
                    match Token_ dec4 with
                    | (dec5, inr e) =>
                        Some (dec5, deltaLink2, st4, Some e)
                    | (dec5, inl token) =>
                        if negb (is_delim token "]")
                        then Some (dec5, deltaLink2, st4,
                                   Some (errors_New
                                     "JSON array end delimiter not found"))
                        else object_loop callback f dec5 deltaLink2 st4
                    end
                end
          end
    end
  else Some (dec, deltaLink, st, None).
Proof. reflexivity. Qed.

(** One member, from the turn that reads its name. *)
Lemma object_loop_member (k : string) (v : value) :
  member_ok (k, v) = true ->
  forall f dec rest stack dl st,
    More dec = true ->
    Token_ dec = (mkDecoder (LColon :: lexemes_of v ++ rest)
                    tokenObjectColon stack None, inl (Scalar (astring k))) ->
    length (LColon :: lexemes_of v ++ rest) < f ->
    exists f',
      length rest < f' /\
      object_loop callback (S f) dec dl st
      = object_loop callback f'
          (mkDecoder rest tokenObjectComma stack None)
          (token_of [(k, v)] dl)
          (deliver callback (map entry_of (elements_of (k, v))) st).
Proof.
  intros Hok f dec rest stack dl st Hmore Htok Hlen.
  rewrite object_loop_unfold, Hmore, Htok.
  unfold member_ok, collection_ok, continuation_ok, skippable, token_of,
    elements_of in *.
  cbn [is_string fold_left].
  change (String.eqb k "value") with (collection_field (k, v)).
  change (String.eqb k "@odata.deltaLink") with (continuation_field (k, v)).
  cbn [snd] in *.
  destruct (continuation_field (k, v)) eqn:Hcont.
  - (* the continuation token: its value is decoded, whatever it is *)
    assert (Hcoll : collection_field (k, v) = false).
    { unfold continuation_field, collection_field in *. cbn [fst] in *.
      apply String.eqb_eq in Hcont. subst k. reflexivity. }
    rewrite Hcoll in Hok |- *. cbn [negb andb orb] in Hok.
    rewrite orb_false_r in Hok.
    rewrite Decode_after_colon by exact Hok. cbn [negb fst snd].
    exists f. split; [|reflexivity].
    cbn [length] in Hlen. rewrite length_app in Hlen. lia.
  - destruct (collection_field (k, v)) eqn:Hcoll.
    + (* the collection: an array of elements that decode *)
      cbn [negb andb orb] in Hok |- *.
      destruct v as [| | | | es |]; try discriminate Hok.
      rewrite !orb_false_r in Hok.
      rewrite Token_array_open. cbn [is_delim Ascii.eqb Bool.eqb andb negb].
      assert (Hlen' : length (elements_lexemes es ++ RBracket :: rest) < f).
      { rewrite lexemes_of_array in Hlen. fold (elements_lexemes es) in Hlen.
        cbn [length app] in Hlen.
        rewrite <- app_assoc in Hlen. cbn [app] in Hlen. lia. }
      destruct (array_loop_elements callback es Hok f rest
                  (tokenObjectValue :: stack) st Hlen')
        as (ts & Hts & Harr).
      rewrite Harr, (Token_array_close rest ts stack Hts).
      cbn [is_delim Ascii.eqb Bool.eqb andb negb].
      exists f. split; [|reflexivity].
      rewrite length_app in Hlen'. cbn [length] in Hlen'. lia.
    + (* an unrelated member: its scalar value is read as a token *)
      cbn [negb andb orb] in Hok |- *.
      apply andb_prop in Hok as [Hscalar Hname].
      destruct f as [|f2]; [cbn in Hlen; lia|].
      rewrite object_loop_unfold.
      change (More _) with true. cbv iota.
      rewrite (Token_scalar v rest stack Hscalar).
      apply negb_true_iff in Hname.
      set (x := fst (valueInterface v)).
      assert (Hval : is_string (Scalar x) "value" = false)
        by (now apply scalar_not_value).
      rewrite Hval. cbn [negb].
      assert (Hdl : (if is_string (Scalar x) "@odata.deltaLink"
                     then let '(d, dl0, _) :=
                            Decode unmarshal_string
                              (mkDecoder rest tokenObjectComma stack None) dl in
                          (d, dl0)
                     else (mkDecoder rest tokenObjectComma stack None, dl))
                    = (mkDecoder rest tokenObjectComma stack None, dl)).
      { destruct (is_string (Scalar x) "@odata.deltaLink"); reflexivity. }
      rewrite Hdl. exists f2. split; [|reflexivity].
      cbn [length] in Hlen. rewrite length_app in Hlen.
      destruct (lexemes_of_head v) as (c & l & Hc & _). rewrite Hc in Hlen.
      cbn [length] in Hlen. lia.
Qed.

End MemberLoop.

Section WholeBody.

Import reviver.

Context {St : Type}.
Variable callback : TransactionLogContainer -> St -> St.

Lemma deliver_app (l1 l2 : list TransactionLogEntry) (st : St) :
  deliver callback (l1 ++ l2) st
  = deliver callback l2 (deliver callback l1 st).
Proof. unfold deliver. apply fold_left_app. Qed.

Lemma object_loop_rest (ms : list (string * value)) :
  valid_body ms = true ->
  forall f b stack dl st,
    length (flat_map (fun x => LComma :: member_lexemes x) ms ++ RBrace :: b)
      < f ->
    object_loop callback f
      (mkDecoder (flat_map (fun x => LComma :: member_lexemes x) ms
                  ++ RBrace :: b) tokenObjectComma stack None) dl st
    = Some (mkDecoder (RBrace :: b) tokenObjectComma stack None,
            token_of ms dl,
            deliver callback (map entry_of (collection ms)) st, None).
Proof.
  induction ms as [|[k v] ms IH]; intros Hok f b stack dl st Hlen.
  - destruct f as [|f]; [cbn in Hlen; lia|]. reflexivity.
  - cbn [valid_body forallb] in Hok. apply andb_prop in Hok as [Hm Hms].
    destruct f as [|f]; [cbn in Hlen; lia|].
    cbn [flat_map] in *.
    change (member_lexemes (k, v)) with (LString k :: LColon :: lexemes_of v)
      in *.
    rewrite <- !app_comm_cons, <- app_assoc in *.
    destruct (object_loop_member callback k v Hm f
                (mkDecoder
                   (LComma :: LString k :: LColon :: lexemes_of v ++
                    flat_map (fun x => LComma :: member_lexemes x) ms ++
                    RBrace :: b) tokenObjectComma stack None)
                (flat_map (fun x => LComma :: member_lexemes x) ms
                 ++ RBrace :: b) stack dl st)
      as (f' & Hf' & Hstep).
    + reflexivity.
    + reflexivity.
    + cbn [length] in Hlen |- *. lia.
    + rewrite Hstep, (IH Hms f' b stack _ _ Hf').
      unfold collection. cbn [flat_map]. rewrite map_app, deliver_app.
      reflexivity.
Qed.

(** The parser of utils/json_reviver.go on a valid body: every element
    under the collection field is handed to the callback, in order, then
    the final unit with the continuation token, and the parse returns
    [nil]. *)
Lemma ParseTransactionLogs_valid (ms : list (string * value)) (st : St) :
  valid_body ms = true ->
  ParseTransactionLogs callback (NewJSONReviver (body ms)) st
  = Some (mkReviver (mkDecoder [] tokenTopValue [] None),
          callback (mkContainer None (token_of ms ""))
            (deliver callback (map entry_of (collection ms)) st),
          None).
Proof.
  intros Hok. unfold ParseTransactionLogs, ParseTransactionLogs_fuel, body.
  rewrite lexemes_of_object.
  cbn [NewJSONReviver decoder NewDecoder buf Token_ tokState tokenStack err
       Token_from app tokenValueAllowed is_delim Ascii.eqb Bool.eqb andb negb].
  destruct ms as [|[k v] ms].
  - reflexivity.
  - cbn [valid_body forallb] in Hok. apply andb_prop in Hok as [Hm Hms].
    change (member_lexemes (k, v)) with (LString k :: LColon :: lexemes_of v).
    rewrite <- !app_comm_cons, <- !app_assoc. cbn [length app].
    destruct (object_loop_member callback k v Hm
                (S (S (length (LColon :: lexemes_of v ++
                     flat_map (fun x => LComma :: member_lexemes x) ms ++
                     [RBrace]))))
                (mkDecoder
                   (LString k :: LColon :: lexemes_of v ++
                    flat_map (fun x => LComma :: member_lexemes x) ms ++
                    [RBrace]) tokenObjectStart [tokenTopValue] None)
                (flat_map (fun x => LComma :: member_lexemes x) ms
                 ++ [RBrace]) [tokenTopValue] "" st)
      as (f' & Hf' & Hstep).
    + reflexivity.
    + reflexivity.
    + lia.
    + cbn [length] in Hstep. rewrite Hstep.
      rewrite (object_loop_rest ms Hms f' [] [tokenTopValue] _ _ Hf').
      unfold collection. cbn [flat_map]. rewrite map_app, deliver_app.
      reflexivity.
Qed.

End WholeBody.

(** ** The parse always returns *)

Lemma scan_shrinks (limit : nat) (l : list lexeme) :
  forall st s v rest,
    scan limit st s l = inl (v, rest) -> length rest < length l.
Proof.
  induction l as [|c l IH]; intros st s v rest H; [discriminate H|].
  cbn [scan] in H. destruct (scan_step limit st s c) as [st' s' | v' |].
  - apply IH in H. cbn [length]. lia.
  - injection H as _ <-. cbn [length]. lia.
  - discriminate H.
Qed.

Lemma readValue_shrinks (l : list lexeme) v rest :
  readValue l = inl (v, rest) -> length rest < length l.
Proof.
  destruct l as [|c l]; [discriminate|]. apply scan_shrinks.
Qed.

Lemma tokenPrepareForDecode_shrinks (dec dec1 : Decoder) e :
  tokenPrepareForDecode dec = (dec1, e) ->
  length (buf dec1) <= length (buf dec).
Proof.
  unfold tokenPrepareForDecode, peek, advance.
  destruct dec as [b ts stack er]. cbn [tokState buf tokenStack err].
  destruct ts; try (intros [= <- <-]; cbn [buf]; lia);
    destruct b as [|c b]; try (intros [= <- <-]; cbn [buf]; lia);
    destruct c; intros [= <- <-]; cbn [buf tl length]; lia.
Qed.

Lemma Decode_shrinks {T} (u : value -> T -> T * option error)
    (dec dec' : Decoder) (target t' : T) e' :
  Decode u dec target = (dec', t', e') ->
  length (buf dec') <= length (buf dec) /\
  (e' = None -> length (buf dec') < length (buf dec)).
Proof.
  unfold Decode. destruct (err dec) as [e|].
  - intros [= <- <- <-]. split; [lia | discriminate].
  - destruct (tokenPrepareForDecode dec) as [dec1 [e|]] eqn:Hprep;
      apply tokenPrepareForDecode_shrinks in Hprep.
    + intros [= <- <- <-]. split; [lia | discriminate].
    + destruct (negb (tokenValueAllowed (tokState dec1))).
      * intros [= <- <- <-]. split; [lia | discriminate].
      * destruct (readValue (buf dec1)) as [[v rest]|e] eqn:Hread.
        -- apply readValue_shrinks in Hread.
           destruct (u v target) as [t'' e''].
           intros [= <- <- <-]. cbn [buf]. split; intros; lia.
        -- intros [= <- <- <-]. cbn [buf]. split; [lia | discriminate].
Qed.

Lemma Token_from_shrinks (b : list lexeme) :
  forall ts stack e dec' t,
    Token_from b ts stack e = (dec', inl t) ->
    length (buf dec') < length b.
Proof.
  induction b as [|c b IH]; intros ts stack e dec' t H; [discriminate H|].
  assert (Hscalar :
    (if tokenValueAllowed ts then
       match Decode unmarshal_any (mkDecoder (c :: b) ts stack e) nil with
       | (d, _, Some e') => (d, inr e')
       | (d, x, None) => (d, inl (Scalar x))
       end
     else (mkDecoder (c :: b) ts stack e, inr SyntaxError)) = (dec', inl t) ->
    length (buf dec') < length (c :: b)).
  { destruct (tokenValueAllowed ts); [|discriminate].
    destruct (Decode unmarshal_any _ nil) as [[d x] [e'|]] eqn:HD;
      [discriminate|].
    intros [= <- _]. apply Decode_shrinks in HD as [_ HD].
    apply HD. reflexivity. }
  cbn [Token_from] in H. destruct c.
  - destruct (tokenValueAllowed ts); [|discriminate H].
    injection H as <- _. cbn [buf length]. lia.
  - destruct ts, stack; try discriminate H;
      injection H as <- _; cbn [buf length]; lia.
  - destruct (tokenValueAllowed ts); [|discriminate H].
    injection H as <- _. cbn [buf length]. lia.
  - destruct ts, stack; try discriminate H;
      injection H as <- _; cbn [buf length]; lia.
  - destruct ts; try discriminate H. apply IH in H. cbn [length]. lia.
  - destruct ts; try discriminate H; apply IH in H; cbn [length]; lia.
  - destruct ts; try (apply Hscalar; exact H);
      (destruct (Decode unmarshal_string _ "") as [[d x] [e'|]] eqn:HD;
       [discriminate H|];
       injection H as <- _; apply Decode_shrinks in HD as [_ HD];
       cbn [buf] in *; apply HD; reflexivity).
  - apply Hscalar; exact H.
  - apply Hscalar; exact H.
  - apply Hscalar; exact H.
Qed.

Lemma Token_shrinks (dec dec' : Decoder) t :
  Token_ dec = (dec', inl t) -> length (buf dec') < length (buf dec).
Proof. apply Token_from_shrinks. Qed.

Section Returns.

Import reviver.

Context {St : Type}.
Variable callback : TransactionLogContainer -> St -> St.

Lemma array_loop_returns (fuel : nat) :
  forall dec st,
    length (buf dec) < fuel ->
    exists dec' st' e,
      array_loop callback fuel dec st = Some (dec', st', e) /\
      length (buf dec') <= length (buf dec).
Proof.
  induction fuel as [|fuel IH]; intros dec st Hlen; [lia|].
  cbn [array_loop]. destruct (More dec).
  - destruct (Decode unmarshal_entry dec zeroEntry) as [[dec1 t] [e|]] eqn:HD;
      apply Decode_shrinks in HD as [Hle Hlt].
    + eauto.
    + specialize (Hlt eq_refl).
      destruct (IH dec1 (callback (mkContainer (Some t) "") st))
        as (dec' & st' & e & Heq & Hle'); [lia|].
      rewrite Heq. exists dec', st', e. split; [reflexivity | lia].
  - eauto.
Qed.

Lemma object_loop_returns (fuel : nat) :
  forall dec dl st,
    length (buf dec) < fuel ->
    exists dec' dl' st' e,
      object_loop callback fuel dec dl st = Some (dec', dl', st', e).
Proof.
  induction fuel as [|fuel IH]; intros dec dl st Hlen; [lia|].
  rewrite object_loop_unfold. destruct (More dec); [|eauto].
  destruct (Token_ dec) as [dec1 [token|e]] eqn:Htok; [|eauto].
  apply Token_shrinks in Htok.
  destruct (if is_string token "@odata.deltaLink"
            then let '(d, dl0, _) := Decode unmarshal_string dec1 dl in
                 (d, dl0)
            else (dec1, dl)) as [dec2 dl2] eqn:Hdl.
  assert (Hle2 : length (buf dec2) <= length (buf dec1)).
  { destruct (is_string token "@odata.deltaLink").
    - destruct (Decode unmarshal_string dec1 dl) as [[d x] e] eqn:HD.
      injection Hdl as <- _. now apply Decode_shrinks in HD as [HD _].
    - injection Hdl as <- _. lia. }
  destruct (negb (is_string token "value")).
  - apply IH. lia.
  - destruct (Token_ dec2) as [dec3 [token3|e]] eqn:Htok3; [|eauto].
    apply Token_shrinks in Htok3.
    destruct (negb (is_delim token3 "[")); [eauto|].
    destruct (array_loop_returns fuel dec3 st) as (dec4 & st4 & e & -> & Hle4);
      [lia|].
    destruct e as [e|]; [eauto|].
    destruct (Token_ dec4) as [dec5 [token5|e]] eqn:Htok5; [|eauto].
    apply Token_shrinks in Htok5.
    destruct (negb (is_delim token5 "]")); [eauto|].
    apply IH. lia.
Qed.

(** [ParseTransactionLogs] returns on every stream, whatever the
    callback. *)
Lemma ParseTransactionLogs_returns (r : JSONReviver) (st : St) :
  exists r' st' e, ParseTransactionLogs callback r st = Some (r', st', e).
Proof.
  unfold ParseTransactionLogs, ParseTransactionLogs_fuel.
  destruct (Token_ (decoder r)) as [dec1 [t|e]] eqn:Htok; [|eauto].
  apply Token_shrinks in Htok.
  destruct (negb (is_delim t "{")); [eauto|].
  destruct (object_loop_returns (S (length (buf (decoder r)))) dec1 "" st)
    as (dec2 & dl & st2 & e & ->); [lia|].
  destruct e as [e|]; [eauto|].
  destruct (Token_ dec2) as [dec3 [t3|e]]; [|eauto].
  destruct (negb (is_delim t3 "}")); eauto.
Qed.

End Returns.

(** ** A decodable prefix followed by anything *)

Section Prefix.

Import reviver.

Context {St : Type}.
Variable callback : TransactionLogContainer -> St -> St.

Lemma array_loop_prefix (es : list value) :
  forallb decodes es = true ->
  forall f X stack st,
    length (flat_map (fun x => LComma :: lexemes_of x) es ++ X) < f ->
    exists f',
      length X < f' /\
      array_loop callback f
        (mkDecoder (flat_map (fun x => LComma :: lexemes_of x) es ++ X)
           tokenArrayComma stack None) st
      = array_loop callback f' (mkDecoder X tokenArrayComma stack None)
          (deliver callback (map entry_of es) st).
Proof.
  induction es as [|e es IH]; intros Hes f X stack st Hlen.
  - exists f. split; [exact Hlen | reflexivity].
  - cbn [forallb] in Hes. apply andb_prop in Hes as [He Hes].
    destruct f as [|f]; [cbn in Hlen; lia|].
    cbn [flat_map] in *. rewrite <- !app_comm_cons, <- app_assoc in *.
    cbn [array_loop]. change (More _) with true. cbv iota.
    rewrite Decode_after_comma, decodes_entry
      by (assumption || now apply decodes_shallow).
    cbn [fst snd]. apply IH; [assumption|].
    cbn [length] in Hlen. rewrite length_app in Hlen. lia.
Qed.

(** The element loop meets an element that does not decode: one the
    scanner does not read, or one that does not unmarshal. *)
Lemma array_loop_fails (bad : value) (f : nat) (Y : list lexeme) stack st :
  decodes bad = false ->
  exists dec',
    array_loop callback (S f)
      (mkDecoder (LComma :: lexemes_of bad ++ Y) tokenArrayComma stack None) st
    = Some (dec', st,
            Some (errors_New "unable to decode transaction log entry")).
Proof.
  intros Hbad.
  apply not_decodes_entry in Hbad as [Hdeep | (Hv & t & e & Hbad)];
    cbn [array_loop]; change (More _) with true; cbv iota.
  - rewrite Decode_after_comma_deep by exact Hdeep. eexists. reflexivity.
  - rewrite Decode_after_comma by exact Hv. rewrite Hbad.
    eexists. reflexivity.
Qed.

Lemma array_loop_fails_first (bad : value) (f : nat) (Y : list lexeme)
    stack st :
  decodes bad = false ->
  exists dec',
    array_loop callback (S f)
      (mkDecoder (lexemes_of bad ++ Y) tokenArrayStart stack None) st
    = Some (dec', st,
            Some (errors_New "unable to decode transaction log entry")).
Proof.
  intros Hbad.
  apply not_decodes_entry in Hbad as [Hdeep | (Hv & t & e & Hbad)];
    cbn [array_loop]; rewrite More_value.
  - rewrite Decode_value_deep by (reflexivity || exact Hdeep).
    eexists. reflexivity.
  - rewrite Decode_value by (reflexivity || exact Hv). rewrite Hbad.
    eexists. reflexivity.
Qed.

(** An array whose elements decode up to [bad]. *)
Lemma array_loop_bad (es : list value) (bad : value) (after : list value)
    (f : nat) (b : list lexeme) stack st :
  forallb decodes es = true ->
  decodes bad = false ->
  length (elements_lexemes (es ++ bad :: after) ++ RBracket :: b) < f ->
  exists dec',
    array_loop callback f
      (mkDecoder (elements_lexemes (es ++ bad :: after) ++ RBracket :: b)
         tokenArrayStart stack None) st
    = Some (dec', deliver callback (map entry_of es) st,
            Some (errors_New "unable to decode transaction log entry")).
Proof.
  intros Hes Hbad Hlen.
  destruct f as [|f]; [lia|].
  destruct es as [|e es].
  - cbn [app elements_lexemes] in *. rewrite <- app_assoc.
    apply array_loop_fails_first. assumption.
  - cbn [forallb] in Hes. apply andb_prop in Hes as [He Hes].
    cbn [app elements_lexemes] in *.
    rewrite flat_map_app in *. cbn [flat_map] in *.
    rewrite <- ?app_assoc, <- ?app_comm_cons, <- ?app_assoc in *.
    cbn [array_loop]. rewrite More_value.
    rewrite Decode_value, decodes_entry
      by (assumption || reflexivity || now apply decodes_shallow).
    cbn [fst snd tokenValueEnd].
    destruct (array_loop_prefix es Hes f
                (LComma :: lexemes_of bad ++
                 flat_map (fun x => LComma :: lexemes_of x) after ++
                 RBracket :: b) stack
                (callback (mkContainer (Some (entry_of e)) "") st))
      as (f' & Hf' & Hstep).
    { rewrite length_app in Hlen.
      destruct (lexemes_of_head e) as (c & l & Hc & _). rewrite Hc in Hlen.
      cbn [length] in Hlen. lia. }
    rewrite Hstep. destruct f' as [|f']; [cbn in Hf'; lia|].
    apply array_loop_fails. assumption.
Qed.

Lemma object_loop_prefix (ms : list (string * value)) :
  valid_body ms = true ->
  forall f X stack dl st,
    length (flat_map (fun x => LComma :: member_lexemes x) ms ++ X) < f ->
    exists f',
      length X < f' /\
      object_loop callback f
        (mkDecoder (flat_map (fun x => LComma :: member_lexemes x) ms ++ X)
           tokenObjectComma stack None) dl st
      = object_loop callback f' (mkDecoder X tokenObjectComma stack None)
          (token_of ms dl)
          (deliver callback (map entry_of (collection ms)) st).
Proof.
  induction ms as [|[k v] ms IH]; intros Hok f X stack dl st Hlen.
  - exists f. split; [exact Hlen | reflexivity].
  - cbn [valid_body forallb] in Hok. apply andb_prop in Hok as [Hm Hms].
    destruct f as [|f]; [cbn in Hlen; lia|].
    cbn [flat_map] in *.
    change (member_lexemes (k, v)) with (LString k :: LColon :: lexemes_of v)
      in *.
    rewrite <- !app_comm_cons, <- app_assoc in *.
    destruct (object_loop_member callback k v Hm f
                (mkDecoder
                   (LComma :: LString k :: LColon :: lexemes_of v ++
                    flat_map (fun x => LComma :: member_lexemes x) ms ++ X)
                   tokenObjectComma stack None)
                (flat_map (fun x => LComma :: member_lexemes x) ms ++ X)
                stack dl st)
      as (f1 & Hf1 & Hstep).
    + reflexivity.
    + reflexivity.
    + cbn [length] in Hlen |- *. lia.
    + rewrite Hstep.
      destruct (IH Hms f1 X stack (token_of [(k, v)] dl)
                  (deliver callback (map entry_of (elements_of (k, v))) st)
                  Hf1) as (f' & Hf' & Hrest).
      exists f'. split; [exact Hf'|]. rewrite Hrest.
      unfold collection. cbn [flat_map]. rewrite map_app, deliver_app.
      reflexivity.
Qed.

(** The member loop reaches a collection whose element [bad] does not
    decode, from the turn that reads the name ["value"]. *)
Lemma object_loop_bad_member (es : list value) (bad : value)
    (after : list value) (f : nat) (dec : Decoder) (rest : list lexeme)
    stack dl st :
  forallb decodes es = true ->
  decodes bad = false ->
  More dec = true ->
  Token_ dec
  = (mkDecoder (LColon :: lexemes_of (JArray (es ++ bad :: after)) ++ rest)
       tokenObjectColon stack None, inl (Scalar (astring "value"))) ->
  length (LColon :: lexemes_of (JArray (es ++ bad :: after)) ++ rest) < f ->
  exists dec' dl',
    object_loop callback (S f) dec dl st
    = Some (dec', dl', deliver callback (map entry_of es) st,
            Some (errors_New "unable to decode transaction log entry")).
Proof.
  intros Hes Hbad Hmore Htok Hlen.
  rewrite object_loop_unfold, Hmore, Htok.
  cbn [is_string String.eqb Ascii.eqb Bool.eqb andb negb].
  rewrite Token_array_open. cbn [is_delim Ascii.eqb Bool.eqb andb negb].
  destruct (array_loop_bad es bad after f rest (tokenObjectValue :: stack) st
              Hes Hbad) as (dec' & Harr).
  { rewrite lexemes_of_array in Hlen.
    fold (elements_lexemes (es ++ bad :: after)) in Hlen.
    cbn [length app] in Hlen. rewrite <- app_assoc in Hlen.
    cbn [app] in Hlen. lia. }
  rewrite Harr. eauto.
Qed.

End Prefix.

Section BadElement.

Import reviver.

Context {St : Type}.
Variable callback : TransactionLogContainer -> St -> St.

(** The parser of utils/json_reviver.go on a body whose collection has an
    element that does not decode: the records before it are handed to the
    callback, then the parse returns the decode error. *)
Lemma ParseTransactionLogs_bad_element
    (pre : list (string * value)) (es : list value) (bad : value)
    (after : list value) (post : list (string * value)) (st : St) :
  valid_body pre = true ->
  forallb decodes es = true ->
  decodes bad = false ->
  exists r',
    ParseTransactionLogs callback
      (NewJSONReviver
         (body (pre ++ ("value", JArray (es ++ bad :: after)) :: post))) st
    = Some (r',
            deliver callback (map entry_of (collection pre ++ es)) st,
            Some (errors_New "unable to decode transaction log entry")).
Proof.
  intros Hpre Hes Hbad.
  unfold ParseTransactionLogs, ParseTransactionLogs_fuel, body.
  rewrite lexemes_of_object.
  cbn [NewJSONReviver decoder NewDecoder buf Token_ tokState tokenStack err
       Token_from app tokenValueAllowed is_delim Ascii.eqb Bool.eqb andb negb].
  set (coll := JArray (es ++ bad :: after)).
  destruct pre as [|[k v] pre].
  - cbn [app].
    change (member_lexemes ("value", coll))
      with (LString "value" :: LColon :: lexemes_of coll).
    rewrite <- !app_comm_cons, <- !app_assoc. cbn [length app].
    destruct (object_loop_bad_member callback es bad after
                (S (S (length (LColon :: lexemes_of coll ++
                     flat_map (fun x => LComma :: member_lexemes x) post ++
                     [RBrace]))))
                (mkDecoder
                   (LString "value" :: LColon :: lexemes_of coll ++
                    flat_map (fun x => LComma :: member_lexemes x) post ++
                    [RBrace]) tokenObjectStart [tokenTopValue] None)
                (flat_map (fun x => LComma :: member_lexemes x) post
                 ++ [RBrace]) [tokenTopValue] "" st Hes Hbad)
      as (dec' & dl' & Hloop).
    + reflexivity.
    + reflexivity.
    + subst coll. lia.
    + cbn [length] in Hloop. rewrite Hloop. eauto.
  - cbn [valid_body forallb] in Hpre. apply andb_prop in Hpre as [Hm Hms].
    cbn [app].
    change (member_lexemes (k, v)) with (LString k :: LColon :: lexemes_of v).
    rewrite flat_map_app. cbn [flat_map].
    change (member_lexemes ("value", coll))
      with (LString "value" :: LColon :: lexemes_of coll).
    rewrite <- ?app_comm_cons, <- ?app_assoc, <- ?app_comm_cons, <- ?app_assoc.
    cbn [length app].
    set (Y := flat_map (fun x => LComma :: member_lexemes x) post ++ [RBrace]).
    set (X := LComma :: LString "value" :: LColon :: lexemes_of coll ++ Y).
    destruct (object_loop_member callback k v Hm
                (S (S (length (LColon :: lexemes_of v ++
                     flat_map (fun x => LComma :: member_lexemes x) pre ++ X))))
                (mkDecoder
                   (LString k :: LColon :: lexemes_of v ++
                    flat_map (fun x => LComma :: member_lexemes x) pre ++ X)
                   tokenObjectStart [tokenTopValue] None)
                (flat_map (fun x => LComma :: member_lexemes x) pre ++ X)
                [tokenTopValue] "" st)
      as (f1 & Hf1 & Hstep).
    + reflexivity.
    + reflexivity.
    + lia.
    + cbn [length] in Hstep. rewrite Hstep.
      destruct (object_loop_prefix callback pre Hms f1 X [tokenTopValue]
                  (token_of [(k, v)] "")
                  (deliver callback (map entry_of (elements_of (k, v))) st)
                  Hf1) as (f2 & Hf2 & Hrest).
      rewrite Hrest. destruct f2 as [|f2]; [lia|].
      destruct (object_loop_bad_member callback es bad after f2
                  (mkDecoder X tokenObjectComma [tokenTopValue] None)
                  Y [tokenTopValue]
                  (token_of pre (token_of [(k, v)] ""))
                  (deliver callback (map entry_of (collection pre))
                     (deliver callback (map entry_of (elements_of (k, v)))
                        st)) Hes Hbad)
        as (dec' & dl' & Hloop).
      * reflexivity.
      * reflexivity.
      * subst X coll. cbn [length] in Hf2 |- *. lia.
      * rewrite Hloop. eexists.
        unfold collection. cbn [flat_map].
        rewrite !map_app, !deliver_app. reflexivity.
Qed.

End BadElement.

(** ** The earlier variant of the parser *)

Section Variant0.

Context {St : Type}.
Variable callback : option TransactionLogEntry -> bool -> St -> St.

(** Its element loop is the one of utils/json_reviver.go, for the
    callback that forgets the container. *)
Lemma array_loop0_eq (f : nat) :
  forall dec st,
    reviver0.array_loop callback f dec st
    = reviver.array_loop (as_container callback) f dec st.
Proof.
  induction f as [|f IH]; intros dec st; [reflexivity|].
  cbn [reviver0.array_loop reviver.array_loop].
  destruct (More dec); [|reflexivity].
  destruct (Decode unmarshal_entry dec zeroEntry) as [[dec1 t] [e|]];
    [reflexivity|]. apply IH.
Qed.

Lemma deliver0_eq (l : list TransactionLogEntry) (st : St) :
  deliver (as_container callback) l st = deliver0 callback l st.
Proof. reflexivity. Qed.

Lemma deliver0_app (l1 l2 : list TransactionLogEntry) (st : St) :
  deliver0 callback (l1 ++ l2) st
  = deliver0 callback l2 (deliver0 callback l1 st).
Proof. unfold deliver0. apply fold_left_app. Qed.

Lemma object_loop0_unfold (f : nat) (dec : Decoder) (st : St) :
  reviver0.object_loop callback (S f) dec st =
  if More dec then
    match Token_ dec with
    | (dec1, inr e) => Some (dec1, st, Some e)
    | (dec1, inl token) =>
        if negb (is_string token "value")
        then reviver0.object_loop callback f dec1 st
        else
          match Token_ dec1 with
          | (dec3, inr e) => Some (dec3, st, Some e)
          | (dec3, inl token) =>
              if negb (is_delim token "[")
              then Some (dec3, st,
                         Some (errors_New
                                 "JSON array start delimiter not found"))
              else
                match reviver0.array_loop callback f dec3 st with
                | None => None
                | Some (dec4, st4, Some e) => Some (dec4, st4, Some e)
                | Some (dec4, st4, None) =>
                    match Token_ dec4 with
                    | (dec5, inr e) => Some (dec5, st4, Some e)
                    | (dec5, inl token) =>
                        if negb (is_delim token "]")
                        then Some (dec5, st4,
                                   Some (errors_New
                                     "JSON array end delimiter not found"))
                        else reviver0.object_loop callback f dec5 st4
                    end
                end
          end
    end
  else Some (dec, st, None).
Proof. reflexivity. Qed.

Lemma object_loop0_member (k : string) (v : value) :
  member_ok0 (k, v) = true ->
  forall f dec rest stack st,
    More dec = true ->
    Token_ dec = (mkDecoder (LColon :: lexemes_of v ++ rest)
                    tokenObjectColon stack None, inl (Scalar (astring k))) ->
    length (LColon :: lexemes_of v ++ rest) < f ->
    exists f',
      length rest < f' /\
      reviver0.object_loop callback (S f) dec st
      = reviver0.object_loop callback f'
          (mkDecoder rest tokenObjectComma stack None)
          (deliver0 callback (map entry_of (elements_of (k, v))) st).
Proof.
  intros Hok f dec rest stack st Hmore Htok Hlen.
  rewrite object_loop0_unfold, Hmore, Htok.
  unfold member_ok0, collection_ok, skippable0, elements_of in *.
  cbn [is_string].
  change (String.eqb k "value") with (collection_field (k, v)).
  cbn [snd] in *.
  destruct (collection_field (k, v)) eqn:Hcoll.
  - cbn [negb andb orb] in Hok |- *.
    destruct v as [| | | | es |]; try discriminate Hok.
    rewrite !orb_false_r in Hok.
    rewrite Token_array_open. cbn [is_delim Ascii.eqb Bool.eqb andb negb].
    assert (Hlen' : length (elements_lexemes es ++ RBracket :: rest) < f).
    { rewrite lexemes_of_array in Hlen. fold (elements_lexemes es) in Hlen.
      cbn [length app] in Hlen.
      rewrite <- app_assoc in Hlen. cbn [app] in Hlen. lia. }
    destruct (array_loop_elements (as_container callback) es Hok f rest
                (tokenObjectValue :: stack) st Hlen')
      as (ts & Hts & Harr).
    rewrite array_loop0_eq, Harr, (Token_array_close rest ts stack Hts).
    cbn [is_delim Ascii.eqb Bool.eqb andb negb].
    exists f. split; [|reflexivity].
    rewrite length_app in Hlen'. cbn [length] in Hlen'. lia.
  - cbn [negb andb orb] in Hok |- *.
    apply andb_prop in Hok as [Hscalar Hname].
    destruct f as [|f2]; [cbn in Hlen; lia|].
    rewrite object_loop0_unfold.
    change (More _) with true. cbv iota.
    rewrite (Token_scalar v rest stack Hscalar).
    apply negb_true_iff in Hname.
    rewrite (scalar_not_value v Hscalar Hname). cbn [negb].
    exists f2. split; [|reflexivity].
    cbn [length] in Hlen. rewrite length_app in Hlen.
    destruct (lexemes_of_head v) as (c & l & Hc & _). rewrite Hc in Hlen.
    cbn [length] in Hlen. lia.
Qed.

Lemma object_loop0_prefix (ms : list (string * value)) :
  valid_body0 ms = true ->
  forall f X stack st,
    length (flat_map (fun x => LComma :: member_lexemes x) ms ++ X) < f ->
    exists f',
      length X < f' /\
      reviver0.object_loop callback f
        (mkDecoder (flat_map (fun x => LComma :: member_lexemes x) ms ++ X)
           tokenObjectComma stack None) st
      = reviver0.object_loop callback f'
          (mkDecoder X tokenObjectComma stack None)
          (deliver0 callback (map entry_of (collection ms)) st).
Proof.
  induction ms as [|[k v] ms IH]; intros Hok f X stack st Hlen.
  - exists f. split; [exact Hlen | reflexivity].
  - cbn [valid_body0 forallb] in Hok. apply andb_prop in Hok as [Hm Hms].
    destruct f as [|f]; [cbn in Hlen; lia|].
    cbn [flat_map] in *.
    change (member_lexemes (k, v)) with (LString k :: LColon :: lexemes_of v)
      in *.
    rewrite <- !app_comm_cons, <- app_assoc in *.
    destruct (object_loop0_member k v Hm f
                (mkDecoder
                   (LComma :: LString k :: LColon :: lexemes_of v ++
                    flat_map (fun x => LComma :: member_lexemes x) ms ++ X)
                   tokenObjectComma stack None)
                (flat_map (fun x => LComma :: member_lexemes x) ms ++ X)
                stack st)
      as (f1 & Hf1 & Hstep).
    + reflexivity.
    + reflexivity.
    + cbn [length] in Hlen |- *. lia.
    + rewrite Hstep.
      destruct (IH Hms f1 X stack
                  (deliver0 callback (map entry_of (elements_of (k, v))) st)
                  Hf1) as (f' & Hf' & Hrest).
      exists f'. split; [exact Hf'|]. rewrite Hrest.
      unfold collection. cbn [flat_map]. rewrite map_app, deliver0_app.
      reflexivity.
Qed.

(** The earlier variant on a valid body: the records in order, then the
    final unit; the closing brace is left unread. *)
Lemma ParseTransactionLogs0_valid (ms : list (string * value)) (st : St) :
  valid_body0 ms = true ->
  reviver0.ParseTransactionLogs callback (reviver0.NewJSONReviver (body ms)) st
  = Some (reviver0.mkReviver
            (mkDecoder [RBrace]
               (match ms with [] => tokenObjectStart | _ => tokenObjectComma end)
               [tokenTopValue] None),
          callback None true
            (deliver0 callback (map entry_of (collection ms)) st),
          None).
Proof.
  intros Hok.
  unfold reviver0.ParseTransactionLogs, reviver0.ParseTransactionLogs_fuel, body.
  rewrite lexemes_of_object.
  cbn [reviver0.NewJSONReviver reviver0.decoder NewDecoder buf Token_ tokState
       tokenStack err Token_from app tokenValueAllowed is_delim Ascii.eqb
       Bool.eqb andb negb].
  destruct ms as [|[k v] ms].
  - reflexivity.
  - cbn [valid_body0 forallb] in Hok. apply andb_prop in Hok as [Hm Hms].
    change (member_lexemes (k, v)) with (LString k :: LColon :: lexemes_of v).
    rewrite <- !app_comm_cons, <- !app_assoc. cbn [length app].
    destruct (object_loop0_member k v Hm
                (S (S (length (LColon :: lexemes_of v ++
                     flat_map (fun x => LComma :: member_lexemes x) ms ++
                     [RBrace]))))
                (mkDecoder
                   (LString k :: LColon :: lexemes_of v ++
                    flat_map (fun x => LComma :: member_lexemes x) ms ++
                    [RBrace]) tokenObjectStart [tokenTopValue] None)
                (flat_map (fun x => LComma :: member_lexemes x) ms
                 ++ [RBrace]) [tokenTopValue] st)
      as (f1 & Hf1 & Hstep).
    + reflexivity.
    + reflexivity.
    + lia.
    + cbn [length] in Hstep. rewrite Hstep.
      destruct (object_loop0_prefix ms Hms f1 [RBrace] [tokenTopValue]
                  (deliver0 callback (map entry_of (elements_of (k, v))) st)
                  Hf1) as (f2 & Hf2 & Hrest).
      rewrite Hrest. destruct f2 as [|f2]; [cbn in Hf2; lia|].
      rewrite object_loop0_unfold. change (More _) with false. cbv iota.
      unfold collection. cbn [flat_map]. rewrite map_app, deliver0_app.
      reflexivity.
Qed.

Lemma object_loop0_bad_member (es : list value) (bad : value)
    (after : list value) (f : nat) (dec : Decoder) (rest : list lexeme)
    stack st :
  forallb decodes es = true ->
  decodes bad = false ->
  More dec = true ->
  Token_ dec
  = (mkDecoder (LColon :: lexemes_of (JArray (es ++ bad :: after)) ++ rest)
       tokenObjectColon stack None, inl (Scalar (astring "value"))) ->
  length (LColon :: lexemes_of (JArray (es ++ bad :: after)) ++ rest) < f ->
  exists dec',
    reviver0.object_loop callback (S f) dec st
    = Some (dec', deliver0 callback (map entry_of es) st,
            Some (errors_New "unable to decode transaction log entry")).
Proof.
  intros Hes Hbad Hmore Htok Hlen.
  rewrite object_loop0_unfold, Hmore, Htok.
  cbn [is_string String.eqb Ascii.eqb Bool.eqb andb negb].
  rewrite Token_array_open. cbn [is_delim Ascii.eqb Bool.eqb andb negb].
  destruct (array_loop_bad (as_container callback) es bad after f rest
              (tokenObjectValue :: stack) st Hes Hbad) as (dec' & Harr).
  { rewrite lexemes_of_array in Hlen.
    fold (elements_lexemes (es ++ bad :: after)) in Hlen.
    cbn [length app] in Hlen. rewrite <- app_assoc in Hlen.
    cbn [app] in Hlen. lia. }
  rewrite array_loop0_eq, Harr. eauto.
Qed.

Lemma ParseTransactionLogs0_bad_element
    (pre : list (string * value)) (es : list value) (bad : value)
    (after : list value) (post : list (string * value)) (st : St) :
  valid_body0 pre = true ->
  forallb decodes es = true ->
  decodes bad = false ->
  exists r',
    reviver0.ParseTransactionLogs callback
      (reviver0.NewJSONReviver
         (body (pre ++ ("value", JArray (es ++ bad :: after)) :: post))) st
    = Some (r',
            deliver0 callback (map entry_of (collection pre ++ es)) st,
            Some (errors_New "unable to decode transaction log entry")).
Proof.
  intros Hpre Hes Hbad.
  unfold reviver0.ParseTransactionLogs, reviver0.ParseTransactionLogs_fuel, body.
  rewrite lexemes_of_object.
  cbn [reviver0.NewJSONReviver reviver0.decoder NewDecoder buf Token_ tokState
       tokenStack err Token_from app tokenValueAllowed is_delim Ascii.eqb
       Bool.eqb andb negb].
  set (coll := JArray (es ++ bad :: after)).
  destruct pre as [|[k v] pre].
  - cbn [app].
    change (member_lexemes ("value", coll))
      with (LString "value" :: LColon :: lexemes_of coll).
    rewrite <- !app_comm_cons, <- !app_assoc. cbn [length app].
    destruct (object_loop0_bad_member es bad after
                (S (S (length (LColon :: lexemes_of coll ++
                     flat_map (fun x => LComma :: member_lexemes x) post ++
                     [RBrace]))))
                (mkDecoder
                   (LString "value" :: LColon :: lexemes_of coll ++
                    flat_map (fun x => LComma :: member_lexemes x) post ++
                    [RBrace]) tokenObjectStart [tokenTopValue] None)
                (flat_map (fun x => LComma :: member_lexemes x) post
                 ++ [RBrace]) [tokenTopValue] st Hes Hbad)
      as (dec' & Hloop).
    + reflexivity.
    + reflexivity.
    + subst coll. lia.
    + cbn [length] in Hloop. rewrite Hloop. eauto.
  - cbn [valid_body0 forallb] in Hpre. apply andb_prop in Hpre as [Hm Hms].
    cbn [app].
    change (member_lexemes (k, v)) with (LString k :: LColon :: lexemes_of v).
    rewrite flat_map_app. cbn [flat_map].
    change (member_lexemes ("value", coll))
      with (LString "value" :: LColon :: lexemes_of coll).
    rewrite <- ?app_comm_cons, <- ?app_assoc, <- ?app_comm_cons, <- ?app_assoc.
    cbn [length app].
    set (Y := flat_map (fun x => LComma :: member_lexemes x) post ++ [RBrace]).
    set (X := LComma :: LString "value" :: LColon :: lexemes_of coll ++ Y).
    destruct (object_loop0_member k v Hm
                (S (S (length (LColon :: lexemes_of v ++
                     flat_map (fun x => LComma :: member_lexemes x) pre ++ X))))
                (mkDecoder
                   (LString k :: LColon :: lexemes_of v ++
                    flat_map (fun x => LComma :: member_lexemes x) pre ++ X)
                   tokenObjectStart [tokenTopValue] None)
                (flat_map (fun x => LComma :: member_lexemes x) pre ++ X)
                [tokenTopValue] st)
      as (f1 & Hf1 & Hstep).
    + reflexivity.
    + reflexivity.
    + lia.
    + cbn [length] in Hstep. rewrite Hstep.
      destruct (object_loop0_prefix pre Hms f1 X [tokenTopValue]
                  (deliver0 callback (map entry_of (elements_of (k, v))) st)
                  Hf1) as (f2 & Hf2 & Hrest).
      rewrite Hrest. destruct f2 as [|f2]; [lia|].
      destruct (object_loop0_bad_member es bad after f2
                  (mkDecoder X tokenObjectComma [tokenTopValue] None)
                  Y [tokenTopValue]
                  (deliver0 callback (map entry_of (collection pre))
                     (deliver0 callback (map entry_of (elements_of (k, v)))
                        st)) Hes Hbad)
        as (dec' & Hloop).
      * reflexivity.
      * reflexivity.
      * subst X coll. cbn [length] in Hf2 |- *. lia.
      * rewrite Hloop. eexists.
        unfold collection. cbn [flat_map].
        rewrite !map_app, !deliver0_app. reflexivity.
Qed.

End Variant0.

(** ** What the parsers deliver, as a log of callbacks *)

Lemma deliver_record (l : list TransactionLogEntry)
    (log : list reviver.TransactionLogContainer) :
  deliver reviver.record l log = log ++ map record_unit l.
Proof.
  revert log. induction l as [|t l IH]; intros log.
  - cbn. now rewrite app_nil_r.
  - change (deliver reviver.record (t :: l) log)
      with (deliver reviver.record l (reviver.record (record_unit t) log)).
    rewrite IH. unfold reviver.record. rewrite <- app_assoc. reflexivity.
Qed.

Lemma deliver0_record (l : list TransactionLogEntry)
    (log : list (option TransactionLogEntry * bool)) :
  deliver0 reviver0.record l log = log ++ map record_unit0 l.
Proof.
  revert log. induction l as [|t l IH]; intros log.
  - cbn. now rewrite app_nil_r.
  - change (deliver0 reviver0.record (t :: l) log)
      with (deliver0 reviver0.record l (reviver0.record (Some t) false log)).
    rewrite IH. unfold reviver0.record. rewrite <- app_assoc. reflexivity.
Qed.

Lemma parse_valid (ms : list (string * value)) :
  valid_body ms = true ->
  reviver.parse (body ms)
  = Some (map record_unit (map entry_of (collection ms))
          ++ [final_unit (token_of ms "")], None).
Proof.
  intros Hok. unfold reviver.parse.
  rewrite (ParseTransactionLogs_valid reviver.record ms [] Hok).
  rewrite deliver_record. reflexivity.
Qed.

Lemma parse0_valid (ms : list (string * value)) :
  valid_body0 ms = true ->
  reviver0.parse (body ms)
  = Some (map record_unit0 (map entry_of (collection ms)) ++ [final_unit0],
          None).
Proof.
  intros Hok. unfold reviver0.parse.
  rewrite (ParseTransactionLogs0_valid reviver0.record ms [] Hok).
  rewrite deliver0_record. reflexivity.
Qed.

Lemma parse_bad_element (pre : list (string * value)) (es : list value)
    (bad : value) (after : list value) (post : list (string * value)) :
  valid_body pre = true ->
  forallb decodes es = true ->
  decodes bad = false ->
  reviver.parse (body (pre ++ ("value", JArray (es ++ bad :: after)) :: post))
  = Some (map record_unit (map entry_of (collection pre ++ es)),
          Some decode_failed).
Proof.
  intros Hpre Hes Hbad. unfold reviver.parse.
  destruct (ParseTransactionLogs_bad_element reviver.record pre es bad after
              post [] Hpre Hes Hbad) as (r' & ->).
  rewrite deliver_record. reflexivity.
Qed.

Lemma parse0_bad_element (pre : list (string * value)) (es : list value)
    (bad : value) (after : list value) (post : list (string * value)) :
  valid_body0 pre = true ->
  forallb decodes es = true ->
  decodes bad = false ->
  reviver0.parse (body (pre ++ ("value", JArray (es ++ bad :: after)) :: post))
  = Some (map record_unit0 (map entry_of (collection pre ++ es)),
          Some decode_failed).
Proof.
  intros Hpre Hes Hbad. unfold reviver0.parse.
  destruct (ParseTransactionLogs0_bad_element reviver0.record pre es bad after
              post [] Hpre Hes Hbad) as (r' & ->).
  rewrite deliver0_record. reflexivity.
Qed.

(** ** Bodies with one collection and one continuation member *)

Lemma flat_map_nil {A B} (f : A -> list B) (l : list A) :
  (forall x, In x l -> f x = []) -> flat_map f l = [].
Proof.
  induction l as [|a l IH]; intros H; [reflexivity|].
  cbn [flat_map]. rewrite (H a (or_introl eq_refl)), IH; [reflexivity|].
  intros x Hx. apply H. now right.
Qed.

Lemma token_of_app (l1 l2 : list (string * value)) (dl : string) :
  token_of (l1 ++ l2) dl = token_of l2 (token_of l1 dl).
Proof. unfold token_of. apply fold_left_app. Qed.











(** ** Records survive encoding and decoding *)

Lemma compare_lt_trans (a b c : string) :
  String.compare a b = Lt -> String.compare b c = Lt ->
  String.compare a c = Lt.
Proof.
  intros H1 H2. apply String_as_OT.cmp_lt.
  apply String_as_OT.lt_trans with b; apply String_as_OT.cmp_lt; assumption.
Qed.

Lemma compare_gt_lt (a b : string) :
  String.compare a b = Gt -> String.compare b a = Lt.
Proof. intros H. rewrite String.compare_antisym, H. reflexivity. Qed.

Lemma sorted_keys_tail (kx : string * any) (m : list (string * any)) :
  sorted_keys (kx :: m) = true -> sorted_keys m = true.
Proof.
  cbn [sorted_keys]. destruct m as [|kx' m']; [reflexivity|].
  destruct (String.compare (fst kx) (fst kx')); try discriminate. auto.
Qed.

Lemma sorted_keys_head (kx kx' : string * any) (m : list (string * any)) :
  sorted_keys (kx :: kx' :: m) = true ->
  String.compare (fst kx) (fst kx') = Lt.
Proof.
  cbn [sorted_keys].
  destruct (String.compare (fst kx) (fst kx')); try discriminate. auto.
Qed.

Lemma sorted_keys_cons (kx kx' : string * any) (m : list (string * any)) :
  String.compare (fst kx) (fst kx') = Lt ->
  sorted_keys (kx' :: m) = true ->
  sorted_keys (kx :: kx' :: m) = true.
Proof.
  intros Hlt Hs. change (sorted_keys (kx :: kx' :: m))
    with (match String.compare (fst kx) (fst kx') with
          | Lt => sorted_keys (kx' :: m)
          | _ => false
          end).
  now rewrite Hlt.
Qed.

Lemma map_store_sorted (k : string) (x : any) (m : list (string * any)) :
  sorted_keys m = true -> sorted_keys (map_store k x m) = true.
Proof.
  induction m as [|[k1 x1] m IH]; intros Hs; [reflexivity|].
  cbn [map_store]. destruct (String.compare k k1) eqn:Hc.
  - apply String.compare_eq_iff in Hc. subst k1.
    destruct m as [|kx' m']; [reflexivity|].
    apply sorted_keys_cons.
    + exact (sorted_keys_head _ _ _ Hs).
    + exact (sorted_keys_tail _ _ Hs).
  - now apply sorted_keys_cons.
  - specialize (IH (sorted_keys_tail _ _ Hs)).
    apply compare_gt_lt in Hc.
    destruct m as [|[k2 x2] m'].
    + now apply sorted_keys_cons.
    + cbn [map_store] in IH |- *.
      destruct (String.compare k k2) eqn:Hc2.
      * now apply sorted_keys_cons.
      * now apply sorted_keys_cons.
      * apply sorted_keys_cons; [|exact IH].
        exact (sorted_keys_head _ _ _ Hs).
Qed.

Lemma map_store_Forall (P : string * any -> Prop) (k : string) (x : any)
    (m : list (string * any)) :
  P (k, x) -> Forall P m -> Forall P (map_store k x m).
Proof.
  intros Hkx. induction 1 as [|[k1 x1] m H1 Hm IH]; cbn [map_store].
  - now constructor.
  - destruct (String.compare k k1); repeat constructor; assumption.
Qed.

Lemma arrayInterface_builds (D : nat) (elems : list value) :
  Forall (fun v => builds (depth v) (fst (valueInterface v))) elems ->
  Forall (fun v => depth v <= D) elems ->
  Forall (builds D) (fst (arrayInterface valueInterface elems)).
Proof.
  induction 1 as [|v elems Hv _ IH]; intros Hd; [constructor|].
  inversion Hd as [|? ? Hdv Hde]; subst.
  cbn [arrayInterface]. destruct (valueInterface v) as [x e1].
  specialize (IH Hde).
  destruct (arrayInterface valueInterface elems) as [l e2].
  cbn [fst] in *. constructor; [|exact IH].
  destruct Hv as [Hn Hx]. split; [exact Hn | lia].
Qed.

Lemma objectInterface_builds (D : nat) (ms : list (string * value)) :
  Forall (fun kv => builds (depth (snd kv)) (fst (valueInterface (snd kv))))
    ms ->
  Forall (fun kv => depth (snd kv) <= D) ms ->
  forall m,
    sorted_keys m = true ->
    Forall (fun kx => builds D (snd kx)) m ->
    sorted_keys (fst (objectInterface valueInterface ms m)) = true /\
    Forall (fun kx => builds D (snd kx))
      (fst (objectInterface valueInterface ms m)).
Proof.
  induction 1 as [|[k v] ms Hv _ IH]; intros Hd m Hs Hm; [now split|].
  inversion Hd as [|? ? Hdv Hde]; subst. cbn [snd] in Hv, Hdv.
  cbn [objectInterface fst snd]. destruct (valueInterface v) as [x e1].
  cbn [fst] in Hv.
  specialize (IH Hde (map_store k x m) (map_store_sorted k x m Hs)).
  destruct (objectInterface valueInterface ms (map_store k x m)) as [m' e2].
  cbn [fst] in *. apply IH. apply map_store_Forall; [|exact Hm].
  destruct Hv as [Hn Hx]. split; [exact Hn | cbn [snd]; lia].
Qed.

Lemma builds_forallb (D : nat) (l : list any) :
  Forall (builds D) l ->
  forallb normal l = true /\
  fold_right (fun y m => Nat.max (any_depth y) m) 0 l <= D.
Proof.
  intros H. split.
  - apply forallb_forall. rewrite Forall_forall in H.
    intros x Hx. exact (proj1 (H x Hx)).
  - apply (max_fold_le any_depth). eapply Forall_impl; [|exact H].
    intros x Hx. exact (proj2 Hx).
Qed.

Lemma builds_forallb_map (D : nat) (m : list (string * any)) :
  Forall (fun kx => builds D (snd kx)) m ->
  forallb (fun kx => normal (snd kx)) m = true /\
  fold_right (fun kx n => Nat.max (any_depth (snd kx)) n) 0 m <= D.
Proof.
  intros H. split.
  - apply forallb_forall. rewrite Forall_forall in H.
    intros x Hx. exact (proj1 (H x Hx)).
  - apply (max_fold_le (fun kx => any_depth (snd kx))).
    eapply Forall_impl; [|exact H]. intros x Hx. exact (proj2 Hx).
Qed.

Lemma valueInterface_builds (v : value) :
  builds (depth v) (fst (valueInterface v)).
Proof.
  induction v as [| b | n | s | elems IH | ms IH] using value_nested_ind;
    try (split; [reflexivity | cbn; lia]).
  - cbn [valueInterface]. unfold convertNumber.
    destruct (in_float64 n) eqn:Hn; cbn [fst]; split;
      [exact Hn | cbn; lia | reflexivity | cbn; lia].
  - cbn [valueInterface].
    set (D := fold_right (fun e m => Nat.max (depth e) m) 0 elems).
    assert (Hd : Forall (fun e => depth e <= D) elems)
      by (apply (max_fold_le depth); subst D; lia).
    pose proof (arrayInterface_builds D elems IH Hd) as H.
    destruct (arrayInterface valueInterface elems) as [l e]. cbn [fst] in *.
    apply builds_forallb in H as [Hn Hx].
    split; [exact Hn | cbn [any_depth depth]; fold D; lia].
  - cbn [valueInterface].
    set (D := fold_right (fun kv m => Nat.max (depth (snd kv)) m) 0 ms).
    assert (Hd : Forall (fun kv => depth (snd kv) <= D) ms)
      by (apply (max_fold_le (fun kv => depth (snd kv))); subst D; lia).
    pose proof (objectInterface_builds D ms IH Hd [] eq_refl (Forall_nil _))
      as H.
    destruct (objectInterface valueInterface ms []) as [m e]. cbn [fst] in *.
    destruct H as [Hs H]. apply builds_forallb_map in H as [Hn Hx].
    split; [cbn [normal]; now rewrite Hs, Hn
           | cbn [any_depth depth]; fold D; lia].
Qed.

(** Into an [interface{}]: the target stays as a decode builds it. *)
Lemma unmarshal_any_built (v : value) (target : any) :
  depth v < maxNestingDepth ->
  built target = true ->
  built (fst (unmarshal_any v target)) = true.
Proof.
  intros Hd Ht.
  assert (Hb : forall x, builds (depth v) x -> built x = true).
  { intros x [Hn Hx]. unfold built. rewrite Hn. cbn [andb].
    apply Nat.ltb_lt. lia. }
  destruct v; try (apply Hb, valueInterface_builds).
  cbn [unmarshal_any]. destruct (in_float64 n) eqn:Hn; cbn [fst].
  - unfold built. cbn [normal any_depth]. rewrite Hn. cbn [andb].
    apply Nat.ltb_lt. lia.
  - exact Ht.
Qed.

Lemma sorted_keys_all_lt (m : list (string * any)) :
  forall kx,
    sorted_keys (kx :: m) = true ->
    forall kx', In kx' m -> String.compare (fst kx) (fst kx') = Lt.
Proof.
  induction m as [|kx1 m IH]; intros kx Hs kx' Hin; [destruct Hin|].
  pose proof (sorted_keys_head _ _ _ Hs) as H1.
  destruct Hin as [<- | Hin]; [exact H1|].
  apply compare_lt_trans with (fst kx1); [exact H1|].
  apply (IH kx1); [exact (sorted_keys_tail _ _ Hs) | exact Hin].
Qed.

Lemma sorted_keys_app_lt (acc : list (string * any)) (kx : string * any)
    (m : list (string * any)) :
  sorted_keys (acc ++ kx :: m) = true ->
  forall a, In a acc -> String.compare (fst a) (fst kx) = Lt.
Proof.
  induction acc as [|a0 acc IH]; intros Hs a Hin; [destruct Hin|].
  destruct Hin as [<- | Hin].
  - apply (sorted_keys_all_lt (acc ++ kx :: m) a0 Hs).
    apply in_or_app. right. now left.
  - apply IH; [|exact Hin]. exact (sorted_keys_tail _ _ Hs).
Qed.

Lemma map_store_last (k : string) (x : any) (acc : list (string * any)) :
  (forall a, In a acc -> String.compare (fst a) k = Lt) ->
  map_store k x acc = acc ++ [(k, x)].
Proof.
  induction acc as [|[k1 x1] acc IH]; intros Hlt; [reflexivity|].
  cbn [map_store app].
  assert (Hc : String.compare k k1 = Gt).
  { pose proof (Hlt (k1, x1) (or_introl eq_refl)) as H1. cbn [fst] in H1.
    rewrite String.compare_antisym, H1. reflexivity. }
  rewrite Hc, IH; [reflexivity|].
  intros a Ha. apply Hlt. now right.
Qed.

Lemma arrayInterface_marshal (l : list any) :
  Forall (fun x => valueInterface (marshal_any x) = (x, None)) l ->
  arrayInterface valueInterface (map marshal_any l) = (l, None).
Proof.
  induction 1 as [|x l Hx _ IH]; [reflexivity|].
  cbn [map arrayInterface]. now rewrite Hx, IH.
Qed.

Lemma objectInterface_sorted (m : list (string * any)) :
  Forall (fun kx => valueInterface (marshal_any (snd kx)) = (snd kx, None)) m ->
  forall acc,
    sorted_keys (acc ++ m) = true ->
    objectInterface valueInterface
      (map (fun kx => (fst kx, marshal_any (snd kx))) m) acc
    = (acc ++ m, None).
Proof.
  induction 1 as [|[k x] m Hx _ IH]; intros acc Hs.
  - cbn. now rewrite app_nil_r.
  - cbn [map objectInterface fst snd] in *. rewrite Hx.
    rewrite (map_store_last k x acc).
    + rewrite IH; rewrite <- app_assoc; [reflexivity | exact Hs].
    + intros a Ha. exact (sorted_keys_app_lt acc (k, x) m Hs a Ha).
Qed.

(** What [Encode] writes for a normal [any] is read back as it was. *)
Lemma valueInterface_marshal (x : any) :
  normal x = true -> valueInterface (marshal_any x) = (x, None).
Proof.
  induction x as [| b | n | s | l IH | m IH] using any_nested_ind;
    intros Hn; try reflexivity.
  - cbn [marshal_any valueInterface normal] in *. unfold convertNumber.
    now rewrite Hn.
  - cbn [marshal_any valueInterface normal] in *.
    rewrite forallb_forall in Hn. rewrite Forall_forall in IH.
    rewrite arrayInterface_marshal; [reflexivity|].
    apply Forall_forall. intros y Hy. apply IH; [exact Hy | now apply Hn].
  - cbn [marshal_any valueInterface normal] in *.
    apply andb_prop in Hn as [Hs Hn].
    rewrite forallb_forall in Hn. rewrite Forall_forall in IH.
    rewrite (objectInterface_sorted m); [reflexivity | | exact Hs].
    apply Forall_forall. intros kx Hkx. apply IH; [exact Hkx | now apply Hn].
Qed.

Lemma unmarshal_any_marshal (x target : any) :
  normal x = true -> unmarshal_any (marshal_any x) target = (x, None).
Proof.
  intros Hn. pose proof (valueInterface_marshal x Hn) as H.
  destruct x; try exact H.
  cbn [marshal_any unmarshal_any normal] in *. now rewrite Hn.
Qed.

Lemma depth_marshal_any (x : any) : depth (marshal_any x) = any_depth x.
Proof.
  induction x as [| b | n | s | l IH | m IH] using any_nested_ind;
    try reflexivity.
  - cbn [marshal_any depth any_depth]. f_equal.
    induction IH as [|y l Hy _ IHl]; [reflexivity|].
    cbn [map fold_right]. now rewrite Hy, IHl.
  - cbn [marshal_any depth any_depth]. f_equal.
    induction IH as [|[k y] m Hy _ IHm]; [reflexivity|].
    cbn [map fold_right fst snd] in *. now rewrite Hy, IHm.
Qed.

Lemma store_elems_strings (l cur : list string) :
  store_elems (map JString l) cur = (l, None).
Proof.
  revert cur. induction l as [|s l IH]; intros cur; [reflexivity|].
  cbn [map store_elems unmarshal_string]. now rewrite IH.
Qed.

Lemma store_field_normal (f : field) (v : value) (t : TransactionLogEntry)
    (spare : list string) :
  depth v < maxNestingDepth ->
  normal_entry t = true ->
  normal_entry (fst (fst (store_field f v t spare))) = true.
Proof.
  intros Hd.
  destruct t as [id cs ts rt us cu tu ov nv sm]. unfold normal_entry.
  cbn [ID OldValue NewValue StatusMessage].
  intros H. apply andb_prop in H as [H Hsm]. apply andb_prop in H as [H Hnv].
  apply andb_prop in H as [Hid Hov].
  destruct f; cbn [store_field].
  - assert (Hx : inInt64 (fst (unmarshal_int v id)) = true).
    { destruct v as [| | [z|] | | |]; cbn [unmarshal_int fst]; try exact Hid.
      destruct (inInt64 z) eqn:Hz; cbn [fst]; [exact Hz | exact Hid]. }
    destruct (unmarshal_int v id) as [x e]. cbn [fst] in *.
    cbn [ID OldValue NewValue StatusMessage]. now rewrite Hx, Hov, Hnv, Hsm.
  - destruct (unmarshal_string v cs);
      cbn [fst ID OldValue NewValue StatusMessage];
      now rewrite Hid, Hov, Hnv, Hsm.
  - destruct (unmarshal_string v ts);
      cbn [fst ID OldValue NewValue StatusMessage];
      now rewrite Hid, Hov, Hnv, Hsm.
  - destruct (unmarshal_string v rt);
      cbn [fst ID OldValue NewValue StatusMessage];
      now rewrite Hid, Hov, Hnv, Hsm.
  - destruct (unmarshal_string v us);
      cbn [fst ID OldValue NewValue StatusMessage];
      now rewrite Hid, Hov, Hnv, Hsm.
  - destruct (unmarshal_string v cu);
      cbn [fst ID OldValue NewValue StatusMessage];
      now rewrite Hid, Hov, Hnv, Hsm.
  - destruct (unmarshal_strings v tu spare) as [[x spare'] e];
      cbn [fst ID OldValue NewValue StatusMessage];
      now rewrite Hid, Hov, Hnv, Hsm.
  - pose proof (unmarshal_any_built v ov Hd Hov) as Hx.
    destruct (unmarshal_any v ov) as [x e]. cbn [fst] in *.
    cbn [ID OldValue NewValue StatusMessage]. now rewrite Hid, Hx, Hnv, Hsm.
  - pose proof (unmarshal_any_built v nv Hd Hnv) as Hx.
    destruct (unmarshal_any v nv) as [x e]. cbn [fst] in *.
    cbn [ID OldValue NewValue StatusMessage]. now rewrite Hid, Hov, Hx, Hsm.
  - pose proof (unmarshal_any_built v sm Hd Hsm) as Hx.
    destruct (unmarshal_any v sm) as [x e]. cbn [fst] in *.
    cbn [ID OldValue NewValue StatusMessage]. now rewrite Hid, Hov, Hnv, Hx.
Qed.

Lemma store_members_normal (ms : list (string * value)) :
  Forall (fun kv => depth (snd kv) < maxNestingDepth) ms ->
  forall t spare saved,
    normal_entry t = true ->
    normal_entry (fst (store_members ms t spare saved)) = true.
Proof.
  induction 1 as [|[k v] ms Hv _ IH]; intros t spare saved Ht; [exact Ht|].
  cbn [store_members]. destruct (field_of k) as [f|]; [|now apply IH].
  pose proof (store_field_normal f v t spare Hv Ht) as Hf.
  destruct (store_field f v t spare) as [[t' spare'] e]. now apply IH.
Qed.

Lemma zeroEntry_normal : normal_entry zeroEntry = true.
Proof.
  pose proof maxNestingDepth_ge as H.
  assert (H0 : (0 <? maxNestingDepth)%nat = true) by (apply Nat.ltb_lt; lia).
  unfold normal_entry, built, zeroEntry.
  cbn [ID OldValue NewValue StatusMessage normal any_depth].
  rewrite H0. reflexivity.
Qed.

(** The record a value the scanner reads is unmarshalled into. *)
Lemma unmarshal_entry_normal (v : value) :
  shallow v = true ->
  normal_entry (fst (unmarshal_entry v zeroEntry)) = true.
Proof.
  intros Hv. apply shallow_le in Hv.
  destruct v; try exact zeroEntry_normal.
  cbn [unmarshal_entry]. apply store_members_normal; [|exact zeroEntry_normal].
  pose proof maxNestingDepth_ge as H2.
  assert (Hd : depth (JObject members) <= S (maxNestingDepth - 1)) by lia.
  apply depth_object in Hd. eapply Forall_impl; [|exact Hd].
  cbn beta. intros kv Hkv. lia.
Qed.


(** Decoding what [Encode] writes for such a record gives the record. *)
Lemma unmarshal_marshal_entry (t : TransactionLogEntry) :
  normal_entry t = true ->
  unmarshal_entry (marshal_entry t) zeroEntry = (t, None).
Proof.
  destruct t as [id cs ts rt us cu tu ov nv sm]. unfold normal_entry, built.
  cbn [ID OldValue NewValue StatusMessage].
  intros H. apply andb_prop in H as [H Hsm]. apply andb_prop in H as [H Hnv].
  apply andb_prop in H as [Hid Hov].
  apply andb_prop in Hsm as [Hsm _]. apply andb_prop in Hnv as [Hnv _].
  apply andb_prop in Hov as [Hov _].
  unfold marshal_entry, unmarshal_entry, zeroEntry.
  cbn [ID ChangeSetID TimeStamp ReplicationTime User Cube Tuple OldValue
       NewValue StatusMessage].
  repeat (cbn [store_members];
          match goal with
          | |- context [field_of ?k] =>
              let f := eval vm_compute in (field_of k) in
              change (field_of k) with f
          end;
          cbn [store_field unmarshal_int unmarshal_string saveError]).
  rewrite Hid.
  destruct tu as [l|];
    cbn [store_field unmarshal_string unmarshal_strings app saveError];
    rewrite ?store_elems_strings;
    [destruct l|];
    repeat (cbn [store_field unmarshal_string map saveError];
            rewrite ?unmarshal_any_marshal by assumption);
    reflexivity.
Qed.

(** What [Encode] writes for such a record is a value the scanner
    reads. *)
Lemma marshal_entry_shallow (t : TransactionLogEntry) :
  normal_entry t = true -> shallow (marshal_entry t) = true.
Proof.
  destruct t as [id cs ts rt us cu tu ov nv sm]. unfold normal_entry, built.
  cbn [ID OldValue NewValue StatusMessage].
  intros H. apply andb_prop in H as [H Hsm]. apply andb_prop in H as [H Hnv].
  apply andb_prop in H as [_ Hov].
  apply andb_prop in Hsm as [_ Hsm]. apply andb_prop in Hnv as [_ Hnv].
  apply andb_prop in Hov as [_ Hov].
  apply Nat.ltb_lt in Hsm, Hnv, Hov.
  apply shallow_le. pose proof maxNestingDepth_ge as H2.
  assert (Htu : depth match tu with
                      | Some l => JArray (map JString l)
                      | None => JNull
                      end <= 1).
  { destruct tu as [l|]; [|cbn; lia]. cbn [depth].
    assert (Hl : fold_right (fun e m => Nat.max (depth e) m) 0
                   (map JString l) = 0).
    { induction l as [|s l IHl]; [reflexivity|]. cbn [map fold_right depth].
      now rewrite IHl. }
    rewrite Hl. lia. }
  unfold marshal_entry.
  cbn [ID ChangeSetID TimeStamp ReplicationTime User Cube Tuple OldValue
       NewValue StatusMessage].
  cbn [depth fold_right snd]. rewrite !depth_marshal_any. cbn [depth] in Htu.
  lia.
Qed.

Lemma marshal_entry_decodes (t : TransactionLogEntry) :
  normal_entry t = true ->
  decodes (marshal_entry t) = true /\ entry_of (marshal_entry t) = t.
Proof.
  intros Ht. rewrite decodes_spec, entry_of_spec. unfold unmarshals.
  rewrite (marshal_entry_shallow t Ht), (unmarshal_marshal_entry t Ht).
  now split.
Qed.

(** ** What the scanner returns nests no deeper than its limit *)

Section ScanFits.

Variable limit : nat.

Lemma stack_fits_length (st : list frame) :
  stack_fits limit st -> length st <= limit.
Proof. destruct st as [|f st]; [cbn; lia | now intros [H _]]. Qed.

Lemma endValue_fits (v : value) (st : list frame) :
  stack_fits limit st ->
  depth v + length st <= limit ->
  scanned_fits limit (endValue v st).
Proof.
  intros Hst Hv. destruct st as [|[elems | ms [k|]] st'];
    cbn [endValue scanned_fits]; [cbn [length] in Hv; lia | | | exact I].
  - destruct Hst as (Hlen & Hf & Hst'). cbn [stack_fits length] in *.
    split; [exact Hlen|]. split; [|exact Hst'].
    cbn [frame_fits] in *. apply Forall_app. split; [exact Hf|].
    constructor; [exact Hv | constructor].
  - destruct Hst as (Hlen & Hf & Hst'). cbn [stack_fits length] in *.
    split; [exact Hlen|]. split; [|exact Hst'].
    cbn [frame_fits] in *. apply Forall_app. split; [exact Hf|].
    constructor; [exact Hv | constructor].
Qed.

Lemma pushParseState_fits (st : list frame) (f : frame) (s : step) :
  stack_fits limit st ->
  frame_fits limit (S (length st)) f ->
  scanned_fits limit (pushParseState limit st f s).
Proof.
  intros Hst Hf. unfold pushParseState.
  destruct (Nat.leb_spec (length (f :: st)) limit) as [Hle|Hgt];
    cbn [scanned_fits]; [|exact I].
  cbn [stack_fits]. now repeat split.
Qed.

Lemma beginValue_fits (st : list frame) (c : lexeme) :
  stack_fits limit st -> scanned_fits limit (beginValue limit st c).
Proof.
  intros Hst. pose proof (stack_fits_length st Hst) as Hlen.
  destruct c; cbn [beginValue]; try exact I;
    try (apply pushParseState_fits; [exact Hst | constructor]);
    apply endValue_fits; cbn [depth]; assumption || lia.
Qed.

Lemma close_array_fits (elems : list value) (st : list frame) :
  stack_fits limit (parseArray elems :: st) ->
  scanned_fits limit (endValue (JArray elems) st).
Proof.
  intros (Hlen & Hf & Hst). cbn [frame_fits length] in *.
  apply endValue_fits; [exact Hst|].
  assert (Hm : fold_right (fun e m => Nat.max (depth e) m) 0 elems
               <= limit - S (length st)).
  { apply (max_fold_le depth). eapply Forall_impl; [|exact Hf].
    cbn beta. intros a Ha. lia. }
  cbn [depth]. lia.
Qed.

Lemma close_object_fits (ms : list (string * value)) (key : option string)
    (st : list frame) :
  stack_fits limit (parseObject ms key :: st) ->
  scanned_fits limit (endValue (JObject ms) st).
Proof.
  intros (Hlen & Hf & Hst). cbn [frame_fits length] in *.
  apply endValue_fits; [exact Hst|].
  assert (Hm : fold_right (fun kv m => Nat.max (depth (snd kv)) m) 0 ms
               <= limit - S (length st)).
  { apply (max_fold_le (fun kv => depth (snd kv))).
    eapply Forall_impl; [|exact Hf]. cbn beta. intros a Ha. lia. }
  cbn [depth]. lia.
Qed.

Lemma beginString_fits (st : list frame) (c : lexeme) :
  stack_fits limit st -> scanned_fits limit (beginString st c).
Proof.
  intros Hst. destruct c; cbn [beginString]; try exact I.
  destruct st as [|[elems | ms [k|]] st']; try exact I.
  exact Hst.
Qed.

Lemma scan_step_fits (st : list frame) (s : step) (c : lexeme) :
  stack_fits limit st -> scanned_fits limit (scan_step limit st s c).
Proof.
  intros Hst. destruct s; cbn [scan_step].
  - now apply beginValue_fits.
  - destruct c; try (now apply beginValue_fits).
    destruct st as [|[elems | ms key] st']; try (now apply beginValue_fits).
    now apply close_array_fits.
  - destruct c; try (now apply beginString_fits).
    destruct st as [|[elems | ms [k|]] st']; try (now apply beginString_fits).
    now apply (close_object_fits ms None).
  - now apply beginString_fits.
  - destruct st as [|[elems | ms [k|]] st']; destruct c; try exact I;
      try exact Hst.
    + now apply close_array_fits.
    + now apply (close_object_fits ms None).
Qed.

Lemma scan_fits (l : list lexeme) :
  forall st s v rest,
    stack_fits limit st ->
    scan limit st s l = inl (v, rest) -> depth v <= limit.
Proof.
  induction l as [|c l IH]; intros st s v rest Hst H; [discriminate H|].
  cbn [scan] in H. pose proof (scan_step_fits st s c Hst) as Hstep.
  destruct (scan_step limit st s c) as [st' s' | v' |].
  - exact (IH st' s' v rest Hstep H).
  - now injection H as <- _.
  - discriminate H.
Qed.

End ScanFits.

Lemma readValue_shallow (l : list lexeme) (v : value) (rest : list lexeme) :
  readValue l = inl (v, rest) -> shallow v = true.
Proof.
  intros H. apply shallow_le. destruct l as [|c l]; [discriminate H|].
  exact (scan_fits maxNestingDepth (c :: l) [] stateBeginValue v rest I H).
Qed.

(** ** The callbacks of a parse, whatever the stream *)

Section Natural.

Import reviver.

Context {St : Type}.
Variable callback : TransactionLogContainer -> St -> St.

Lemma Decode_entry_normal (dec dec1 : Decoder) (t : TransactionLogEntry)
    (e : option error) :
  Decode unmarshal_entry dec zeroEntry = (dec1, t, e) ->
  normal_entry t = true.
Proof.
  pose proof zeroEntry_normal as Hz.
  unfold Decode. destruct (err dec); [now intros [= _ <- _]|].
  destruct (tokenPrepareForDecode dec) as [d [e'|]]; [now intros [= _ <- _]|].
  destruct (negb (tokenValueAllowed (tokState d))); [now intros [= _ <- _]|].
  destruct (readValue (buf d)) as [[v rest]|e'] eqn:Hread;
    [|now intros [= _ <- _]].
  apply readValue_shallow in Hread.
  pose proof (unmarshal_entry_normal v Hread) as Hv.
  destruct (unmarshal_entry v zeroEntry) as [t' e'].
  intros [= _ <- _]. exact Hv.
Qed.

Lemma array_loop_natural (f : nat) :
  forall dec log st,
    match array_loop record f dec log with
    | Some (dec', log', e) =>
        exists rs,
          forallb normal_entry rs = true /\
          log' = log ++ map record_unit rs /\
          array_loop callback f dec st
          = Some (dec', deliver callback rs st, e)
    | None => array_loop callback f dec st = None
    end.
Proof.
  induction f as [|f IH]; intros dec log st; [reflexivity|].
  cbn [array_loop]. destruct (More dec).
  - destruct (Decode unmarshal_entry dec zeroEntry) as [[dec1 t] [e|]] eqn:HD.
    + exists []. split; [reflexivity|].
      split; [now rewrite app_nil_r | reflexivity].
    + apply Decode_entry_normal in HD.
      specialize (IH dec1 (record (mkContainer (Some t) "") log)
                    (callback (mkContainer (Some t) "") st)).
      destruct (array_loop record f dec1 _) as [[[dec' log'] e]|];
        [|exact IH].
      destruct IH as (rs & Hn & -> & Hrun). exists (t :: rs).
      split; [cbn [forallb]; now rewrite HD, Hn|]. split.
      * unfold record. rewrite <- app_assoc. reflexivity.
      * exact Hrun.
  - exists []. split; [reflexivity|].
    split; [now rewrite app_nil_r | reflexivity].
Qed.

Lemma object_loop_natural (f : nat) :
  forall dec dl log st,
    match object_loop record f dec dl log with
    | Some (dec', dl', log', e) =>
        exists rs,
          forallb normal_entry rs = true /\
          log' = log ++ map record_unit rs /\
          object_loop callback f dec dl st
          = Some (dec', dl', deliver callback rs st, e)
    | None => object_loop callback f dec dl st = None
    end.
Proof.
  induction f as [|f IH]; intros dec dl log st; [reflexivity|].
  rewrite !object_loop_unfold.
  assert (Hstop : forall (d : Decoder) (s : string) (e : option error),
             exists rs : list TransactionLogEntry,
               forallb normal_entry rs = true /\
               log = log ++ map record_unit rs /\
               Some (d, s, st, e) = Some (d, s, deliver callback rs st, e)).
  { intros. exists []. split; [reflexivity|].
    split; [now rewrite app_nil_r | reflexivity]. }
  destruct (More dec); [|apply Hstop].
  destruct (Token_ dec) as [dec1 [token|e]]; [|apply Hstop].
  destruct (if is_string token "@odata.deltaLink"
            then let '(d, dl0, _) := Decode unmarshal_string dec1 dl in
                 (d, dl0)
            else (dec1, dl)) as [dec2 dl2].
  destruct (negb (is_string token "value")); [apply IH|].
  destruct (Token_ dec2) as [dec3 [token3|e]]; [|apply Hstop].
  destruct (negb (is_delim token3 "[")); [apply Hstop|].
  pose proof (array_loop_natural f dec3 log st) as Harr.
  destruct (array_loop record f dec3 log) as [[[dec4 log4] e]|];
    [|now rewrite Harr].
  destruct Harr as (rs & Hn & -> & ->).
  destruct e as [e|].
  { exists rs. now repeat split. }
  destruct (Token_ dec4) as [dec5 [token5|e]].
  2:{ exists rs. now repeat split. }
  destruct (negb (is_delim token5 "]")).
  { exists rs. now repeat split. }
  specialize (IH dec5 dl2 (log ++ map record_unit rs)
                (deliver callback rs st)).
  destruct (object_loop record f dec5 dl2 _) as [[[[dec' dl'] log'] e]|];
    [|exact IH].
  destruct IH as (rs' & Hn' & -> & Hrun). exists (rs ++ rs').
  split; [rewrite forallb_app; now rewrite Hn, Hn'|]. split.
  - rewrite map_app, app_assoc. reflexivity.
  - rewrite deliver_app. exact Hrun.
Qed.

(** Every parse is a run of records, closed by one final unit exactly
    when it returns no error; and any callback is called as the log
    says. *)
Lemma ParseTransactionLogs_natural (stream : list lexeme) (st : St) :
  exists r' rs deltaLink e,
    forallb normal_entry rs = true /\
    parse stream
    = Some (map record_unit rs
            ++ match e with
               | None => [final_unit deltaLink]
               | Some _ => []
               end, e) /\
    ParseTransactionLogs callback (NewJSONReviver stream) st
    = Some (r',
            match e with
            | None => callback (final_unit deltaLink)
                        (deliver callback rs st)
            | Some _ => deliver callback rs st
            end, e).
Proof.
  unfold parse, ParseTransactionLogs, ParseTransactionLogs_fuel.
  destruct (Token_ (decoder (NewJSONReviver stream))) as [dec1 [t|e]] eqn:Htok.
  2:{ exists (mkReviver dec1), [], "", (Some e). now repeat split. }
  apply Token_shrinks in Htok.
  destruct (negb (is_delim t "{")).
  { eexists _, [], "", (Some _). repeat split; reflexivity. }
  set (fuel := S (length (buf (decoder (NewJSONReviver stream))))) in *.
  pose proof (object_loop_natural fuel dec1 "" [] st) as Hloop.
  destruct (object_loop_returns record fuel dec1 "" [])
    as (dec2 & dl & log & e & Hrec); [subst fuel; lia|].
  rewrite Hrec in Hloop |- *. destruct Hloop as (rs & Hn & Hlog & Hrun).
  cbn [app] in Hlog. subst log. rewrite Hrun.
  destruct e as [e|].
  { exists (mkReviver dec2), rs, "", (Some e). rewrite app_nil_r.
    now repeat split. }
  destruct (Token_ dec2) as [dec3 [t3|e]].
  2:{ exists (mkReviver dec3), rs, "", (Some e). rewrite app_nil_r.
      now repeat split. }
  destruct (negb (is_delim t3 "}")).
  { eexists _, rs, "", (Some _). rewrite app_nil_r.
    repeat split; [exact Hn | reflexivity..]. }
  exists (mkReviver dec3), rs, dl, None.
  repeat split; [exact Hn | reflexivity..].
Qed.

End Natural.

(* ================================================================== *)
(** * The claims about the token stream parser                          *)
(* ================================================================== *)

Lemma parse_shape (stream : list lexeme)
    (log : list reviver.TransactionLogContainer) (e : option error) :
  reviver.parse stream = Some (log, e) ->
  exists rs deltaLink,
    log = map record_unit rs
          ++ match e with
             | None => [final_unit deltaLink]
             | Some _ => []
             end.
Proof.
  intros Hparse.
  destruct (ParseTransactionLogs_natural reviver.record stream [])
    as (r' & rs & deltaLink & e' & _ & Hp & _).
  rewrite Hparse in Hp. injection Hp as -> <-. now exists rs, deltaLink.
Qed.

(** C5.  For every valid input body, the sequence of Records the parser
    delivers through the callback equals the sequence of elements under
    the collection field, in their original order, and the final unit is
    delivered exactly once, only after every Record of that body: the log
    of callbacks is the records, one per element and in the order of the
    elements, followed by the one final unit, and the parse returns no
    error.  Both variants of the parser; a valid body is a root object
    whose members are the collection (an array of elements that decode),
    the continuation field with a value the scanner reads, or members
    the variant skips as one token (a scalar other than the string
    "value", a number being within float64).
    On any stream at all, the log of the parser of utils/json_reviver.go
    is a run of records closed by one final unit when the parse returns
    no error, and by none when it returns one. *)
Theorem C5_records_in_order_then_final (ms : list (string * value)) :
  (valid_body ms = true ->
   reviver.parse (body ms)
   = Some (map record_unit (map entry_of (collection ms))
           ++ [final_unit (token_of ms "")], None))
  /\
  (valid_body0 ms = true ->
   reviver0.parse (body ms)
   = Some (map record_unit0 (map entry_of (collection ms)) ++ [final_unit0],
           None))
  /\
  (forall stream log e,
     reviver.parse stream = Some (log, e) ->
     exists rs deltaLink,
       log = map record_unit rs
             ++ match e with
                | None => [final_unit deltaLink]
                | Some _ => []
                end).
Proof.
  split; [apply parse_valid|]. split; [apply parse0_valid|].
  exact parse_shape.
Qed.

Lemma C5_witness :
  valid_body sample_body = true /\
  valid_body0 sample_body = true /\
  reviver.parse (body sample_body)
  = Some ([record_unit (entry_of entry1); record_unit (entry_of entry2);
           final_unit "TransactionLogEntries/!delta('T2')"], None) /\
  reviver0.parse (body sample_body)
  = Some ([record_unit0 (entry_of entry1); record_unit0 (entry_of entry2);
           final_unit0], None) /\
  exists rs deltaLink,
    [final_unit ""] = map record_unit rs ++ [final_unit deltaLink].
Proof.
  destruct (C5_records_in_order_then_final sample_body) as (H & H0 & Hshape).
  split; [reflexivity|]. split; [reflexivity|].
  split; [exact (H eq_refl)|]. split; [exact (H0 eq_refl)|].
  exact (Hshape (body nested_body) [final_unit ""] None eq_refl).
Defined.

(** C7.  For every body in which one array element fails to decode as a
    Record, the parse aborts with the error "unable to decode transaction
    log entry", and every Record preceding the failing element has
    already been delivered through the callback: [es] are the elements
    before the failing element [bad], [pre] the members before the
    collection; what follows [bad] is arbitrary.  An element decodes, or
    fails to, as [Decode] says on it.  Both variants. *)
Theorem C7_decode_failure_aborts
    (pre : list (string * value)) (es : list value) (bad : value)
    (after : list value) (post : list (string * value)) :
  forallb decodes es = true ->
  decodes bad = false ->
  (valid_body pre = true ->
   reviver.parse
     (body (pre ++ ("value", JArray (es ++ bad :: after)) :: post))
   = Some (map record_unit (map entry_of (collection pre ++ es)),
           Some decode_failed))
  /\
  (valid_body0 pre = true ->
   reviver0.parse
     (body (pre ++ ("value", JArray (es ++ bad :: after)) :: post))
   = Some (map record_unit0 (map entry_of (collection pre ++ es)),
           Some decode_failed)).
Proof.
  intros Hes Hbad. split; intros Hpre.
  - now apply parse_bad_element.
  - now apply parse0_bad_element.
Qed.

Lemma C7_witness :
  decodes (JNumber (Int 123)) = false /\
  reviver.parse
    (body [("@odata.context", JString "ctx");
           ("value", JArray [entry1; JNumber (Int 123); entry2]);
           ("@odata.deltaLink", JString "T2")])
  = Some ([record_unit (entry_of entry1)], Some decode_failed) /\
  reviver0.parse
    (body [("@odata.context", JString "ctx");
           ("value", JArray [entry1; JNumber (Int 123); entry2]);
           ("@odata.deltaLink", JString "T2")])
  = Some ([record_unit0 (entry_of entry1)], Some decode_failed).
Proof.
  split; [reflexivity|].
  pose proof (C7_decode_failure_aborts
                [("@odata.context", JString "ctx")] [entry1]
                (JNumber (Int 123)) [entry2]
                [("@odata.deltaLink", JString "T2")] eq_refl eq_refl)
    as [H H0].
  split; [exact (H eq_refl) | exact (H0 eq_refl)].
Defined.






(* ================================================================== *)
(** * The re-streaming forwarder                                        *)
(* ================================================================== *)

Section Forwarder.

Import main.

Lemma deliver_more (rs : list TransactionLogEntry) :
  forall w p,
    deliver callback rs (mkForwarder 1 w false p 0 [] None false)
    = mkForwarder 1
        (w ++ flat_map (fun t => separator ++ lexemes_of (marshal_entry t)) rs)
        false p 0 [] None false.
Proof.
  induction rs as [|r rs IH]; intros w p.
  - cbn. now rewrite app_nil_r.
  - change (deliver callback (r :: rs) (mkForwarder 1 w false p 0 [] None false))
      with (deliver callback rs
              (callback (record_unit r)
                 (mkForwarder 1 w false p 0 [] None false))).
    assert (Hcb : callback (record_unit r)
                    (mkForwarder 1 w false p 0 [] None false)
                  = mkForwarder 1
                      (w ++ separator ++ lexemes_of (marshal_entry r))
                      false p 0 [] None false).
    { unfold callback, record_unit, Encode, Write.
      cbn [fatal stuck reviver.TransactionLogEntry_ reviver.DeltaLink count
           closed written posts drains deltaLinkChannel fst Z.eqb
           String.eqb negb].
      rewrite <- app_assoc. reflexivity. }
    rewrite Hcb, IH. cbn [flat_map]. rewrite <- !app_assoc. reflexivity.
Qed.

(** After the records of a body: the framing is open, nothing is closed
    or sent. *)
Lemma deliver_forwarder0 (rs : list TransactionLogEntry) :
  deliver callback rs forwarder0
  = mkForwarder (match rs with [] => 0 | _ :: _ => 1 end) (framed rs) false
      (match rs with [] => [] | _ :: _ => [the_post] end) 0 [] None false.
Proof.
  destruct rs as [|r rs]; [reflexivity|].
  change (deliver callback (r :: rs) forwarder0)
    with (deliver callback rs (callback (record_unit r) forwarder0)).
  assert (Hcb : callback (record_unit r) forwarder0
                = mkForwarder 1
                    (open_framing ++ lexemes_of (marshal_entry r))
                    false [the_post] 0 [] None false).
  { reflexivity. }
  rewrite Hcb, deliver_more. cbn [framed]. rewrite <- !app_assoc.
  reflexivity.
Qed.

Lemma final_forwarded (rs : list TransactionLogEntry) (deltaLink : string) :
  callback (final_unit deltaLink) (deliver callback rs forwarder0)
  = forwarded rs deltaLink.
Proof.
  rewrite deliver_forwarder0. unfold callback, final_unit, forwarded, Write.
  cbn [fatal stuck reviver.TransactionLogEntry_ reviver.DeltaLink count
       closed written posts drains deltaLinkChannel fst].
  destruct (String.eqb deltaLink ""), rs; cbn; rewrite ?app_nil_r;
    reflexivity.
Qed.

(** The forwarder on every stream, by what the parse of the stream
    delivers: the Records [rs], then, when the parse returns no error,
    the final unit with the token [deltaLink]. *)
Lemma process_every (stream : list lexeme) :
  exists rs deltaLink e,
    forallb normal_entry rs = true /\
    reviver.parse stream
    = Some (map record_unit rs
            ++ match e with
               | None => [final_unit deltaLink]
               | Some _ => []
               end, e) /\
    processTransactionLogEntries stream
    = match e with
      | None =>
          (if String.eqb deltaLink "" then client.blocks
           else client.returns ("", deltaLink),
           forwarded rs deltaLink)
      | Some e' =>
          (client.exits (Error e'), deliver callback rs forwarder0)
      end.
Proof.
  destruct (ParseTransactionLogs_natural callback stream forwarder0)
    as (r' & rs & deltaLink & e & Hn & Hparse & Hrun).
  exists rs, deltaLink, e. split; [exact Hn|]. split; [exact Hparse|].
  unfold processTransactionLogEntries. rewrite Hrun. destruct e as [e'|].
  - rewrite deliver_forwarder0. reflexivity.
  - rewrite final_forwarded. unfold forwarded.
    cbn [deltaLinkChannel fatal].
    destruct (String.eqb deltaLink ""); reflexivity.
Qed.

End Forwarder.

(** The lexemes written are those of the literals of the source. *)
Lemma framing_texts :
  main.lexemes_of_text main.open_framing_text None = Some main.open_framing /\
  main.lexemes_of_text main.separator_text None = Some main.separator /\
  main.lexemes_of_text main.close_framing_text None = Some main.close_framing.
Proof. split; [|split]; vm_compute; reflexivity. Qed.

Lemma written_closed (r : TransactionLogEntry) (rs : list TransactionLogEntry) :
  framed (r :: rs) ++ main.close_framing
  = LBrace :: LString "value" :: LColon
    :: lexemes_of (JArray (map marshal_entry (r :: rs))).
Proof.
  rewrite lexemes_of_array. cbn [map framed main.open_framing app].
  rewrite flat_map_map, <- !app_assoc. reflexivity.
Qed.

(** A value nests less deep than it has lexemes. *)
Lemma depth_lt_length (v : value) : depth v < length (lexemes_of v).
Proof.
  induction v as [| b | n | s | elems IH | ms IH] using value_nested_ind;
    try (cbn; lia).
  - rewrite lexemes_of_array. cbn [depth length]. rewrite length_app.
    cbn [length].
    enough (fold_right (fun e m => Nat.max (depth e) m) 0 elems
            <= length match elems with
                      | [] => []
                      | e :: es =>
                          lexemes_of e
                          ++ flat_map (fun x => LComma :: lexemes_of x) es
                      end) by lia.
    destruct IH as [|e es He Hes]; [cbn; lia|].
    cbn [fold_right]. rewrite length_app.
    enough (fold_right (fun e m => Nat.max (depth e) m) 0 es
            <= length (flat_map (fun x => LComma :: lexemes_of x) es)) by lia.
    induction Hes as [|e' es' He' _ IHes]; [cbn; lia|].
    cbn [fold_right flat_map length app]. rewrite length_app. lia.
  - rewrite lexemes_of_object. cbn [depth length]. rewrite length_app.
    cbn [length].
    enough (fold_right (fun kv m => Nat.max (depth (snd kv)) m) 0 ms
            <= length match ms with
                      | [] => []
                      | m :: ms' =>
                          member_lexemes m
                          ++ flat_map (fun x => LComma :: member_lexemes x) ms'
                      end) by lia.
    destruct IH as [|m ms' Hm Hms]; [cbn; lia|].
    cbn [fold_right]. rewrite length_app. unfold member_lexemes at 1.
    cbn [length].
    enough (fold_right (fun kv m => Nat.max (depth (snd kv)) m) 0 ms'
            <= length (flat_map (fun x => LComma :: member_lexemes x) ms'))
      by lia.
    induction Hms as [|m' ms'' Hm' _ IHms]; [cbn; lia|].
    cbn [fold_right flat_map length app]. rewrite length_app.
    unfold member_lexemes at 1. cbn [length]. lia.
Qed.

Lemma unclosed_object_not_well_formed (v : value) :
  main.well_formed (LBrace :: LString "value" :: LColon :: lexemes_of v)
  = false.
Proof.
  unfold main.well_formed.
  set (limit := length (LBrace :: LString "value" :: LColon :: lexemes_of v)).
  assert (Hlimit : depth v + 1 <= limit).
  { subst limit. cbn [length]. pose proof (depth_lt_length v). lia. }
  cbn [scan scan_step beginValue].
  rewrite pushParseState_ok by (cbn [length]; lia).
  cbn [scan scan_step beginString].
  rewrite <- (app_nil_r (lexemes_of v)), scan_value by exact Hlimit.
  reflexivity.
Qed.

Lemma closed_object_well_formed (v : value) :
  main.well_formed
    ((LBrace :: LString "value" :: LColon :: lexemes_of v) ++ [RBrace])
  = true.
Proof.
  unfold main.well_formed.
  change ((LBrace :: LString "value" :: LColon :: lexemes_of v) ++ [RBrace])
    with (lexemes_of (JObject [("value", v)])).
  pose proof (depth_lt_length (JObject [("value", v)])) as Hd.
  pose proof (scan_value (length (lexemes_of (JObject [("value", v)])))
                (JObject [("value", v)]) [] []) as H.
  rewrite app_nil_r in H. rewrite H by (cbn [length]; lia). reflexivity.
Qed.

(** Parsing a stream that stops after the array of the collection: the
    records are delivered, then the [Token] that should read the closing
    brace of the object returns [io.EOF]. *)
Lemma parse_unclosed (es : list value) :
  forallb decodes es = true ->
  reviver.parse (LBrace :: LString "value" :: LColon :: lexemes_of (JArray es))
  = Some (map record_unit (map entry_of es), Some io_EOF).
Proof.
  intros Hes.
  unfold reviver.parse, reviver.ParseTransactionLogs,
    reviver.ParseTransactionLogs_fuel.
  cbn [reviver.NewJSONReviver reviver.decoder NewDecoder buf Token_ tokState
       tokenStack err Token_from tokenValueAllowed is_delim Ascii.eqb
       Bool.eqb andb negb length].
  rewrite <- (app_nil_r (lexemes_of (JArray es))).
  assert (Hok : member_ok ("value", JArray es) = true).
  { unfold member_ok, collection_ok. cbn [collection_field fst snd
      String.eqb Ascii.eqb Bool.eqb andb]. now rewrite Hes. }
  destruct (object_loop_member reviver.record "value" (JArray es) Hok
              (S (S (length (LColon :: lexemes_of (JArray es) ++ []))))
              (mkDecoder
                 (LString "value" :: LColon :: lexemes_of (JArray es) ++ [])
                 tokenObjectStart [tokenTopValue] None)
              [] [tokenTopValue] "" [])
    as (f' & Hf' & Hstep).
  - reflexivity.
  - reflexivity.
  - lia.
  - cbn [length] in Hstep. rewrite Hstep.
    destruct f' as [|f']; [cbn in Hf'; lia|].
    rewrite object_loop_unfold. change (More _) with false. cbv iota.
    cbn [Token_ buf tokState tokenStack err Token_from].
    rewrite deliver_record. unfold elements_of.
    cbn [collection_field fst snd String.eqb Ascii.eqb Bool.eqb andb app].
    reflexivity.
Qed.

Lemma reparse_entries (rs : list TransactionLogEntry) :
  forallb normal_entry rs = true ->
  forallb decodes (map marshal_entry rs) = true /\
  map entry_of (map marshal_entry rs) = rs.
Proof.
  intros Hn. rewrite forallb_forall in Hn. split.
  - apply forallb_forall. intros v Hv.
    apply in_map_iff in Hv as (t & <- & Ht).
    now apply marshal_entry_decodes, Hn.
  - rewrite map_map. rewrite <- (map_id rs) at 2. apply map_ext_in.
    intros t Ht. now apply marshal_entry_decodes, Hn.
Qed.

(** A log that ends in its final unit determines its Records and its
    token. *)
Lemma log_inj (rs rs' : list TransactionLogEntry) (t t' : string) :
  map record_unit rs ++ [final_unit t]
  = map record_unit rs' ++ [final_unit t'] ->
  rs = rs' /\ t = t'.
Proof.
  intros H. apply app_inj_tail in H as [Hm Hf]. split.
  - revert rs' Hm. induction rs as [|r rs IH]; intros [|r' rs'] Hm;
      try discriminate Hm; [reflexivity|].
    injection Hm as -> Hm. f_equal. now apply IH.
  - now injection Hf.
Qed.

(** C1, the code against the claim.  For every response body whose parse
    completes successfully, the parse ends with one final unit, and the
    forwarder sends its continuation token on the channel once, so that
    [processTransactionLogEntries] returns it, only when the token is not
    empty: when the token is the empty string nothing is sent, the stream
    is not closed, and the caller waits for ever. *)
Theorem C1_handoff_only_for_nonempty_token
    (stream : list lexeme) (log : list reviver.TransactionLogContainer) :
  reviver.parse stream = Some (log, None) ->
  exists rs deltaLink,
    log = map record_unit rs ++ [final_unit deltaLink] /\
    (deltaLink <> "" ->
     fst (main.processTransactionLogEntries stream)
     = client.returns ("", deltaLink) /\
     main.deltaLinkChannel (snd (main.processTransactionLogEntries stream))
     = [deltaLink]) /\
    (deltaLink = "" ->
     fst (main.processTransactionLogEntries stream) = client.blocks /\
     main.deltaLinkChannel (snd (main.processTransactionLogEntries stream))
     = [] /\
     main.closed (snd (main.processTransactionLogEntries stream)) = false).
Proof.
  intros Hparse.
  destruct (process_every stream) as (rs & deltaLink & e & _ & Hp & Hrun).
  rewrite Hparse in Hp. injection Hp as Hlog <-.
  exists rs, deltaLink. split; [exact Hlog|].
  rewrite Hrun. cbn [fst snd]. unfold forwarded.
  cbn [main.deltaLinkChannel main.closed]. split.
  - intros Hne. apply String.eqb_neq in Hne. rewrite Hne. now split.
  - intros ->. cbn. auto.
Qed.

Lemma C1_witness :
  reviver.parse (body empty_body) = Some ([final_unit ""], None) /\
  fst (main.processTransactionLogEntries (body empty_body)) = client.blocks /\
  main.deltaLinkChannel (snd (main.processTransactionLogEntries (body empty_body)))
  = [] /\
  main.closed (snd (main.processTransactionLogEntries (body empty_body)))
  = false.
Proof.
  split; [reflexivity|].
  destruct (C1_handoff_only_for_nonempty_token (body empty_body)
              [final_unit ""] eq_refl) as (rs & deltaLink & Hlog & _ & Hempty).
  apply (log_inj [] rs "" deltaLink) in Hlog as [_ <-].
  apply Hempty. reflexivity.
Defined.

(** C2, the code against the claim.  For every body whose parse
    completes: if it has no Records, nothing is written; if it has
    Records and a continuation token, what has been written when the
    forwarder closes the stream is the opening brace, the name "value",
    the colon and the array of the Records, and stops there: the closing
    brace of the object is never written, so the stream is not
    well-formed JSON (it would be with the brace). *)
Theorem C2_object_left_open
    (stream : list lexeme) (log : list reviver.TransactionLogContainer) :
  reviver.parse stream = Some (log, None) ->
  exists rs deltaLink,
    log = map record_unit rs ++ [final_unit deltaLink] /\
    (rs = [] ->
     main.written (snd (main.processTransactionLogEntries stream)) = []) /\
    (rs <> [] ->
     deltaLink <> "" ->
     main.closed (snd (main.processTransactionLogEntries stream)) = true /\
     main.written (snd (main.processTransactionLogEntries stream))
     = LBrace :: LString "value" :: LColon
       :: lexemes_of (JArray (map marshal_entry rs)) /\
     main.well_formed
       (main.written (snd (main.processTransactionLogEntries stream)))
     = false /\
     main.well_formed
       (main.written (snd (main.processTransactionLogEntries stream))
        ++ [RBrace])
     = true).
Proof.
  intros Hparse.
  destruct (process_every stream) as (rs & deltaLink & e & _ & Hp & Hrun).
  rewrite Hparse in Hp. injection Hp as Hlog <-.
  exists rs, deltaLink. split; [exact Hlog|].
  rewrite Hrun. cbn [snd]. unfold forwarded.
  cbn [main.written main.closed]. split.
  - intros ->. reflexivity.
  - intros Hrs Htok. apply String.eqb_neq in Htok. rewrite Htok.
    destruct rs as [|r rs]; [congruence|].
    cbn [negb]. rewrite (written_closed r rs).
    split; [reflexivity|]. split; [reflexivity|]. split.
    + apply unclosed_object_not_well_formed.
    + apply closed_object_well_formed.
Qed.

Lemma C2_witness :
  reviver.parse (body sample_body)
  = Some ([record_unit (entry_of entry1); record_unit (entry_of entry2);
           final_unit "TransactionLogEntries/!delta('T2')"], None) /\
  main.closed (snd (main.processTransactionLogEntries (body sample_body)))
  = true /\
  main.written (snd (main.processTransactionLogEntries (body sample_body)))
  = LBrace :: LString "value" :: LColon
    :: lexemes_of (JArray [marshal_entry (entry_of entry1);
                           marshal_entry (entry_of entry2)]) /\
  main.well_formed
    (main.written (snd (main.processTransactionLogEntries (body sample_body))))
  = false.
Proof.
  split; [reflexivity|].
  destruct (C2_object_left_open (body sample_body)
              [record_unit (entry_of entry1); record_unit (entry_of entry2);
               final_unit "TransactionLogEntries/!delta('T2')"] eq_refl)
    as (rs & deltaLink & Hlog & _ & H).
  apply (log_inj [entry_of entry1; entry_of entry2] rs
           "TransactionLogEntries/!delta('T2')" deltaLink) in Hlog as [<- <-].
  destruct H as (Hc & Hw & Hn & _); [discriminate | discriminate |].
  split; [exact Hc|]. split; [exact Hw | exact Hn].
Defined.

(** Parsing the same stream with the closing brace. *)
Lemma parse_closed (es : list value) :
  forallb decodes es = true ->
  reviver.parse
    ((LBrace :: LString "value" :: LColon :: lexemes_of (JArray es))
     ++ [RBrace])
  = Some (map record_unit (map entry_of es) ++ [final_unit ""], None).
Proof.
  intros Hes.
  change ((LBrace :: LString "value" :: LColon :: lexemes_of (JArray es))
          ++ [RBrace])
    with (body [("value", JArray es)]).
  rewrite parse_valid.
  - unfold collection, elements_of.
    cbn [flat_map collection_field fst snd String.eqb Ascii.eqb Bool.eqb
         andb]. rewrite app_nil_r. reflexivity.
  - unfold valid_body, member_ok, collection_ok.
    cbn [forallb collection_field fst snd String.eqb Ascii.eqb Bool.eqb
         andb]. now rewrite Hes.
Qed.

(** C8, the code against the claim.  The outbound stream of a body with
    Records is not the framing the parser reads, because its closing
    brace is never written.  For every body whose parse completes with
    Records and a continuation token, parsing what the forwarder wrote
    delivers the same Records, in the same order, and then fails: the
    [Token] that should read the closing brace returns [io.EOF], the
    parse returns that error and no final unit is delivered.  With the
    closing brace the same stream parses without error to these Records
    and a final unit. *)
Theorem C8_reparse_delivers_then_fails
    (stream : list lexeme) (log : list reviver.TransactionLogContainer) :
  reviver.parse stream = Some (log, None) ->
  exists rs deltaLink,
    log = map record_unit rs ++ [final_unit deltaLink] /\
    (rs <> [] ->
     deltaLink <> "" ->
     reviver.parse
       (main.written (snd (main.processTransactionLogEntries stream)))
     = Some (map record_unit rs, Some io_EOF) /\
     reviver.parse
       (main.written (snd (main.processTransactionLogEntries stream))
        ++ [RBrace])
     = Some (map record_unit rs ++ [final_unit ""], None)).
Proof.
  intros Hparse.
  destruct (process_every stream) as (rs & deltaLink & e & Hn & Hp & Hrun).
  rewrite Hparse in Hp. injection Hp as Hlog <-.
  exists rs, deltaLink. split; [exact Hlog|].
  intros Hrs Htok. rewrite Hrun. cbn [snd]. unfold forwarded.
  cbn [main.written]. apply String.eqb_neq in Htok. rewrite Htok.
  destruct rs as [|r rs]; [congruence|].
  cbn [negb]. rewrite (written_closed r rs).
  destruct (reparse_entries (r :: rs) Hn) as [Hdec Hsame].
  rewrite (parse_unclosed _ Hdec), (parse_closed _ Hdec), Hsame. now split.
Qed.

Lemma C8_witness :
  reviver.parse (body sample_body)
  = Some ([record_unit (entry_of entry1); record_unit (entry_of entry2);
           final_unit "TransactionLogEntries/!delta('T2')"], None) /\
  reviver.parse
    (main.written (snd (main.processTransactionLogEntries (body sample_body))))
  = Some ([record_unit (entry_of entry1); record_unit (entry_of entry2)],
          Some io_EOF).
Proof.
  split; [reflexivity|].
  destruct (C8_reparse_delivers_then_fails (body sample_body)
              [record_unit (entry_of entry1); record_unit (entry_of entry2);
               final_unit "TransactionLogEntries/!delta('T2')"] eq_refl)
    as (rs & deltaLink & Hlog & H).
  apply (log_inj [entry_of entry1; entry_of entry2] rs
           "TransactionLogEntries/!delta('T2')" deltaLink) in Hlog as [<- <-].
  apply (proj1 (H ltac:(discriminate) ltac:(discriminate))).
Defined.

(* ================================================================== *)
(** * The poll loop                                                     *)
(* ================================================================== *)

Section PollLoop.

Import client.

Context {W B : Type}.
Variable Do : W -> Request -> W * Response B.
Variable processorFunc : W -> B -> W * call (string * string).
Variable serviceRootURL : string.
Variable interval : Z.

Lemma TrackCollection_turn_eq (urlStr : string) (w : W) :
  TrackCollection_turn Do processorFunc serviceRootURL urlStr interval w
  = let req := track_request (serviceRootURL ++ urlStr)%string in
    match processorFunc (fst (Do w req)) (Body (snd (Do w req))) with
    | (w2, returns (nextLink, deltaLink)) =>
        if negb (String.eqb nextLink "")
        then (w2, [EvRequest req], inl nextLink)
        else if negb (String.eqb deltaLink "")
        then (w2, [EvRequest req; EvSleep interval], inl deltaLink)
        else (w2, [EvRequest req], inr loop_exit)
    | (w2, blocks) => (w2, [EvRequest req], inr blocked)
    | (w2, exits msg) => (w2, [EvRequest req], inr (exited msg))
    end.
Proof.
  unfold TrackCollection_turn, ExecuteGETRequestEx, track_request, Header_Add.
  cbn [Method URL Header app].
  destruct (Do w _) as [w1 resp]. reflexivity.
Qed.

Lemma TrackCollection_unfold (fuel : nat) (urlStr : string) (w : W) :
  urlStr <> "" ->
  TrackCollection Do processorFunc (S fuel) serviceRootURL urlStr interval w
  = match TrackCollection_turn Do processorFunc serviceRootURL urlStr
            interval w with
    | (w', evs, inl next) =>
        let '(w'', evs', s) :=
          TrackCollection Do processorFunc fuel serviceRootURL next interval
            w' in
        (w'', evs ++ evs', s)
    | (w', evs, inr s) => (w', evs, s)
    end.
Proof.
  intros Hne. apply String.eqb_neq in Hne.
  cbn [TrackCollection]. rewrite Hne. reflexivity.
Qed.

(** The loop is left only after a response that yields neither link. *)
Lemma TrackCollection_exit (fuel : nat) :
  forall urlStr w w' evs,
    urlStr <> "" ->
    TrackCollection Do processorFunc fuel serviceRootURL urlStr interval w
    = (w', evs, loop_exit) ->
    exists u wa evs0,
      evs = evs0 ++ [EvRequest (track_request (serviceRootURL ++ u)%string)] /\
      processorFunc (fst (Do wa (track_request (serviceRootURL ++ u)%string)))
        (Body (snd (Do wa (track_request (serviceRootURL ++ u)%string))))
      = (w', returns ("", "")).
Proof.
  induction fuel as [|fuel IH]; intros urlStr w w' evs Hne Hrun.
  - apply String.eqb_neq in Hne. cbn [TrackCollection] in Hrun.
    rewrite Hne in Hrun. discriminate Hrun.
  - rewrite (TrackCollection_unfold fuel urlStr w Hne) in Hrun.
    rewrite TrackCollection_turn_eq in Hrun. cbv zeta in Hrun.
    destruct (processorFunc _ _) as [w2 [[nextLink deltaLink] | | msg]] eqn:Hp.
    + destruct (String.eqb nextLink "") eqn:Hn; cbn [negb] in Hrun.
      * destruct (String.eqb deltaLink "") eqn:Hd; cbn [negb] in Hrun.
        -- injection Hrun as <- <-.
           apply String.eqb_eq in Hn, Hd. subst.
           exists urlStr, w, []. split; [reflexivity | exact Hp].
        -- destruct (TrackCollection Do processorFunc fuel serviceRootURL
                       deltaLink interval w2) as [[w'' evs'] s] eqn:Hrest.
           injection Hrun as <- <- ->.
           apply String.eqb_neq in Hd.
           destruct (IH deltaLink w2 w'' evs' Hd Hrest)
             as (u & wa & evs0 & -> & Hu).
           exists u, wa, ([EvRequest
                             (track_request (serviceRootURL ++ urlStr)%string);
                           EvSleep interval] ++ evs0).
           split; [reflexivity | exact Hu].
      * destruct (TrackCollection Do processorFunc fuel serviceRootURL
                    nextLink interval w2) as [[w'' evs'] s] eqn:Hrest.
        injection Hrun as <- <- ->.
        apply String.eqb_neq in Hn.
        destruct (IH nextLink w2 w'' evs' Hn Hrest)
          as (u & wa & evs0 & -> & Hu).
        exists u, wa, ([EvRequest
                          (track_request (serviceRootURL ++ urlStr)%string)]
                       ++ evs0).
        split; [reflexivity | exact Hu].
    + discriminate Hrun.
    + discriminate Hrun.
Qed.

End PollLoop.





(** The processor on the sample body, and a turn of the loop with it. *)
Lemma process_sample :
  fst (main.processTransactionLogEntries (body sample_body))
  = client.returns ("", "TransactionLogEntries/!delta('T2')").
Proof. reflexivity. Qed.

(* ================================================================== *)
(** * Status handling                                                   *)
(* ================================================================== *)

(** C3, as stated, fails: the poll loop does not look at the status of a
    response.  A GET answered with status 500 is processed like any
    other; here the turn goes on to sleep and to request the delta link
    of the body, and nothing is logged. *)
Lemma C3_counterexample :
  client.StatusCode
    (snd (failing_server tt
            (track_request "https://tm1/api/v1/TransactionLogEntries")))
  = 500%Z /\
  client.TrackCollection_turn failing_server processor
    "https://tm1/api/v1/" "TransactionLogEntries" 5 tt
  = (tt,
     [client.EvRequest
        (track_request "https://tm1/api/v1/TransactionLogEntries");
      client.EvSleep 5],
     inl "T3").
Proof. split; vm_compute; reflexivity. Qed.

Lemma TrackCollection_status_blind {W B : Type}
    (Do Do' : W -> client.Request -> W * client.Response B)
    (processorFunc : W -> B -> W * client.call (string * string))
    (serviceRootURL : string) (interval : Z) :
  (forall w req,
     fst (Do w req) = fst (Do' w req) /\
     client.Body (snd (Do w req)) = client.Body (snd (Do' w req))) ->
  forall fuel urlStr w,
    client.TrackCollection Do processorFunc fuel serviceRootURL urlStr
      interval w
    = client.TrackCollection Do' processorFunc fuel serviceRootURL urlStr
        interval w.
Proof.
  intros Hsame fuel. induction fuel as [|fuel IH]; intros urlStr w.
  - reflexivity.
  - cbn [client.TrackCollection].
    destruct (String.eqb urlStr ""); [reflexivity|].
    rewrite !TrackCollection_turn_eq. cbv zeta.
    destruct (Hsame w (track_request (serviceRootURL ++ urlStr)%string))
      as [-> ->].
    destruct (processorFunc _ _) as [w2 [[nextLink deltaLink] | | msg]];
      try reflexivity.
    destruct (negb (String.eqb nextLink "")); [now rewrite IH|].
    destruct (negb (String.eqb deltaLink "")); [now rewrite IH | reflexivity].
Qed.

(** C3, amended.  A response is fatal, with a log made of the caller's
    description, the response status and the response body, where
    [ValidateStatusCode] is applied to it and its status code is not the
    expected one.  The poll loop applies no such check: what it does
    depends on the bodies of the GET responses only, not on their
    status. *)
Theorem C3_status_checked_only_by_ValidateStatusCode :
  (forall (resp : client.Response string) (statusCode : Z)
          (logFmt : unit -> string),
     (client.StatusCode resp = statusCode ->
      client.ValidateStatusCode resp statusCode logFmt = None) /\
     (client.StatusCode resp <> statusCode ->
      client.ValidateStatusCode resp statusCode logFmt
      = Some (logFmt tt ++ client.CRLF ++ "Server responded with: "
              ++ client.Status resp ++ client.CRLF ++ client.Body resp)%string))
  /\
  (forall (W B : Type)
          (Do Do' : W -> client.Request -> W * client.Response B)
          (processorFunc : W -> B -> W * client.call (string * string))
          (serviceRootURL : string) (interval : Z),
     (forall w req,
        fst (Do w req) = fst (Do' w req) /\
        client.Body (snd (Do w req)) = client.Body (snd (Do' w req))) ->
     forall fuel urlStr w,
       client.TrackCollection Do processorFunc fuel serviceRootURL urlStr
         interval w
       = client.TrackCollection Do' processorFunc fuel serviceRootURL urlStr
           interval w).
Proof.
  split.
  - intros resp statusCode logFmt. unfold client.ValidateStatusCode. split.
    + intros ->. now rewrite Z.eqb_refl.
    + intros Hne. apply Z.eqb_neq in Hne. now rewrite Hne.
  - intros W B Do Do' processorFunc serviceRootURL interval Hsame.
    now apply TrackCollection_status_blind.
Qed.

Lemma C3_witness :
  client.ValidateStatusCode version_response 200 version_logFmt
  = Some (version_logFmt tt ++ client.CRLF
          ++ "Server responded with: 503 Service Unavailable"
          ++ client.CRLF ++ "try later")%string /\
  client.TrackCollection failing_server processor 3
    "https://tm1/api/v1/" "TransactionLogEntries" 5 tt
  = client.TrackCollection ok_server processor 3
      "https://tm1/api/v1/" "TransactionLogEntries" 5 tt.
Proof.
  destruct C3_status_checked_only_by_ValidateStatusCode as [Hv Hblind].
  split.
  - apply (proj2 (Hv version_response 200%Z version_logFmt)). discriminate.
  - apply Hblind. intros w req. split; reflexivity.
Defined.

(* ================================================================== *)
(** * Further properties of the code                                   *)
(* ================================================================== *)

(** ** The parser on bodies that are not valid as a whole *)

Lemma members_lexemes_app (l : list (string * value)) (m : string * value)
    (post : list (string * value)) :
  members_lexemes (l ++ m :: post)
  = members_lexemes (l ++ [m])
    ++ flat_map (fun x => LComma :: member_lexemes x) post.
Proof.
  destruct l as [|a l]; cbn [app members_lexemes].
  - cbn [flat_map]. now rewrite app_nil_r.
  - rewrite !flat_map_app. cbn [flat_map]. rewrite app_nil_r.
    now rewrite <- !app_assoc.
Qed.

Lemma body_members (ms : list (string * value)) :
  body ms = LBrace :: members_lexemes ms ++ [RBrace].
Proof. unfold body. now rewrite lexemes_of_object. Qed.

Section Upto.

Import reviver.

Context {St : Type}.
Variable callback : TransactionLogContainer -> St -> St.

(** The member loop from the start of an object to the name of the
    member after the valid members [pre]. *)
Lemma object_loop_upto (pre : list (string * value)) (k : string) (v : value)
    (R : list lexeme) :
  valid_body pre = true ->
  forall f stack dl st,
    length (members_lexemes (pre ++ [(k, v)]) ++ R) < f ->
    exists f' dec,
      length (LColon :: lexemes_of v ++ R) < f' /\
      More dec = true /\
      Token_ dec = (mkDecoder (LColon :: lexemes_of v ++ R) tokenObjectColon
                      stack None, inl (Scalar (astring k))) /\
      object_loop callback f
        (mkDecoder (members_lexemes (pre ++ [(k, v)]) ++ R) tokenObjectStart
           stack None) dl st
      = object_loop callback (S f') dec (token_of pre dl)
          (deliver callback (map entry_of (collection pre)) st).
Proof.
  intros Hpre f stack dl st Hlen.
  destruct pre as [|[k0 v0] pre].
  - cbn [app members_lexemes flat_map] in *. rewrite app_nil_r in *.
    change (member_lexemes (k, v)) with (LString k :: LColon :: lexemes_of v)
      in *.
    rewrite <- !app_comm_cons in *.
    destruct f as [|f]; [cbn in Hlen; lia|].
    exists f, (mkDecoder (LString k :: LColon :: lexemes_of v ++ R)
                 tokenObjectStart stack None).
    repeat split.
    + cbn [length] in Hlen |- *. lia.
  - cbn [valid_body forallb] in Hpre. apply andb_prop in Hpre as [Hm Hms].
    cbn [app members_lexemes] in *.
    rewrite flat_map_app in *. cbn [flat_map] in *. rewrite app_nil_r in *.
    change (member_lexemes (k0, v0))
      with (LString k0 :: LColon :: lexemes_of v0) in *.
    change (member_lexemes (k, v)) with (LString k :: LColon :: lexemes_of v)
      in *.
    rewrite <- ?app_comm_cons, <- ?app_assoc, <- ?app_comm_cons in *.
    set (X := LComma :: LString k :: LColon :: lexemes_of v ++ R) in *.
    destruct f as [|f]; [cbn in Hlen; lia|].
    destruct (object_loop_member callback k0 v0 Hm f
                (mkDecoder
                   (LString k0 :: LColon :: lexemes_of v0 ++
                    flat_map (fun x => LComma :: member_lexemes x) pre ++ X)
                   tokenObjectStart stack None)
                (flat_map (fun x => LComma :: member_lexemes x) pre ++ X)
                stack dl st)
      as (f1 & Hf1 & Hstep).
    + reflexivity.
    + reflexivity.
    + cbn [length] in Hlen |- *. lia.
    + rewrite Hstep.
      destruct (object_loop_prefix callback pre Hms f1 X stack
                  (token_of [(k0, v0)] dl)
                  (deliver callback (map entry_of (elements_of (k0, v0))) st)
                  Hf1) as (f2 & Hf2 & Hrest).
      rewrite Hrest. destruct f2 as [|f2]; [lia|].
      exists f2, (mkDecoder X tokenObjectComma stack None).
      repeat split.
      * subst X. cbn [length] in Hf2 |- *. lia.
      * unfold collection. cbn [flat_map]. rewrite map_app, deliver_app.
        reflexivity.
Qed.

(** The member loop over all the members of an object, up to what ends
    the loop. *)
Lemma object_loop_members (ms : list (string * value)) (X : list lexeme) :
  valid_body ms = true ->
  (forall ts stack, More (mkDecoder X ts stack None) = false) ->
  forall f stack dl st,
    length (members_lexemes ms ++ X) < f ->
    exists ts,
      (ts = tokenObjectStart \/ ts = tokenObjectComma) /\
      object_loop callback f
        (mkDecoder (members_lexemes ms ++ X) tokenObjectStart stack None) dl st
      = Some (mkDecoder X ts stack None, token_of ms dl,
              deliver callback (map entry_of (collection ms)) st, None).
Proof.
  intros Hok HX f stack dl st Hlen.
  destruct ms as [|[k v] ms].
  - exists tokenObjectStart. split; [now left|].
    destruct f as [|f]; [cbn in Hlen; lia|].
    rewrite object_loop_unfold. cbn [members_lexemes app]. now rewrite HX.
  - exists tokenObjectComma. split; [now right|].
    cbn [valid_body forallb] in Hok. apply andb_prop in Hok as [Hm Hms].
    cbn [members_lexemes] in *.
    change (member_lexemes (k, v)) with (LString k :: LColon :: lexemes_of v)
      in *.
    rewrite <- ?app_comm_cons, <- ?app_assoc in *.
    destruct f as [|f]; [cbn in Hlen; lia|].
    destruct (object_loop_member callback k v Hm f
                (mkDecoder
                   (LString k :: LColon :: lexemes_of v ++
                    flat_map (fun x => LComma :: member_lexemes x) ms ++ X)
                   tokenObjectStart stack None)
                (flat_map (fun x => LComma :: member_lexemes x) ms ++ X)
                stack dl st)
      as (f1 & Hf1 & Hstep).
    + reflexivity.
    + reflexivity.
    + cbn [length] in Hlen |- *. lia.
    + rewrite Hstep.
      destruct (object_loop_prefix callback ms Hms f1 X stack
                  (token_of [(k, v)] dl)
                  (deliver callback (map entry_of (elements_of (k, v))) st)
                  Hf1) as (f2 & Hf2 & Hrest).
      rewrite Hrest. destruct f2 as [|f2]; [lia|].
      rewrite object_loop_unfold, HX.
      unfold collection. cbn [flat_map]. rewrite map_app, deliver_app.
      reflexivity.
Qed.

End Upto.

Section BadMembers.

Import reviver.

Context {St : Type}.
Variable callback : TransactionLogContainer -> St -> St.

Lemma ParseTransactionLogs_object (M : list lexeme) (st : St) :
  ParseTransactionLogs callback (NewJSONReviver (LBrace :: M)) st
  = after_members callback
      (object_loop callback (S (S (length M)))
         (mkDecoder M tokenObjectStart [tokenTopValue] None) "" st).
Proof. reflexivity. Qed.

(** The parse of a body up to the name of the member that follows the
    valid members [pre]. *)
Lemma ParseTransactionLogs_upto (pre : list (string * value)) (k : string)
    (v : value) (post : list (string * value)) (rest : list lexeme) (st : St) :
  valid_body pre = true ->
  exists f dec,
    length (LColon :: lexemes_of v ++
            flat_map (fun x => LComma :: member_lexemes x) post ++
            RBrace :: rest) < f /\
    More dec = true /\
    Token_ dec = (mkDecoder (LColon :: lexemes_of v ++
                    flat_map (fun x => LComma :: member_lexemes x) post ++
                    RBrace :: rest) tokenObjectColon [tokenTopValue] None,
                  inl (Scalar (astring k))) /\
    ParseTransactionLogs callback
      (NewJSONReviver (body (pre ++ (k, v) :: post) ++ rest)) st
    = after_members callback
        (object_loop callback (S f) dec (token_of pre "")
           (deliver callback (map entry_of (collection pre)) st)).
Proof.
  intros Hpre. rewrite body_members, members_lexemes_app.
  rewrite <- app_comm_cons, <- !app_assoc. cbn [app].
  rewrite ParseTransactionLogs_object.
  set (R := flat_map (fun x => LComma :: member_lexemes x) post
            ++ RBrace :: rest).
  destruct (object_loop_upto callback pre k v R Hpre
              (S (S (length (members_lexemes (pre ++ [(k, v)]) ++ R))))
              [tokenTopValue] "" st) as (f & dec & Hf & Hmore & Htok & Hrun);
    [lia|].
  exists f, dec. rewrite Hrun. auto.
Qed.

Lemma object_loop_not_array (v : value) (f : nat) (dec : Decoder)
    (R : list lexeme) stack dl st :
  is_array v = false ->
  More dec = true ->
  Token_ dec = (mkDecoder (LColon :: lexemes_of v ++ R) tokenObjectColon stack
                  None, inl (Scalar (astring "value"))) ->
  exists dec',
    object_loop callback (S f) dec dl st
    = Some (dec', dl, st, Some (no_array_error v)).
Proof.
  intros Hv Hmore Htok. rewrite object_loop_unfold, Hmore, Htok.
  cbn [is_string String.eqb Ascii.eqb Bool.eqb andb negb].
  destruct v as [| b | n | s | es | ms]; try discriminate Hv.
  1-2, 4: eexists; reflexivity.
  - cbn [no_array_error]. destruct (in_float64 n) eqn:Hn.
    + rewrite (Token_scalar (JNumber n)) by exact Hn.
      eexists. reflexivity.
    + cbn [lexemes_of app].
      rewrite Token_number_out_of_range by exact Hn.
      eexists. reflexivity.
  - rewrite lexemes_of_object. eexists. reflexivity.
Qed.

Lemma unrelated_key (k : string) :
  unrelated k = true ->
  String.eqb k "value" = false /\ String.eqb k "@odata.deltaLink" = false.
Proof.
  unfold unrelated. intros H. apply andb_prop in H as [H1 H2].
  now apply negb_true_iff in H1, H2.
Qed.

Lemma object_loop_enter_object (k : string) (inner : list (string * value))
    (f : nat) (dec : Decoder) (R : list lexeme) stack dl st :
  unrelated k = true ->
  valid_body inner = true ->
  More dec = true ->
  Token_ dec = (mkDecoder (LColon :: lexemes_of (JObject inner) ++ R)
                  tokenObjectColon stack None, inl (Scalar (astring k))) ->
  length (LColon :: lexemes_of (JObject inner) ++ R) < f ->
  exists ts,
    (ts = tokenObjectStart \/ ts = tokenObjectComma) /\
    object_loop callback (S f) dec dl st
    = Some (mkDecoder (RBrace :: R) ts (tokenObjectValue :: stack) None,
            token_of inner dl,
            deliver callback (map entry_of (collection inner)) st, None).
Proof.
  intros Hk Hin Hmore Htok Hlen.
  apply unrelated_key in Hk as [Hk1 Hk2].
  rewrite object_loop_unfold, Hmore, Htok. cbn [is_string].
  rewrite Hk1, Hk2. cbn [negb].
  destruct f as [|f]; [cbn in Hlen; lia|].
  rewrite object_loop_unfold. change (More _) with true. cbv iota.
  rewrite lexemes_of_object in *. fold (members_lexemes inner) in *.
  rewrite <- ?app_comm_cons, <- ?app_assoc in *. cbn [app] in *.
  unfold Token_ at 1. cbn [buf tokState tokenStack err Token_from
                            tokenValueAllowed is_string negb].
  apply object_loop_members.
  - exact Hin.
  - reflexivity.
  - cbn [length] in Hlen. lia.
Qed.

Lemma Token_element (v : value) (b : list lexeme) stack :
  scalar v = true ->
  Token_ (mkDecoder (LComma :: lexemes_of v ++ b) tokenArrayComma stack None)
  = (mkDecoder b tokenArrayComma stack None,
     inl (Scalar (fst (valueInterface v)))).
Proof.
  destruct v; intros Hs; try discriminate Hs; try reflexivity.
  cbn [scalar] in Hs. unfold Token_.
  cbn [buf tokState tokenStack err Token_from lexemes_of app].
  unfold Decode.
  cbn [err tokenPrepareForDecode tokState peek buf advance tl tokenStack
       tokenValueAllowed negb readValue scan scan_step beginValue endValue].
  cbn [unmarshal_any valueInterface]. unfold convertNumber.
  rewrite Hs. reflexivity.
Qed.

Lemma Token_first_element (v : value) (b : list lexeme) stack :
  scalar v = true ->
  Token_ (mkDecoder (lexemes_of v ++ b) tokenArrayStart stack None)
  = (mkDecoder b tokenArrayComma stack None,
     inl (Scalar (fst (valueInterface v)))).
Proof.
  destruct v; intros Hs; try discriminate Hs; try reflexivity.
  cbn [scalar] in Hs. unfold Token_.
  cbn [buf tokState tokenStack err Token_from lexemes_of app].
  unfold Decode.
  cbn [err tokenPrepareForDecode tokState peek buf advance tl tokenStack
       tokenValueAllowed negb readValue scan scan_step beginValue endValue].
  cbn [unmarshal_any valueInterface]. unfold convertNumber.
  rewrite Hs. reflexivity.
Qed.

Lemma passed_over_token (v : value) :
  passed_over v = true ->
  scalar v = true /\
  is_string (Scalar (fst (valueInterface v))) "value" = false /\
  is_string (Scalar (fst (valueInterface v))) "@odata.deltaLink" = false.
Proof.
  unfold passed_over. intros H.
  apply andb_prop in H as [H H3]. apply andb_prop in H as [H1 H2].
  apply negb_true_iff in H2.
  split; [exact H1|]. split; [now apply scalar_not_value|].
  destruct v; try discriminate H1; try reflexivity.
  - cbn [valueInterface]. unfold convertNumber. now destruct (in_float64 n).
  - now apply negb_true_iff in H3.
Qed.

Lemma object_loop_scalars (vs : list value) :
  forallb passed_over vs = true ->
  forall f X stack dl st,
    length (flat_map (fun x => LComma :: lexemes_of x) vs ++ X) < f ->
    exists f',
      length X < f' /\
      object_loop callback f
        (mkDecoder (flat_map (fun x => LComma :: lexemes_of x) vs ++ X)
           tokenArrayComma stack None) dl st
      = object_loop callback f' (mkDecoder X tokenArrayComma stack None) dl st.
Proof.
  induction vs as [|v vs IH]; intros Hvs f X stack dl st Hlen.
  - exists f. split; [exact Hlen | reflexivity].
  - cbn [forallb] in Hvs. apply andb_prop in Hvs as [Hv Hvs].
    apply passed_over_token in Hv as (Hs & Hval & Hdl).
    destruct f as [|f]; [cbn in Hlen; lia|].
    cbn [flat_map] in *. rewrite <- !app_comm_cons, <- app_assoc in *.
    rewrite object_loop_unfold. change (More _) with true. cbv iota.
    rewrite (Token_element v _ stack Hs), Hval, Hdl. cbn [negb].
    apply IH; [exact Hvs|].
    cbn [length] in Hlen. rewrite length_app in Hlen. lia.
Qed.

Lemma object_loop_enter_array (k : string) (vs : list value)
    (f : nat) (dec : Decoder) (R : list lexeme) stack dl st :
  unrelated k = true ->
  forallb passed_over vs = true ->
  More dec = true ->
  Token_ dec = (mkDecoder (LColon :: lexemes_of (JArray vs) ++ R)
                  tokenObjectColon stack None, inl (Scalar (astring k))) ->
  length (LColon :: lexemes_of (JArray vs) ++ R) < f ->
  exists ts,
    (ts = tokenArrayStart \/ ts = tokenArrayComma) /\
    object_loop callback (S f) dec dl st
    = Some (mkDecoder (RBracket :: R) ts (tokenObjectValue :: stack) None,
            dl, st, None).
Proof.
  intros Hk Hvs Hmore Htok Hlen.
  apply unrelated_key in Hk as [Hk1 Hk2].
  rewrite object_loop_unfold, Hmore, Htok. cbn [is_string].
  rewrite Hk1, Hk2. cbn [negb].
  destruct f as [|f]; [cbn in Hlen; lia|].
  rewrite object_loop_unfold. change (More _) with true. cbv iota.
  rewrite Token_array_open. cbn [is_string negb].
  rewrite lexemes_of_array in Hlen. fold (elements_lexemes vs) in Hlen.
  rewrite <- ?app_comm_cons, <- ?app_assoc in Hlen. cbn [app length] in Hlen.
  destruct vs as [|v vs].
  - exists tokenArrayStart. split; [now left|].
    destruct f as [|f]; [cbn in Hlen; lia|]. reflexivity.
  - exists tokenArrayComma. split; [now right|].
    cbn [forallb] in Hvs. apply andb_prop in Hvs as [Hv Hvs].
    apply passed_over_token in Hv as (Hs & Hval & Hdl).
    cbn [elements_lexemes] in *. rewrite <- app_assoc in *.
    destruct f as [|f]; [cbn in Hlen; lia|].
    rewrite object_loop_unfold, More_value.
    rewrite (Token_first_element v _ _ Hs), Hval, Hdl. cbn [negb].
    destruct (object_loop_scalars vs Hvs f (RBracket :: R)
                (tokenObjectValue :: stack) dl st) as (f' & Hf' & Hrun).
    { rewrite length_app in Hlen.
      destruct (lexemes_of_head v) as (c & l & Hc & _). rewrite Hc in Hlen.
      cbn [length] in Hlen. lia. }
    rewrite Hrun. destruct f' as [|f']; [cbn in Hf'; lia|]. reflexivity.
Qed.

End BadMembers.

Section WholeBodies.

Import reviver.

Context {St : Type}.
Variable callback : TransactionLogContainer -> St -> St.

Lemma ParseTransactionLogs_not_array (pre : list (string * value)) (v : value)
    (post : list (string * value)) (rest : list lexeme) (st : St) :
  valid_body pre = true ->
  is_array v = false ->
  exists r',
    ParseTransactionLogs callback
      (NewJSONReviver (body (pre ++ ("value", v) :: post) ++ rest)) st
    = Some (r', deliver callback (map entry_of (collection pre)) st,
            Some (no_array_error v)).
Proof.
  intros Hpre Hv.
  destruct (ParseTransactionLogs_upto callback pre "value" v post rest st Hpre)
    as (f & dec & Hf & Hmore & Htok & ->).
  destruct (object_loop_not_array callback v f dec _ _ (token_of pre "")
              (deliver callback (map entry_of (collection pre)) st)
              Hv Hmore Htok) as (dec' & ->).
  cbn [after_members]. eauto.
Qed.

Lemma ParseTransactionLogs_nested_object (pre : list (string * value))
    (k : string) (inner post : list (string * value)) (rest : list lexeme)
    (st : St) :
  valid_body pre = true ->
  unrelated k = true ->
  valid_body inner = true ->
  exists r',
    ParseTransactionLogs callback
      (NewJSONReviver (body (pre ++ (k, JObject inner) :: post) ++ rest)) st
    = Some (r',
            callback (mkContainer None (token_of (pre ++ inner) ""))
              (deliver callback (map entry_of (collection (pre ++ inner))) st),
            None).
Proof.
  intros Hpre Hk Hin.
  destruct (ParseTransactionLogs_upto callback pre k (JObject inner) post rest
              st Hpre) as (f & dec & Hf & Hmore & Htok & ->).
  destruct (object_loop_enter_object callback k inner f dec _ _
              (token_of pre "")
              (deliver callback (map entry_of (collection pre)) st)
              Hk Hin Hmore Htok Hf) as (ts & Hts & ->).
  cbn [after_members].
  assert (HT : Token_ (mkDecoder
                 (RBrace :: flat_map (fun x => LComma :: member_lexemes x) post
                  ++ RBrace :: rest) ts [tokenObjectValue; tokenTopValue] None)
               = (mkDecoder (flat_map (fun x => LComma :: member_lexemes x) post
                             ++ RBrace :: rest) tokenObjectComma
                    [tokenTopValue] None, inl (Delim "}"))).
  { destruct Hts as [-> | ->]; reflexivity. }
  rewrite HT. cbn [is_delim Ascii.eqb Bool.eqb andb negb].
  eexists. unfold collection.
  rewrite token_of_app, flat_map_app, map_app, deliver_app. reflexivity.
Qed.

Lemma ParseTransactionLogs_nested_array (pre : list (string * value))
    (k : string) (vs : list value) (post : list (string * value))
    (rest : list lexeme) (st : St) :
  valid_body pre = true ->
  unrelated k = true ->
  forallb passed_over vs = true ->
  exists r',
    ParseTransactionLogs callback
      (NewJSONReviver (body (pre ++ (k, JArray vs) :: post) ++ rest)) st
    = Some (r', deliver callback (map entry_of (collection pre)) st,
            Some object_end_missing).
Proof.
  intros Hpre Hk Hvs.
  destruct (ParseTransactionLogs_upto callback pre k (JArray vs) post rest
              st Hpre) as (f & dec & Hf & Hmore & Htok & ->).
  destruct (object_loop_enter_array callback k vs f dec _ _
              (token_of pre "")
              (deliver callback (map entry_of (collection pre)) st)
              Hk Hvs Hmore Htok Hf) as (ts & Hts & ->).
  cbn [after_members].
  rewrite (Token_array_close _ ts [tokenTopValue] Hts).
  cbn [is_delim Ascii.eqb Bool.eqb andb negb]. eauto.
Qed.

(** A valid body followed by anything, and a valid body cut off before
    its closing brace. *)
Lemma ParseTransactionLogs_trailing (ms : list (string * value))
    (rest : list lexeme) (st : St) :
  valid_body ms = true ->
  ParseTransactionLogs callback (NewJSONReviver (body ms ++ rest)) st
  = Some (mkReviver (mkDecoder rest tokenTopValue [] None),
          callback (mkContainer None (token_of ms ""))
            (deliver callback (map entry_of (collection ms)) st),
          None).
Proof.
  intros Hok. rewrite body_members.
  rewrite <- app_comm_cons, <- !app_assoc. cbn [app].
  rewrite ParseTransactionLogs_object.
  destruct (object_loop_members callback ms (RBrace :: rest) Hok
              (fun _ _ => eq_refl)
              (S (S (length (members_lexemes ms ++ RBrace :: rest))))
              [tokenTopValue] "" st) as (ts & Hts & ->); [lia|].
  cbn [after_members]. destruct Hts as [-> | ->]; reflexivity.
Qed.

Lemma ParseTransactionLogs_truncated (ms : list (string * value)) (st : St) :
  valid_body ms = true ->
  exists r',
    ParseTransactionLogs callback (NewJSONReviver (removelast (body ms))) st
    = Some (r', deliver callback (map entry_of (collection ms)) st,
            Some io_EOF).
Proof.
  intros Hok. rewrite body_members.
  rewrite app_comm_cons, removelast_last.
  rewrite ParseTransactionLogs_object.
  rewrite <- (app_nil_r (members_lexemes ms)).
  destruct (object_loop_members callback ms [] Hok
              (fun _ _ => eq_refl)
              (S (S (length (members_lexemes ms ++ []))))
              [tokenTopValue] "" st) as (ts & Hts & ->); [lia|].
  cbn [after_members]. destruct Hts as [-> | ->]; eexists; reflexivity.
Qed.

End WholeBodies.

Section BadMembers0.

Context {St : Type}.
Variable callback : option TransactionLogEntry -> bool -> St -> St.

Lemma object_loop0_upto (pre : list (string * value)) (k : string) (v : value)
    (R : list lexeme) :
  valid_body0 pre = true ->
  forall f stack st,
    length (members_lexemes (pre ++ [(k, v)]) ++ R) < f ->
    exists f' dec,
      length (LColon :: lexemes_of v ++ R) < f' /\
      More dec = true /\
      Token_ dec = (mkDecoder (LColon :: lexemes_of v ++ R) tokenObjectColon
                      stack None, inl (Scalar (astring k))) /\
      reviver0.object_loop callback f
        (mkDecoder (members_lexemes (pre ++ [(k, v)]) ++ R) tokenObjectStart
           stack None) st
      = reviver0.object_loop callback (S f') dec
          (deliver0 callback (map entry_of (collection pre)) st).
Proof.
  intros Hpre f stack st Hlen.
  destruct pre as [|[k0 v0] pre].
  - cbn [app members_lexemes flat_map] in *. rewrite app_nil_r in *.
    change (member_lexemes (k, v)) with (LString k :: LColon :: lexemes_of v)
      in *.
    rewrite <- !app_comm_cons in *.
    destruct f as [|f]; [cbn in Hlen; lia|].
    exists f, (mkDecoder (LString k :: LColon :: lexemes_of v ++ R)
                 tokenObjectStart stack None).
    repeat split.
    + cbn [length] in Hlen |- *. lia.
  - cbn [valid_body0 forallb] in Hpre. apply andb_prop in Hpre as [Hm Hms].
    cbn [app members_lexemes] in *.
    rewrite flat_map_app in *. cbn [flat_map] in *. rewrite app_nil_r in *.
    change (member_lexemes (k0, v0))
      with (LString k0 :: LColon :: lexemes_of v0) in *.
    change (member_lexemes (k, v)) with (LString k :: LColon :: lexemes_of v)
      in *.
    rewrite <- ?app_comm_cons, <- ?app_assoc, <- ?app_comm_cons in *.
    set (X := LComma :: LString k :: LColon :: lexemes_of v ++ R) in *.
    destruct f as [|f]; [cbn in Hlen; lia|].
    destruct (object_loop0_member callback k0 v0 Hm f
                (mkDecoder
                   (LString k0 :: LColon :: lexemes_of v0 ++
                    flat_map (fun x => LComma :: member_lexemes x) pre ++ X)
                   tokenObjectStart stack None)
                (flat_map (fun x => LComma :: member_lexemes x) pre ++ X)
                stack st)
      as (f1 & Hf1 & Hstep).
    + reflexivity.
    + reflexivity.
    + cbn [length] in Hlen |- *. lia.
    + rewrite Hstep.
      destruct (object_loop0_prefix callback pre Hms f1 X stack
                  (deliver0 callback (map entry_of (elements_of (k0, v0))) st)
                  Hf1) as (f2 & Hf2 & Hrest).
      rewrite Hrest. destruct f2 as [|f2]; [lia|].
      exists f2, (mkDecoder X tokenObjectComma stack None).
      repeat split.
      * subst X. cbn [length] in Hf2 |- *. lia.
      * unfold collection. cbn [flat_map]. rewrite map_app, deliver0_app.
        reflexivity.
Qed.

Lemma object_loop0_members (ms : list (string * value)) (X : list lexeme) :
  valid_body0 ms = true ->
  (forall ts stack, More (mkDecoder X ts stack None) = false) ->
  forall f stack st,
    length (members_lexemes ms ++ X) < f ->
    exists ts,
      (ts = tokenObjectStart \/ ts = tokenObjectComma) /\
      reviver0.object_loop callback f
        (mkDecoder (members_lexemes ms ++ X) tokenObjectStart stack None) st
      = Some (mkDecoder X ts stack None,
              deliver0 callback (map entry_of (collection ms)) st, None).
Proof.
  intros Hok HX f stack st Hlen.
  destruct ms as [|[k v] ms].
  - exists tokenObjectStart. split; [now left|].
    destruct f as [|f]; [cbn in Hlen; lia|].
    rewrite object_loop0_unfold. cbn [members_lexemes app]. now rewrite HX.
  - exists tokenObjectComma. split; [now right|].
    cbn [valid_body0 forallb] in Hok. apply andb_prop in Hok as [Hm Hms].
    cbn [members_lexemes] in *.
    change (member_lexemes (k, v)) with (LString k :: LColon :: lexemes_of v)
      in *.
    rewrite <- ?app_comm_cons, <- ?app_assoc in *.
    destruct f as [|f]; [cbn in Hlen; lia|].
    destruct (object_loop0_member callback k v Hm f
                (mkDecoder
                   (LString k :: LColon :: lexemes_of v ++
                    flat_map (fun x => LComma :: member_lexemes x) ms ++ X)
                   tokenObjectStart stack None)
                (flat_map (fun x => LComma :: member_lexemes x) ms ++ X)
                stack st)
      as (f1 & Hf1 & Hstep).
    + reflexivity.
    + reflexivity.
    + cbn [length] in Hlen |- *. lia.
    + rewrite Hstep.
      destruct (object_loop0_prefix callback ms Hms f1 X stack
                  (deliver0 callback (map entry_of (elements_of (k, v))) st)
                  Hf1) as (f2 & Hf2 & Hrest).
      rewrite Hrest. destruct f2 as [|f2]; [lia|].
      rewrite object_loop0_unfold, HX.
      unfold collection. cbn [flat_map]. rewrite map_app, deliver0_app.
      reflexivity.
Qed.

Lemma ParseTransactionLogs0_object (M : list lexeme) (st : St) :
  reviver0.ParseTransactionLogs callback
    (reviver0.NewJSONReviver (LBrace :: M)) st
  = after_members0 callback
      (reviver0.object_loop callback (S (S (length M)))
         (mkDecoder M tokenObjectStart [tokenTopValue] None) st).
Proof. reflexivity. Qed.

Lemma ParseTransactionLogs0_upto (pre : list (string * value)) (k : string)
    (v : value) (post : list (string * value)) (rest : list lexeme) (st : St) :
  valid_body0 pre = true ->
  exists f dec,
    length (LColon :: lexemes_of v ++
            flat_map (fun x => LComma :: member_lexemes x) post ++
            RBrace :: rest) < f /\
    More dec = true /\
    Token_ dec = (mkDecoder (LColon :: lexemes_of v ++
                    flat_map (fun x => LComma :: member_lexemes x) post ++
                    RBrace :: rest) tokenObjectColon [tokenTopValue] None,
                  inl (Scalar (astring k))) /\
    reviver0.ParseTransactionLogs callback
      (reviver0.NewJSONReviver (body (pre ++ (k, v) :: post) ++ rest)) st
    = after_members0 callback
        (reviver0.object_loop callback (S f) dec
           (deliver0 callback (map entry_of (collection pre)) st)).
Proof.
  intros Hpre. rewrite body_members, members_lexemes_app.
  rewrite <- app_comm_cons, <- !app_assoc. cbn [app].
  rewrite ParseTransactionLogs0_object.
  set (R := flat_map (fun x => LComma :: member_lexemes x) post
            ++ RBrace :: rest).
  destruct (object_loop0_upto pre k v R Hpre
              (S (S (length (members_lexemes (pre ++ [(k, v)]) ++ R))))
              [tokenTopValue] st) as (f & dec & Hf & Hmore & Htok & Hrun);
    [lia|].
  exists f, dec. rewrite Hrun. auto.
Qed.

Lemma object_loop0_not_array (v : value) (f : nat) (dec : Decoder)
    (R : list lexeme) stack st :
  is_array v = false ->
  More dec = true ->
  Token_ dec = (mkDecoder (LColon :: lexemes_of v ++ R) tokenObjectColon stack
                  None, inl (Scalar (astring "value"))) ->
  exists dec',
    reviver0.object_loop callback (S f) dec st
    = Some (dec', st, Some (no_array_error v)).
Proof.
  intros Hv Hmore Htok. rewrite object_loop0_unfold, Hmore, Htok.
  cbn [is_string String.eqb Ascii.eqb Bool.eqb andb negb].
  destruct v as [| b | n | s | es | ms]; try discriminate Hv.
  1-2, 4: eexists; reflexivity.
  - cbn [no_array_error]. destruct (in_float64 n) eqn:Hn.
    + rewrite (Token_scalar (JNumber n)) by exact Hn.
      eexists. reflexivity.
    + cbn [lexemes_of app].
      rewrite Token_number_out_of_range by exact Hn.
      eexists. reflexivity.
  - rewrite lexemes_of_object. eexists. reflexivity.
Qed.

Lemma object_loop0_enter_object (k : string) (inner : list (string * value))
    (f : nat) (dec : Decoder) (R : list lexeme) stack st :
  String.eqb k "value" = false ->
  valid_body0 inner = true ->
  More dec = true ->
  Token_ dec = (mkDecoder (LColon :: lexemes_of (JObject inner) ++ R)
                  tokenObjectColon stack None, inl (Scalar (astring k))) ->
  length (LColon :: lexemes_of (JObject inner) ++ R) < f ->
  exists ts,
    (ts = tokenObjectStart \/ ts = tokenObjectComma) /\
    reviver0.object_loop callback (S f) dec st
    = Some (mkDecoder (RBrace :: R) ts (tokenObjectValue :: stack) None,
            deliver0 callback (map entry_of (collection inner)) st, None).
Proof.
  intros Hk Hin Hmore Htok Hlen.
  rewrite object_loop0_unfold, Hmore, Htok. cbn [is_string].
  rewrite Hk. cbn [negb].
  destruct f as [|f]; [cbn in Hlen; lia|].
  rewrite object_loop0_unfold. change (More _) with true. cbv iota.
  rewrite lexemes_of_object in *. fold (members_lexemes inner) in *.
  rewrite <- ?app_comm_cons, <- ?app_assoc in *. cbn [app] in *.
  unfold Token_ at 1. cbn [buf tokState tokenStack err Token_from
                            tokenValueAllowed is_string negb].
  apply object_loop0_members.
  - exact Hin.
  - reflexivity.
  - cbn [length] in Hlen. lia.
Qed.

Lemma passed_over0_token (v : value) :
  passed_over0 v = true ->
  scalar v = true /\
  is_string (Scalar (fst (valueInterface v))) "value" = false.
Proof.
  unfold passed_over0. intros H. apply andb_prop in H as [H1 H2].
  apply negb_true_iff in H2.
  split; [exact H1 | now apply scalar_not_value].
Qed.

Lemma object_loop0_scalars (vs : list value) :
  forallb passed_over0 vs = true ->
  forall f X stack st,
    length (flat_map (fun x => LComma :: lexemes_of x) vs ++ X) < f ->
    exists f',
      length X < f' /\
      reviver0.object_loop callback f
        (mkDecoder (flat_map (fun x => LComma :: lexemes_of x) vs ++ X)
           tokenArrayComma stack None) st
      = reviver0.object_loop callback f'
          (mkDecoder X tokenArrayComma stack None) st.
Proof.
  induction vs as [|v vs IH]; intros Hvs f X stack st Hlen.
  - exists f. split; [exact Hlen | reflexivity].
  - cbn [forallb] in Hvs. apply andb_prop in Hvs as [Hv Hvs].
    apply passed_over0_token in Hv as (Hs & Hval).
    destruct f as [|f]; [cbn in Hlen; lia|].
    cbn [flat_map] in *. rewrite <- !app_comm_cons, <- app_assoc in *.
    rewrite object_loop0_unfold. change (More _) with true. cbv iota.
    rewrite (Token_element v _ stack Hs), Hval. cbn [negb].
    apply IH; [exact Hvs|].
    cbn [length] in Hlen. rewrite length_app in Hlen. lia.
Qed.

Lemma object_loop0_enter_array (k : string) (vs : list value)
    (f : nat) (dec : Decoder) (R : list lexeme) stack st :
  String.eqb k "value" = false ->
  forallb passed_over0 vs = true ->
  More dec = true ->
  Token_ dec = (mkDecoder (LColon :: lexemes_of (JArray vs) ++ R)
                  tokenObjectColon stack None, inl (Scalar (astring k))) ->
  length (LColon :: lexemes_of (JArray vs) ++ R) < f ->
  exists ts,
    (ts = tokenArrayStart \/ ts = tokenArrayComma) /\
    reviver0.object_loop callback (S f) dec st
    = Some (mkDecoder (RBracket :: R) ts (tokenObjectValue :: stack) None,
            st, None).
Proof.
  intros Hk Hvs Hmore Htok Hlen.
  rewrite object_loop0_unfold, Hmore, Htok. cbn [is_string].
  rewrite Hk. cbn [negb].
  destruct f as [|f]; [cbn in Hlen; lia|].
  rewrite object_loop0_unfold. change (More _) with true. cbv iota.
  rewrite Token_array_open. cbn [is_string negb].
  rewrite lexemes_of_array in Hlen. fold (elements_lexemes vs) in Hlen.
  rewrite <- ?app_comm_cons, <- ?app_assoc in Hlen. cbn [app length] in Hlen.
  destruct vs as [|v vs].
  - exists tokenArrayStart. split; [now left|].
    destruct f as [|f]; [cbn in Hlen; lia|]. reflexivity.
  - exists tokenArrayComma. split; [now right|].
    cbn [forallb] in Hvs. apply andb_prop in Hvs as [Hv Hvs].
    apply passed_over0_token in Hv as (Hs & Hval).
    cbn [elements_lexemes] in *. rewrite <- app_assoc in *.
    destruct f as [|f]; [cbn in Hlen; lia|].
    rewrite object_loop0_unfold, More_value.
    rewrite (Token_first_element v _ _ Hs), Hval. cbn [negb].
    destruct (object_loop0_scalars vs Hvs f (RBracket :: R)
                (tokenObjectValue :: stack) st) as (f' & Hf' & Hrun).
    { rewrite length_app in Hlen.
      destruct (lexemes_of_head v) as (c & l & Hc & _). rewrite Hc in Hlen.
      cbn [length] in Hlen. lia. }
    rewrite Hrun. destruct f' as [|f']; [cbn in Hf'; lia|]. reflexivity.
Qed.

Lemma ParseTransactionLogs0_not_array (pre : list (string * value)) (v : value)
    (post : list (string * value)) (rest : list lexeme) (st : St) :
  valid_body0 pre = true ->
  is_array v = false ->
  exists r',
    reviver0.ParseTransactionLogs callback
      (reviver0.NewJSONReviver (body (pre ++ ("value", v) :: post) ++ rest)) st
    = Some (r', deliver0 callback (map entry_of (collection pre)) st,
            Some (no_array_error v)).
Proof.
  intros Hpre Hv.
  destruct (ParseTransactionLogs0_upto pre "value" v post rest st Hpre)
    as (f & dec & Hf & Hmore & Htok & ->).
  destruct (object_loop0_not_array v f dec _ _
              (deliver0 callback (map entry_of (collection pre)) st)
              Hv Hmore Htok) as (dec' & ->).
  cbn [after_members0]. eauto.
Qed.

Lemma ParseTransactionLogs0_nested_object (pre : list (string * value))
    (k : string) (inner post : list (string * value)) (rest : list lexeme)
    (st : St) :
  valid_body0 pre = true ->
  String.eqb k "value" = false ->
  valid_body0 inner = true ->
  exists r',
    reviver0.ParseTransactionLogs callback
      (reviver0.NewJSONReviver
         (body (pre ++ (k, JObject inner) :: post) ++ rest)) st
    = Some (r',
            callback None true
              (deliver0 callback (map entry_of (collection (pre ++ inner))) st),
            None).
Proof.
  intros Hpre Hk Hin.
  destruct (ParseTransactionLogs0_upto pre k (JObject inner) post rest
              st Hpre) as (f & dec & Hf & Hmore & Htok & ->).
  destruct (object_loop0_enter_object k inner f dec _ _
              (deliver0 callback (map entry_of (collection pre)) st)
              Hk Hin Hmore Htok Hf) as (ts & Hts & ->).
  cbn [after_members0]. eexists. unfold collection.
  rewrite flat_map_app, map_app, deliver0_app. reflexivity.
Qed.

Lemma ParseTransactionLogs0_nested_array (pre : list (string * value))
    (k : string) (vs : list value) (post : list (string * value))
    (rest : list lexeme) (st : St) :
  valid_body0 pre = true ->
  String.eqb k "value" = false ->
  forallb passed_over0 vs = true ->
  exists r',
    reviver0.ParseTransactionLogs callback
      (reviver0.NewJSONReviver
         (body (pre ++ (k, JArray vs) :: post) ++ rest)) st
    = Some (r',
            callback None true
              (deliver0 callback (map entry_of (collection pre)) st),
            None).
Proof.
  intros Hpre Hk Hvs.
  destruct (ParseTransactionLogs0_upto pre k (JArray vs) post rest
              st Hpre) as (f & dec & Hf & Hmore & Htok & ->).
  destruct (object_loop0_enter_array k vs f dec _ _
              (deliver0 callback (map entry_of (collection pre)) st)
              Hk Hvs Hmore Htok Hf) as (ts & Hts & ->).
  cbn [after_members0]. eauto.
Qed.

Lemma ParseTransactionLogs0_truncated (ms : list (string * value)) (st : St) :
  valid_body0 ms = true ->
  exists r',
    reviver0.ParseTransactionLogs callback
      (reviver0.NewJSONReviver (removelast (body ms))) st
    = Some (r',
            callback None true
              (deliver0 callback (map entry_of (collection ms)) st),
            None).
Proof.
  intros Hok. rewrite body_members.
  rewrite app_comm_cons, removelast_last.
  rewrite ParseTransactionLogs0_object.
  rewrite <- (app_nil_r (members_lexemes ms)).
  destruct (object_loop0_members ms [] Hok
              (fun _ _ => eq_refl)
              (S (S (length (members_lexemes ms ++ []))))
              [tokenTopValue] st) as (ts & Hts & ->); [lia|].
  cbn [after_members0]. eauto.
Qed.

Lemma ParseTransactionLogs0_trailing (ms : list (string * value))
    (rest : list lexeme) (st : St) :
  valid_body0 ms = true ->
  exists r',
    reviver0.ParseTransactionLogs callback
      (reviver0.NewJSONReviver (body ms ++ rest)) st
    = Some (r',
            callback None true
              (deliver0 callback (map entry_of (collection ms)) st),
            None).
Proof.
  intros Hok. rewrite body_members.
  rewrite <- app_comm_cons, <- !app_assoc. cbn [app].
  rewrite ParseTransactionLogs0_object.
  destruct (object_loop0_members ms (RBrace :: rest) Hok
              (fun _ _ => eq_refl)
              (S (S (length (members_lexemes ms ++ RBrace :: rest))))
              [tokenTopValue] st) as (ts & Hts & ->); [lia|].
  cbn [after_members0]. eauto.
Qed.

End BadMembers0.

Section Returns0.

Context {St : Type}.
Variable callback : option TransactionLogEntry -> bool -> St -> St.

Lemma array_loop0_returns (fuel : nat) :
  forall dec st,
    length (buf dec) < fuel ->
    exists dec' st' e,
      reviver0.array_loop callback fuel dec st = Some (dec', st', e) /\
      length (buf dec') <= length (buf dec).
Proof.
  intros dec st Hlen. rewrite array_loop0_eq.
  now apply array_loop_returns.
Qed.

Lemma object_loop0_returns (fuel : nat) :
  forall dec st,
    length (buf dec) < fuel ->
    exists dec' st' e,
      reviver0.object_loop callback fuel dec st = Some (dec', st', e).
Proof.
  induction fuel as [|fuel IH]; intros dec st Hlen; [lia|].
  rewrite object_loop0_unfold. destruct (More dec); [|eauto].
  destruct (Token_ dec) as [dec1 [token|e]] eqn:Htok; [|eauto].
  apply Token_shrinks in Htok.
  destruct (negb (is_string token "value")).
  - apply IH. lia.
  - destruct (Token_ dec1) as [dec3 [token3|e]] eqn:Htok3; [|eauto].
    apply Token_shrinks in Htok3.
    destruct (negb (is_delim token3 "[")); [eauto|].
    destruct (array_loop0_returns fuel dec3 st) as (dec4 & st4 & e & -> & Hle4);
      [lia|].
    destruct e as [e|]; [eauto|].
    destruct (Token_ dec4) as [dec5 [token5|e]] eqn:Htok5; [|eauto].
    apply Token_shrinks in Htok5.
    destruct (negb (is_delim token5 "]")); [eauto|].
    apply IH. lia.
Qed.

Lemma ParseTransactionLogs0_returns (r : reviver0.JSONReviver) (st : St) :
  exists r' st' e,
    reviver0.ParseTransactionLogs callback r st = Some (r', st', e).
Proof.
  unfold reviver0.ParseTransactionLogs, reviver0.ParseTransactionLogs_fuel.
  destruct (Token_ (reviver0.decoder r)) as [dec1 [t|e]] eqn:Htok; [|eauto].
  apply Token_shrinks in Htok.
  destruct (negb (is_delim t "{")); [eauto|].
  destruct (object_loop0_returns (S (length (buf (reviver0.decoder r)))) dec1 st)
    as (dec2 & st2 & e & ->); [lia|].
  destruct e as [e|]; eauto.
Qed.

End Returns0.

Lemma parse_of {St : Type}
    (x : option (reviver.JSONReviver * list St * option error)) r' log e :
  x = Some (r', log, e) ->
  match x with
  | Some (_, log, e) => Some (log, e)
  | None => None
  end = Some (log, e).
Proof. now intros ->. Qed.

Lemma parse0_of {St : Type}
    (x : option (reviver0.JSONReviver * list St * option error)) r' log e :
  x = Some (r', log, e) ->
  match x with
  | Some (_, log, e) => Some (log, e)
  | None => None
  end = Some (log, e).
Proof. now intros ->. Qed.

Lemma passed_over_0 (vs : list value) :
  forallb passed_over vs = true -> forallb passed_over0 vs = true.
Proof.
  intros H. rewrite forallb_forall in *. intros v Hv. specialize (H v Hv).
  unfold passed_over in H. unfold passed_over0.
  now apply andb_prop in H as [H _].
Qed.

(** X1.  [ParseTransactionLogs] returns on every stream, for every
    callback and from every state of the decoder, in both variants of
    the parser: a turn of the member loop or of the element loop either
    ends the loop or consumes input, so the loops end before the fuel
    they are given, the length of the stream, is used up. *)
Theorem X1_parse_terminates :
  (forall (St : Type)
          (callback : reviver.TransactionLogContainer -> St -> St)
          (r : reviver.JSONReviver) (st : St),
     exists r' st' e,
       reviver.ParseTransactionLogs callback r st = Some (r', st', e))
  /\
  (forall (St : Type)
          (callback : option TransactionLogEntry -> bool -> St -> St)
          (r : reviver0.JSONReviver) (st : St),
     exists r' st' e,
       reviver0.ParseTransactionLogs callback r st = Some (r', st', e)).
Proof.
  split; intros St callback r st.
  - apply ParseTransactionLogs_returns.
  - apply ParseTransactionLogs0_returns.
Qed.

(** X2.  A stream that does not begin with the opening brace of an
    object is rejected before any callback is made, in both variants:
    the empty stream with [io.EOF]; a stream that begins with another
    value (an array, a string, a number, a boolean, null) with "JSON
    object start delimiter not found", except that a number outside
    float64 is refused by the decoder, with its type error; a stream
    that begins with a closing delimiter, a colon or a comma with the
    decoder's syntax error. *)
Theorem X2_root_must_be_an_object :
  reviver.parse [] = Some ([], Some io_EOF) /\
  reviver0.parse [] = Some ([], Some io_EOF) /\
  forall (c : lexeme) (rest : list lexeme),
    c <> LBrace ->
    reviver.parse (c :: rest)
    = Some ([], Some (if opens_value c then no_object_error c
                      else SyntaxError)) /\
    reviver0.parse (c :: rest)
    = Some ([], Some (if opens_value c then no_object_error c
                      else SyntaxError)).
Proof.
  split; [reflexivity|]. split; [reflexivity|].
  intros c rest Hc.
  destruct c; try (now elim Hc); try (split; reflexivity).
  unfold reviver.parse, reviver0.parse, reviver.ParseTransactionLogs,
    reviver0.ParseTransactionLogs, reviver.ParseTransactionLogs_fuel,
    reviver0.ParseTransactionLogs_fuel, reviver.NewJSONReviver,
    reviver0.NewJSONReviver, NewDecoder.
  cbn [reviver.decoder reviver0.decoder]. unfold Token_.
  cbn [buf tokState tokenStack err Token_from]. unfold Decode.
  cbn [err tokenPrepareForDecode tokState peek buf advance tl tokenStack
       tokenValueAllowed negb readValue scan scan_step beginValue endValue
       unmarshal_any opens_value no_object_error].
  destruct (in_float64 n); split; reflexivity.
Qed.

(** A bare array of records, a stray closing brace, and a number that
    float64 does not hold. *)
Lemma X2_witness :
  reviver.parse (lexemes_of (JArray [entry1]))
  = Some ([], Some object_start_missing) /\
  reviver0.parse [RBrace; LBrace] = Some ([], Some SyntaxError) /\
  reviver.parse [LNumber (Frac "1e400")] = Some ([], Some UnmarshalTypeError).
Proof.
  destruct X2_root_must_be_an_object as (_ & _ & H).
  split; [|split].
  - apply (H LBracket); discriminate.
  - apply (H RBrace [LBrace]); discriminate.
  - apply (H (LNumber (Frac "1e400")) []); discriminate.
Defined.

(** X3.  When the value of a "value" member is not an array (a scalar,
    null or an object), the parse fails at that value, in both
    variants: with "JSON array start delimiter not found", except that
    a number outside float64 is refused by the decoder, with its type
    error.  The Records of the valid members before it have been handed
    to the callback, no final unit is, and the members after it are not
    read. *)
Theorem X3_collection_must_be_an_array
    (pre : list (string * value)) (v : value) (post : list (string * value)) :
  is_array v = false ->
  (valid_body pre = true ->
   reviver.parse (body (pre ++ ("value", v) :: post))
   = Some (map record_unit (map entry_of (collection pre)),
           Some (no_array_error v)))
  /\
  (valid_body0 pre = true ->
   reviver0.parse (body (pre ++ ("value", v) :: post))
   = Some (map record_unit0 (map entry_of (collection pre)),
           Some (no_array_error v))).
Proof.
  intros Hv. split; intros Hpre.
  - destruct (ParseTransactionLogs_not_array reviver.record pre v post [] []
                Hpre Hv) as (r' & H).
    rewrite app_nil_r, deliver_record in H. exact (parse_of _ _ _ _ H).
  - destruct (ParseTransactionLogs0_not_array reviver0.record pre v post [] []
                Hpre Hv) as (r' & H).
    rewrite app_nil_r, deliver0_record in H. exact (parse0_of _ _ _ _ H).
Qed.

(** A second "value" member that is null, after a collection of one
    Record; and a "value" member that is a number float64 does not
    hold. *)
Lemma X3_witness :
  reviver.parse
    (body [("@odata.context", JString "ctx"); ("value", JArray [entry1]);
           ("value", JNull); ("@odata.deltaLink", JString "T2")])
  = Some ([record_unit (entry_of entry1)], Some array_start_missing) /\
  reviver0.parse
    (body [("@odata.context", JString "ctx"); ("value", JArray [entry1]);
           ("value", JNull); ("@odata.deltaLink", JString "T2")])
  = Some ([record_unit0 (entry_of entry1)], Some array_start_missing) /\
  reviver.parse (body [("value", JNumber (Frac "1e400"))])
  = Some ([], Some UnmarshalTypeError).
Proof.
  destruct (X3_collection_must_be_an_array
              [("@odata.context", JString "ctx"); ("value", JArray [entry1])]
              JNull [("@odata.deltaLink", JString "T2")] eq_refl) as [H H0].
  split; [exact (H eq_refl)|]. split; [exact (H0 eq_refl)|].
  exact (proj1 (X3_collection_must_be_an_array
                  [] (JNumber (Frac "1e400")) [] eq_refl) eq_refl).
Defined.

(** X4.  A valid body cut off just before the closing brace of the root
    object: the parser of utils/json_reviver.go hands every Record to
    the callback and then returns [io.EOF], with no final unit; the
    earlier variant, which does not read the closing brace, hands over
    the Records and the final unit and returns [nil]. *)
Theorem X4_body_cut_off_before_closing_brace (ms : list (string * value)) :
  (valid_body ms = true ->
   reviver.parse (removelast (body ms))
   = Some (map record_unit (map entry_of (collection ms)), Some io_EOF))
  /\
  (valid_body0 ms = true ->
   reviver0.parse (removelast (body ms))
   = Some (map record_unit0 (map entry_of (collection ms)) ++ [final_unit0],
           None)).
Proof.
  split; intros Hok.
  - destruct (ParseTransactionLogs_truncated reviver.record ms [] Hok)
      as (r' & H).
    rewrite deliver_record in H. exact (parse_of _ _ _ _ H).
  - destruct (ParseTransactionLogs0_truncated reviver0.record ms [] Hok)
      as (r' & H).
    rewrite deliver0_record in H. exact (parse0_of _ _ _ _ H).
Qed.

Lemma X4_witness :
  reviver.parse (removelast (body sample_body))
  = Some ([record_unit (entry_of entry1); record_unit (entry_of entry2)],
          Some io_EOF) /\
  reviver0.parse (removelast (body sample_body))
  = Some ([record_unit0 (entry_of entry1); record_unit0 (entry_of entry2);
           final_unit0], None).
Proof.
  destruct (X4_body_cut_off_before_closing_brace sample_body) as [H H0].
  split; [exact (H eq_refl) | exact (H0 eq_refl)].
Defined.

(** X5.  An unrelated member whose value is an object is not skipped:
    the member loop enters the object and reads its members as if they
    were members of the root, so a "value" array in it is delivered and
    an "@odata.deltaLink" in it becomes the token; the closing brace of
    that object then ends the parse, which returns [nil], and the
    members of the root after it are never read. *)
Theorem X5_unrelated_object_is_entered
    (pre : list (string * value)) (k : string)
    (inner post : list (string * value)) :
  unrelated k = true ->
  (valid_body pre = true ->
   valid_body inner = true ->
   reviver.parse (body (pre ++ (k, JObject inner) :: post))
   = Some (map record_unit (map entry_of (collection (pre ++ inner)))
           ++ [final_unit (token_of (pre ++ inner) "")], None))
  /\
  (valid_body0 pre = true ->
   valid_body0 inner = true ->
   reviver0.parse (body (pre ++ (k, JObject inner) :: post))
   = Some (map record_unit0 (map entry_of (collection (pre ++ inner)))
           ++ [final_unit0], None)).
Proof.
  intros Hk. split; intros Hpre Hin.
  - destruct (ParseTransactionLogs_nested_object reviver.record pre k inner
                post [] [] Hpre Hk Hin) as (r' & H).
    rewrite app_nil_r, deliver_record in H. exact (parse_of _ _ _ _ H).
  - apply unrelated_key in Hk as [Hk _].
    destruct (ParseTransactionLogs0_nested_object reviver0.record pre k inner
                post [] [] Hpre Hk Hin) as (r' & H).
    rewrite app_nil_r, deliver0_record in H. exact (parse0_of _ _ _ _ H).
Qed.

(** An "error" object that itself holds a collection and a token, in
    front of the members of the sample body: what is delivered is the
    content of the nested object. *)
Lemma X5_witness :
  reviver.parse
    (body (("error", JObject [("value", JArray [entry2]);
                              ("@odata.deltaLink", JString "T9")])
           :: sample_body))
  = Some ([record_unit (entry_of entry2); final_unit "T9"], None) /\
  reviver0.parse
    (body (("error", JObject [("value", JArray [entry2]);
                              ("@odata.deltaLink", JString "T9")])
           :: sample_body))
  = Some ([record_unit0 (entry_of entry2); final_unit0], None).
Proof.
  destruct (X5_unrelated_object_is_entered [] "error"
              [("value", JArray [entry2]); ("@odata.deltaLink", JString "T9")]
              sample_body eq_refl) as [H H0].
  split; [exact (H eq_refl eq_refl) | exact (H0 eq_refl eq_refl)].
Defined.

(** X6.  An unrelated member whose value is an array of scalars (none of
    them the string "value" or "@odata.deltaLink", nor a number outside
    float64) ends the member loop at the closing bracket of that array.
    The parser of
    utils/json_reviver.go then returns "JSON object end delimiter not
    found", after the Records of the members before it and without a
    final unit; the earlier variant hands over those Records and the
    final unit and returns [nil].  In both the members after it are
    never read. *)
Theorem X6_unrelated_array_ends_member_loop
    (pre : list (string * value)) (k : string) (vs : list value)
    (post : list (string * value)) :
  unrelated k = true ->
  forallb passed_over vs = true ->
  (valid_body pre = true ->
   reviver.parse (body (pre ++ (k, JArray vs) :: post))
   = Some (map record_unit (map entry_of (collection pre)),
           Some object_end_missing))
  /\
  (valid_body0 pre = true ->
   reviver0.parse (body (pre ++ (k, JArray vs) :: post))
   = Some (map record_unit0 (map entry_of (collection pre)) ++ [final_unit0],
           None)).
Proof.
  intros Hk Hvs. split; intros Hpre.
  - destruct (ParseTransactionLogs_nested_array reviver.record pre k vs
                post [] [] Hpre Hk Hvs) as (r' & H).
    rewrite app_nil_r, deliver_record in H. exact (parse_of _ _ _ _ H).
  - apply unrelated_key in Hk as [Hk _]. apply passed_over_0 in Hvs.
    destruct (ParseTransactionLogs0_nested_array reviver0.record pre k vs
                post [] [] Hpre Hk Hvs) as (r' & H).
    rewrite app_nil_r, deliver0_record in H. exact (parse0_of _ _ _ _ H).
Qed.

Lemma X6_witness :
  reviver.parse
    (body [("value", JArray [entry1]);
           ("ids", JArray [JNumber (Int 1); JNumber (Int 2)]);
           ("@odata.deltaLink", JString "T2")])
  = Some ([record_unit (entry_of entry1)], Some object_end_missing) /\
  reviver0.parse
    (body [("value", JArray [entry1]);
           ("ids", JArray [JNumber (Int 1); JNumber (Int 2)]);
           ("@odata.deltaLink", JString "T2")])
  = Some ([record_unit0 (entry_of entry1); final_unit0], None).
Proof.
  destruct (X6_unrelated_array_ends_member_loop
              [("value", JArray [entry1])] "ids"
              [JNumber (Int 1); JNumber (Int 2)]
              [("@odata.deltaLink", JString "T2")] eq_refl eq_refl)
    as [H H0].
  split; [exact (H eq_refl) | exact (H0 eq_refl)].
Defined.

(** X7.  The parse of a valid body does not depend on what follows the
    body in the stream: in both variants the result is the one for the
    body alone, whatever the rest. *)
Theorem X7_trailing_input_not_read (ms : list (string * value))
    (rest : list lexeme) :
  (valid_body ms = true ->
   reviver.parse (body ms ++ rest) = reviver.parse (body ms))
  /\
  (valid_body0 ms = true ->
   reviver0.parse (body ms ++ rest) = reviver0.parse (body ms)).
Proof.
  split; intros Hok.
  - rewrite (parse_valid ms Hok). unfold reviver.parse.
    rewrite (ParseTransactionLogs_trailing reviver.record ms rest [] Hok).
    rewrite deliver_record. reflexivity.
  - rewrite (parse0_valid ms Hok).
    destruct (ParseTransactionLogs0_trailing reviver0.record ms rest [] Hok)
      as (r' & H).
    rewrite deliver0_record in H. exact (parse0_of _ _ _ _ H).
Qed.

Lemma X7_witness :
  reviver.parse (body sample_body ++ [RBrace; LNull; LBracket])
  = reviver.parse (body sample_body) /\
  reviver0.parse (body sample_body ++ [RBrace; LNull; LBracket])
  = reviver0.parse (body sample_body).
Proof.
  destruct (X7_trailing_input_not_read sample_body [RBrace; LNull; LBracket])
    as [H H0].
  split; [exact (H eq_refl) | exact (H0 eq_refl)].
Defined.

Section Again.

Context {St : Type}.
Variable callback : option TransactionLogEntry -> bool -> St -> St.

(** The earlier variant leaves the closing brace of the body unread. *)
Lemma ParseTransactionLogs0_leaves_brace (ms : list (string * value))
    (rest : list lexeme) (st : St) :
  valid_body0 ms = true ->
  exists ts,
    (ts = tokenObjectStart \/ ts = tokenObjectComma) /\
    reviver0.ParseTransactionLogs callback
      (reviver0.NewJSONReviver (body ms ++ rest)) st
    = Some (reviver0.mkReviver
              (mkDecoder (RBrace :: rest) ts [tokenTopValue] None),
            callback None true
              (deliver0 callback (map entry_of (collection ms)) st),
            None).
Proof.
  intros Hok. rewrite body_members.
  rewrite <- app_comm_cons, <- !app_assoc. cbn [app].
  rewrite ParseTransactionLogs0_object.
  destruct (object_loop0_members callback ms (RBrace :: rest) Hok
              (fun _ _ => eq_refl)
              (S (S (length (members_lexemes ms ++ RBrace :: rest))))
              [tokenTopValue] st) as (ts & Hts & ->); [lia|].
  exists ts. split; [exact Hts | reflexivity].
Qed.

Lemma ParseTransactionLogs0_again (rest : list lexeme) ts (st : St) :
  ts = tokenObjectStart \/ ts = tokenObjectComma ->
  reviver0.ParseTransactionLogs callback
    (reviver0.mkReviver (mkDecoder (RBrace :: rest) ts [tokenTopValue] None))
    st
  = Some (reviver0.mkReviver (mkDecoder rest tokenTopValue [] None), st,
          Some object_start_missing).
Proof. intros [-> | ->]; reflexivity. Qed.

End Again.

(** X20.  The parser of utils/json_reviver.go can be called again on
    the same reviver: after a valid body it has read the closing brace
    of the body, and a second call parses the body that follows in the
    stream.  The earlier variant leaves the closing brace unread: a
    second call reads it as its first token and returns "JSON object
    start delimiter not found", without any callback. *)
Theorem X20_parse_again (ms1 ms2 : list (string * value)) :
  (valid_body ms1 = true ->
   valid_body ms2 = true ->
   exists r1 r2,
     reviver.ParseTransactionLogs reviver.record
       (reviver.NewJSONReviver (body ms1 ++ body ms2)) []
     = Some (r1,
             map record_unit (map entry_of (collection ms1))
             ++ [final_unit (token_of ms1 "")], None) /\
     reviver.ParseTransactionLogs reviver.record r1 []
     = Some (r2,
             map record_unit (map entry_of (collection ms2))
             ++ [final_unit (token_of ms2 "")], None))
  /\
  (valid_body0 ms1 = true ->
   exists r1 r2,
     reviver0.ParseTransactionLogs reviver0.record
       (reviver0.NewJSONReviver (body ms1 ++ body ms2)) []
     = Some (r1,
             map record_unit0 (map entry_of (collection ms1)) ++ [final_unit0],
             None) /\
     reviver0.ParseTransactionLogs reviver0.record r1 []
     = Some (r2, [], Some object_start_missing)).
Proof.
  split.
  - intros H1 H2.
    exists (reviver.mkReviver (mkDecoder (body ms2) tokenTopValue [] None)),
           (reviver.mkReviver (mkDecoder [] tokenTopValue [] None)).
    split.
    + rewrite (ParseTransactionLogs_trailing reviver.record ms1 (body ms2) []
                 H1).
      rewrite deliver_record. reflexivity.
    + pose proof (ParseTransactionLogs_trailing reviver.record ms2 [] [] H2)
        as H.
      rewrite app_nil_r, deliver_record in H. exact H.
  - intros H1.
    destruct (ParseTransactionLogs0_leaves_brace reviver0.record ms1 (body ms2)
                [] H1) as (ts & Hts & H).
    eexists. eexists. split.
    + rewrite H, deliver0_record. reflexivity.
    + apply ParseTransactionLogs0_again. exact Hts.
Qed.

Lemma X20_witness :
  exists r1 r2,
    reviver.ParseTransactionLogs reviver.record
      (reviver.NewJSONReviver (body sample_body ++ body empty_body)) []
    = Some (r1,
            [record_unit (entry_of entry1); record_unit (entry_of entry2);
             final_unit "TransactionLogEntries/!delta('T2')"], None) /\
    reviver.ParseTransactionLogs reviver.record r1 []
    = Some (r2, [final_unit ""], None).
Proof.
  exact (proj1 (X20_parse_again sample_body empty_body) eq_refl eq_refl).
Defined.

(** ** The records *)

Lemma unmarshal_string_fits (v : value) (target : string) :
  no_error (snd (unmarshal_string v target)) = string_or_null v.
Proof. destruct v; reflexivity. Qed.

Lemma no_error_saveError (e1 e2 : option error) :
  no_error (saveError e1 e2) = no_error e1 && no_error e2.
Proof. destruct e1, e2; reflexivity. Qed.

Lemma store_elems_fits (elems : list value) :
  forall backing,
    no_error (snd (store_elems elems backing)) = forallb string_or_null elems.
Proof.
  induction elems as [|v elems IH]; intros backing; [reflexivity|].
  cbn [store_elems forallb].
  pose proof (unmarshal_string_fits v (hd "" backing)) as Hv.
  destruct (unmarshal_string v (hd "" backing)) as [s e1].
  specialize (IH (tl backing)).
  destruct (store_elems elems (tl backing)) as [rest e2].
  cbn [snd] in *. now rewrite no_error_saveError, Hv, IH.
Qed.

Lemma arrayInterface_convertible (elems : list value) :
  Forall (fun v => no_error (snd (valueInterface v)) = convertible v) elems ->
  no_error (snd (arrayInterface valueInterface elems))
  = forallb convertible elems.
Proof.
  induction 1 as [|v elems Hv _ IH]; [reflexivity|].
  cbn [arrayInterface forallb]. destruct (valueInterface v) as [x e1].
  destruct (arrayInterface valueInterface elems) as [l e2].
  cbn [snd] in *. now rewrite no_error_saveError, Hv, IH.
Qed.

Lemma objectInterface_convertible (ms : list (string * value)) :
  Forall (fun kv => no_error (snd (valueInterface (snd kv)))
                    = convertible (snd kv)) ms ->
  forall m,
    no_error (snd (objectInterface valueInterface ms m))
    = forallb (fun kv => convertible (snd kv)) ms.
Proof.
  induction 1 as [|[k v] ms Hv _ IH]; intros m; [reflexivity|].
  cbn [objectInterface forallb fst snd] in *.
  destruct (valueInterface v) as [x e1].
  specialize (IH (map_store k x m)).
  destruct (objectInterface valueInterface ms (map_store k x m)) as [m' e2].
  cbn [snd] in *. now rewrite no_error_saveError, Hv, IH.
Qed.

(** [valueInterface] saves an error exactly for a number outside
    float64. *)
Lemma valueInterface_convertible (v : value) :
  no_error (snd (valueInterface v)) = convertible v.
Proof.
  induction v as [| b | n | s | elems IH | ms IH] using value_nested_ind;
    try reflexivity.
  - cbn [valueInterface convertible]. unfold convertNumber.
    now destruct (in_float64 n).
  - cbn [valueInterface convertible].
    rewrite <- (arrayInterface_convertible elems IH).
    now destruct (arrayInterface valueInterface elems).
  - cbn [valueInterface convertible].
    rewrite <- (objectInterface_convertible ms IH []).
    now destruct (objectInterface valueInterface ms []).
Qed.

Lemma unmarshal_any_convertible (v : value) (target : any) :
  no_error (snd (unmarshal_any v target)) = convertible v.
Proof.
  destruct v; try apply valueInterface_convertible.
  cbn [unmarshal_any convertible]. now destruct (in_float64 n).
Qed.

Lemma store_field_fits (f : field) (v : value) (t : TransactionLogEntry)
    (spare : list string) :
  no_error (snd (store_field f v t spare)) = fits f v.
Proof.
  destruct t as [id cs ts rt us cu tu ov nv sm].
  destruct f; cbn [store_field fits].
  - destruct v as [| | [z|l] | | |]; try reflexivity.
    cbn [unmarshal_int]. destruct (inInt64 z); reflexivity.
  - rewrite <- (unmarshal_string_fits v cs).
    destruct (unmarshal_string v cs); reflexivity.
  - rewrite <- (unmarshal_string_fits v ts).
    destruct (unmarshal_string v ts); reflexivity.
  - rewrite <- (unmarshal_string_fits v rt).
    destruct (unmarshal_string v rt); reflexivity.
  - rewrite <- (unmarshal_string_fits v us).
    destruct (unmarshal_string v us); reflexivity.
  - rewrite <- (unmarshal_string_fits v cu).
    destruct (unmarshal_string v cu); reflexivity.
  - destruct v as [| | | | elems |]; try reflexivity.
    cbn [unmarshal_strings].
    rewrite <- (store_elems_fits elems
                  (match tu with Some l => l | None => [] end ++ spare)).
    destruct (store_elems elems _); destruct elems; reflexivity.
  - rewrite <- (unmarshal_any_convertible v ov).
    destruct (unmarshal_any v ov); reflexivity.
  - rewrite <- (unmarshal_any_convertible v nv).
    destruct (unmarshal_any v nv); reflexivity.
  - rewrite <- (unmarshal_any_convertible v sm).
    destruct (unmarshal_any v sm); reflexivity.
Qed.

Lemma store_members_fits (ms : list (string * value)) :
  forall t spare saved,
    no_error (snd (store_members ms t spare saved))
    = no_error saved && forallb member_fits ms.
Proof.
  induction ms as [|[k v] ms IH]; intros t spare saved.
  - cbn. now rewrite andb_true_r.
  - cbn [store_members forallb]. unfold member_fits at 1. cbn [fst snd].
    destruct (field_of k) as [f|].
    + pose proof (store_field_fits f v t spare) as Hf.
      destruct (store_field f v t spare) as [[t' spare'] e]. cbn [snd] in Hf.
      rewrite IH, no_error_saveError, <- Hf. now rewrite andb_assoc.
    + rewrite IH. reflexivity.
Qed.

(** X8.  Which elements of the collection decode as a record, and so
    which do not abort the parse: those the scanner reads, nested no
    deeper than its limit, that are null or an object in which every
    member that names a field of [TransactionLogEntry] (exactly, or up
    to the case of its letters) holds a value the field accepts: an
    integer in the int64 range or null for ID, a string or null for the
    five string fields, null or an array of strings and nulls for Tuple,
    any value whose numbers are all within float64 for OldValue,
    NewValue and StatusMessage.  Members that name no field never make
    the decode fail, and neither does the order or the repetition of
    members. *)
Theorem X8_decodes_iff_members_fit (v : value) :
  decodes v
  = shallow v &&
    match v with
    | JNull => true
    | JObject ms => forallb member_fits ms
    | _ => false
    end.
Proof.
  rewrite decodes_spec. f_equal. unfold unmarshals.
  destruct v; try reflexivity.
  cbn [unmarshal_entry]. now rewrite store_members_fits.
Qed.

(** An element with a number float64 does not hold in an interface
    field does not decode, and ends the parse; such a number in an
    unrelated member ends it as well. *)
Example number_out_of_range :
  decodes (JObject [("ID", JNumber (Int 3));
                    ("OldValue", JNumber (Frac "1e400"))]) = false /\
  reviver.parse
    (body [("value", JArray [JObject [("ID", JNumber (Int 3));
                                      ("OldValue", JNumber (Frac "1e400"))]])])
  = Some ([], Some decode_failed) /\
  reviver.parse
    (body [("n", JNumber (Frac "1e400")); ("value", JArray [entry1])])
  = Some ([], Some UnmarshalTypeError).
Proof. repeat split; reflexivity. Qed.

(** A slice decoded into again shows what its backing array still
    holds: [null] leaves a string as it is. *)
Example Tuple_decoded_again :
  Tuple (entry_of
           (JObject [("Tuple", JArray [JString "a"; JString "b"; JString "c"]);
                     ("Tuple", JArray [JNull]);
                     ("Tuple", JArray [JNull; JNull])]))
  = Some ["a"; "b"].
Proof. reflexivity. Qed.



(** ** The forwarder and the poll loop on every response *)

Lemma existsb_record_units (rs : list TransactionLogEntry)
    (tail : list reviver.TransactionLogContainer) :
  existsb is_record tail = false ->
  existsb is_record (map record_unit rs ++ tail)
  = match rs with [] => false | _ :: _ => true end.
Proof.
  intros Ht. destruct rs as [|r rs]; [exact Ht | reflexivity].
Qed.

Lemma process_returns (stream : list lexeme) (nextLink deltaLink : string) :
  fst (main.processTransactionLogEntries stream)
  = client.returns (nextLink, deltaLink) ->
  nextLink = "" /\ deltaLink <> "".
Proof.
  destruct (process_every stream) as (rs & dl & e & _ & _ & Hp).
  rewrite Hp. destruct e as [e'|]; cbn [fst]; [discriminate|].
  destruct (String.eqb dl "") eqn:Hd; [discriminate|].
  intros [= <- <-]. split; [reflexivity|]. now apply String.eqb_neq.
Qed.

(** X10.  When the parse of the response fails, the process ends in
    [log.Fatal] with the text of the parser's error.  By then the
    Records delivered before the failure have been written to the pipe
    behind the opening of the object and of its array, and the POST that
    reads the pipe has been started if there was at least one; the array
    is not closed, the pipe is not closed and nothing is sent on the
    channel. *)
Theorem X10_parse_failure_is_fatal (stream : list lexeme)
    (log : list reviver.TransactionLogContainer) (e : error) :
  reviver.parse stream = Some (log, Some e) ->
  exists rs,
    log = map record_unit rs /\
    main.processTransactionLogEntries stream
    = (client.exits (main.Error e),
       main.mkForwarder (match rs with [] => 0 | _ :: _ => 1 end) (framed rs)
         false (match rs with [] => [] | _ :: _ => [the_post] end) 0 [] None
         false).
Proof.
  intros Hparse.
  destruct (process_every stream) as (rs & dl & e' & _ & Hp & Hrun).
  rewrite Hparse in Hp. injection Hp as Hlog He. subst e'.
  rewrite app_nil_r in Hlog. exists rs. split; [exact Hlog|].
  rewrite Hrun, deliver_forwarder0. reflexivity.
Qed.

(** A collection whose second element is a number. *)
Lemma X10_witness :
  exists rs,
    [record_unit (entry_of entry1)] = map record_unit rs /\
    main.processTransactionLogEntries
      (body [("value", JArray [entry1; JNumber (Int 123); entry2]);
             ("@odata.deltaLink", JString "T2")])
    = (client.exits "unable to decode transaction log entry",
       main.mkForwarder (match rs with [] => 0 | _ :: _ => 1 end) (framed rs)
         false (match rs with [] => [] | _ :: _ => [the_post] end) 0 [] None
         false).
Proof.
  apply (X10_parse_failure_is_fatal
           (body [("value", JArray [entry1; JNumber (Int 123); entry2]);
                  ("@odata.deltaLink", JString "T2")])
           [record_unit (entry_of entry1)] decode_failed).
  reflexivity.
Defined.

(** X11.  For every response, the forwarder starts exactly one POST to
    the target when the parse delivers at least one Record, also when
    the parse fails later on, and none when it delivers no Record; the
    goroutine that drains the pipe is started only when no Record was
    delivered and a token was sent.  So the pipe never has two
    readers. *)
Theorem X11_one_post_iff_records (stream : list lexeme)
    (log : list reviver.TransactionLogContainer) (e : option error) :
  reviver.parse stream = Some (log, e) ->
  main.posts (snd (main.processTransactionLogEntries stream))
  = (if existsb is_record log then [the_post] else []) /\
  main.drains (snd (main.processTransactionLogEntries stream))
  = (if existsb is_record log then 0
     else length
            (main.deltaLinkChannel
               (snd (main.processTransactionLogEntries stream)))).
Proof.
  intros Hparse.
  destruct (process_every stream) as (rs & dl & e' & _ & Hp & Hrun).
  rewrite Hparse in Hp. injection Hp as Hlog He. subst e' log.
  rewrite Hrun, existsb_record_units by (now destruct e).
  destruct e as [e|]; cbn [snd].
  - rewrite deliver_forwarder0. cbn [main.posts main.drains
                                      main.deltaLinkChannel length].
    destruct rs; split; reflexivity.
  - unfold forwarded. cbn [main.posts main.drains main.deltaLinkChannel].
    destruct rs, (String.eqb dl ""); split; reflexivity.
Qed.

Lemma X11_witness :
  main.posts (snd (main.processTransactionLogEntries (body sample_body)))
  = [the_post] /\
  main.drains (snd (main.processTransactionLogEntries (body sample_body))) = 0.
Proof.
  exact (X11_one_post_iff_records (body sample_body)
           [record_unit (entry_of entry1); record_unit (entry_of entry2);
            final_unit "TransactionLogEntries/!delta('T2')"] None eq_refl).
Defined.

(** X12.  For every response: the forwarder never writes to the pipe
    after it has closed it, so the [log.Fatal] behind [Encode] is not
    reached that way; it sends at most one value on the channel, so no
    send is left without a receiver; and it has closed the pipe exactly
    when it has sent the token. *)
Theorem X12_one_send_then_close (stream : list lexeme) :
  main.fatal (snd (main.processTransactionLogEntries stream)) = None /\
  main.stuck (snd (main.processTransactionLogEntries stream)) = false /\
  length (main.deltaLinkChannel (snd (main.processTransactionLogEntries stream)))
  <= 1 /\
  main.closed (snd (main.processTransactionLogEntries stream))
  = match main.deltaLinkChannel
            (snd (main.processTransactionLogEntries stream)) with
    | [] => false
    | _ :: _ => true
    end.
Proof.
  destruct (process_every stream) as (rs & dl & e & _ & _ & Hrun).
  rewrite Hrun. destruct e as [e|]; cbn [snd].
  - rewrite deliver_forwarder0. cbn. auto.
  - unfold forwarded. cbn [main.fatal main.stuck main.deltaLinkChannel
                            main.closed].
    destruct (String.eqb dl ""); cbn; auto.
Qed.

(** X13.  When [processTransactionLogEntries] returns, the delta-link it
    returns is not empty (and the next-link is).  So the poll loop that
    [main] runs with this processor is never left through its [break]:
    from a non-empty URL, however long it runs, it is still polling, or
    the processor is blocked, or the process has ended. *)
Theorem X13_tracker_never_leaves_the_loop :
  (forall stream nextLink deltaLink,
     fst (main.processTransactionLogEntries stream)
     = client.returns (nextLink, deltaLink) ->
     nextLink = "" /\ deltaLink <> "")
  /\
  (forall (W : Type)
          (Do : W -> client.Request -> W * client.Response (list lexeme))
          (fuel : nat) (serviceRootURL urlStr : string) (interval : Z) (w : W),
     urlStr <> "" ->
     snd (client.TrackCollection Do processor fuel serviceRootURL urlStr
            interval w)
     <> client.loop_exit).
Proof.
  split; [exact process_returns|].
  intros W Do fuel serviceRootURL urlStr interval w Hne Hexit.
  destruct (client.TrackCollection Do processor fuel serviceRootURL urlStr
              interval w) as [[w' evs] s] eqn:Hrun.
  cbn [snd] in Hexit. subst s.
  destruct (TrackCollection_exit Do processor serviceRootURL interval fuel
              urlStr w w' evs Hne Hrun) as (u & wa & evs0 & _ & Hp).
  unfold processor in Hp. injection Hp as _ Hp.
  apply process_returns in Hp as [_ Hp]. now apply Hp.
Qed.

Lemma X13_witness :
  fst (main.processTransactionLogEntries (body sample_body))
  = client.returns ("", "TransactionLogEntries/!delta('T2')") /\
  snd (client.TrackCollection ok_server processor 4 "https://tm1/api/v1/"
         "TransactionLogEntries" 5 tt)
  <> client.loop_exit.
Proof.
  split; [reflexivity|].
  apply (proj2 X13_tracker_never_leaves_the_loop). discriminate.
Defined.

(** X14.  Every run of [TrackCollection], with any transport and any
    processor: each request is a GET for a non-empty link under the
    service root, with the headers OData-Version, Accept and Prefer:
    odata.track-changes and no other; the loop sleeps only for the
    interval it was given, only right after a request, and never twice
    in a row. *)
Theorem X14_poll_trace {W B : Type}
    (Do : W -> client.Request -> W * client.Response B)
    (processorFunc : W -> B -> W * client.call (string * string))
    (fuel : nat) (serviceRootURL urlStr : string) (interval : Z) (w : W) :
  polled serviceRootURL interval
    (snd (fst (client.TrackCollection Do processorFunc fuel serviceRootURL
                 urlStr interval w))).
Proof.
  revert urlStr w. induction fuel as [|fuel IH]; intros urlStr w.
  - cbn [client.TrackCollection]. destruct (String.eqb urlStr ""); constructor.
  - destruct (String.eqb urlStr "") eqn:Hu.
    + cbn [client.TrackCollection]. rewrite Hu. constructor.
    + apply String.eqb_neq in Hu.
      rewrite (TrackCollection_unfold Do processorFunc serviceRootURL interval
                 fuel urlStr w Hu).
      rewrite TrackCollection_turn_eq. cbv zeta.
      destruct (processorFunc _ _) as [w2 [[nextLink deltaLink] | | msg]].
      * destruct (negb (String.eqb nextLink "")).
        -- specialize (IH nextLink w2).
           destruct (client.TrackCollection Do processorFunc fuel
                       serviceRootURL nextLink interval w2) as [[w'' evs'] s].
           cbn [fst snd app] in *. now constructor.
        -- destruct (negb (String.eqb deltaLink "")).
           ++ specialize (IH deltaLink w2).
              destruct (client.TrackCollection Do processorFunc fuel
                          serviceRootURL deltaLink interval w2)
                as [[w'' evs'] s].
              cbn [fst snd app] in *. now apply polled_sleep.
           ++ cbn [fst snd]. constructor; [exact Hu | constructor].
      * cbn [fst snd]. constructor; [exact Hu | constructor].
      * cbn [fst snd]. constructor; [exact Hu | constructor].
Qed.

(** ** [IterateCollection] *)

Section IterateProps.

Import client client.

Context {W : Type}.
Variable Verbose : bool.
Variable Do : W -> Request -> W * Response string.
Variable processResponse : W -> string -> W * (Z * string).

Lemma ExecuteGETRequest_eq (w : W) (urlStr : string) :
  ExecuteGETRequest Verbose Do w urlStr
  = ((if Verbose then [ActPrintln ["GET"; urlStr]] else [])
     ++ [ActRequest (plain_request urlStr)],
     Do w (plain_request urlStr)).
Proof. reflexivity. Qed.

Lemma IterateCollection_loop_unfold (fuel : nat) (root nextLink : string)
    (w : W) (deferred : list (Response string)) :
  nextLink <> "" ->
  IterateCollection_loop Verbose Do processResponse (S fuel) root nextLink w
    deferred
  = let req := plain_request (root ++ nextLink)%string in
    let resp := snd (Do w req) in
    let r := processResponse (fst (Do w req)) (Body resp) in
    let '(w3, acts', returned) :=
      IterateCollection_loop Verbose Do processResponse fuel root
        (snd (snd r)) (fst r) (resp :: deferred) in
    (w3,
     ((if Verbose then [ActPrintln ["GET"; (root ++ nextLink)%string]] else [])
      ++ [ActRequest req])
     ++ (if Verbose then [ActPrintln [Body resp]] else []) ++ acts',
     returned).
Proof.
  intros Hne. apply String.eqb_neq in Hne.
  cbn [IterateCollection_loop]. rewrite Hne, ExecuteGETRequest_eq.
  cbv zeta. destruct (Do w _) as [w1 resp]. cbn [fst snd].
  destruct (processResponse w1 (Body resp)) as [w2 [n next]]. reflexivity.
Qed.


Hypothesis Do_plain :
  forall w urlStr, Do w (track_request urlStr) = Do w (plain_request urlStr).

Lemma requested_closes (deferred : list (Response string)) :
  requested (map ActClose deferred) = [].
Proof.
  unfold requested. apply flat_map_nil. intros a Ha.
  apply in_map_iff in Ha as (x & <- & _). reflexivity.
Qed.

Lemma IterateCollection_loop_empty (fuel : nat) (root : string) (w : W)
    (deferred : list (Response string)) :
  IterateCollection_loop Verbose Do processResponse fuel root "" w deferred
  = (w, map ActClose deferred, true).
Proof. destruct fuel; reflexivity. Qed.

Lemma IterateCollection_loop_pages (fuel : nat) (interval : Z) :
  forall root nextLink w deferred,
    fst (fst (IterateCollection_loop Verbose Do processResponse fuel root
                nextLink w deferred))
    = fst (fst (TrackCollection Do (paging_processor processResponse) fuel
                  root nextLink interval w)) /\
    requested
      (snd (fst (IterateCollection_loop Verbose Do processResponse fuel root
                   nextLink w deferred)))
    = polled_urls
        (snd (fst (TrackCollection Do (paging_processor processResponse) fuel
                     root nextLink interval w))) /\
    snd (TrackCollection Do (paging_processor processResponse) fuel root
           nextLink interval w)
    = (if snd (IterateCollection_loop Verbose Do processResponse fuel root
                 nextLink w deferred)
       then loop_exit else running) /\
    Forall (fun ev => exists req, ev = EvRequest req)
      (snd (fst (TrackCollection Do (paging_processor processResponse) fuel
                   root nextLink interval w))).
Proof.
  induction fuel as [|fuel IH]; intros root nextLink w deferred.
  - cbn [IterateCollection_loop TrackCollection].
    destruct (String.eqb nextLink ""); cbn [fst snd].
    + rewrite requested_closes. repeat split. constructor.
    + repeat split. constructor.
  - destruct (String.eqb nextLink "") eqn:Hn.
    + cbn [IterateCollection_loop TrackCollection]. rewrite Hn. cbn [fst snd].
      rewrite requested_closes. repeat split. constructor.
    + apply String.eqb_neq in Hn.
      rewrite (IterateCollection_loop_unfold fuel root nextLink w deferred Hn).
      rewrite (TrackCollection_unfold Do (paging_processor processResponse)
                 root interval fuel nextLink w Hn).
      rewrite TrackCollection_turn_eq. cbv zeta. rewrite Do_plain.
      set (req := plain_request (root ++ nextLink)%string).
      set (resp := snd (Do w req)).
      destruct (processResponse (fst (Do w req)) (Body resp))
        as [w2 [n next]] eqn:Hr.
      assert (Hpp : paging_processor processResponse (fst (Do w req))
                      (Body resp) = (w2, returns (next, ""))).
      { unfold paging_processor. now rewrite Hr. }
      rewrite Hpp. cbn [fst snd].
      destruct (String.eqb next "") eqn:Hnext; cbn [negb String.eqb].
      * (* the last page *)
        apply String.eqb_eq in Hnext. subst next.
        rewrite IterateCollection_loop_empty. cbn [fst snd].
        unfold requested. rewrite !flat_map_app.
        fold (requested (map ActClose (resp :: deferred))).
        rewrite requested_closes.
        repeat split.
        -- destruct Verbose; reflexivity.
        -- repeat constructor. eauto.
      * destruct (IH root next w2 (resp :: deferred)) as (Hw & Hu & Hs & Hf).
        destruct (IterateCollection_loop Verbose Do processResponse fuel root
                    next w2 (resp :: deferred)) as [[w3 acts'] returned].
        destruct (TrackCollection Do (paging_processor processResponse) fuel
                    root next interval w2) as [[w'' evs'] s].
        cbn [fst snd] in *. subst.
        repeat split.
        -- unfold requested, polled_urls in *.
           rewrite !flat_map_app. cbn [flat_map app]. rewrite <- Hu.
           destruct Verbose; reflexivity.
        -- constructor; [eauto | exact Hf].
Qed.

End IterateProps.


(** X16.  Against a server that answers a request the same with and
    without the Prefer header, [TrackCollection] with a processor that
    reports the next-links of [processResponse] and no delta-link does
    what [IterateCollection] does: it requests the same URLs in the same
    order, leaves the world in the same state, never sleeps, and is left
    through its [break] exactly when [IterateCollection] returns. *)
Theorem X16_TrackCollection_pages_as_IterateCollection {W : Type}
    (Verbose : bool)
    (Do : W -> client.Request -> W * client.Response string)
    (processResponse : W -> string -> W * (Z * string))
    (fuel : nat) (serviceRootURL urlStr : string) (interval : Z) (w : W) :
  (forall w urlStr, Do w (track_request urlStr) = Do w (plain_request urlStr)) ->
  fst (fst (client.IterateCollection Verbose Do processResponse fuel
              serviceRootURL urlStr w))
  = fst (fst (client.TrackCollection Do (paging_processor processResponse)
                fuel serviceRootURL urlStr interval w)) /\
  requested
    (snd (fst (client.IterateCollection Verbose Do processResponse fuel
                 serviceRootURL urlStr w)))
  = polled_urls
      (snd (fst (client.TrackCollection Do (paging_processor processResponse)
                   fuel serviceRootURL urlStr interval w))) /\
  snd (client.TrackCollection Do (paging_processor processResponse) fuel
         serviceRootURL urlStr interval w)
  = (if snd (client.IterateCollection Verbose Do processResponse fuel
               serviceRootURL urlStr w)
     then client.loop_exit else client.running) /\
  Forall (fun ev => exists req, ev = client.EvRequest req)
    (snd (fst (client.TrackCollection Do (paging_processor processResponse)
                 fuel serviceRootURL urlStr interval w))).
Proof.
  intros HDo.
  exact (IterateCollection_loop_pages Verbose Do processResponse HDo fuel
           interval serviceRootURL urlStr w []).
Qed.

Lemma X16_witness :
  requested
    (snd (fst (client.IterateCollection true countdown_server
                 countdown_processResponse 5 "root/" "p2" 0)))
  = ["root/p2"; "root/p1"; "root/p0"] /\
  polled_urls
    (snd (fst (client.TrackCollection countdown_server
                 (paging_processor countdown_processResponse) 5 "root/" "p2"
                 7 0)))
  = ["root/p2"; "root/p1"; "root/p0"] /\
  snd (client.TrackCollection countdown_server
         (paging_processor countdown_processResponse) 5 "root/" "p2" 7 0)
  = client.loop_exit.
Proof.
  destruct (X16_TrackCollection_pages_as_IterateCollection true
              countdown_server countdown_processResponse 5 "root/" "p2" 7 0)
    as (_ & Hu & Hs & _).
  - intros w urlStr. reflexivity.
  - split; [reflexivity|]. split; [rewrite <- Hu; reflexivity | exact Hs].
Defined.

(** ** The start of [main] *)

Lemma ParseUint_range (s : string) :
  forall n un,
    (0 <= n)%Z -> strconv.ParseUint s n = strconv.Uint un -> (0 <= un)%Z.
Proof.
  induction s as [|c s IH]; intros n un Hn H; cbn [strconv.ParseUint] in H.
  - injection H as <-. exact Hn.
  - cbv zeta in H.
    destruct (negb _) eqn:Hd; [discriminate|].
    destruct (Z.leb _ n); [discriminate|].
    destruct (Z.ltb _ _); [discriminate|].
    apply negb_false_iff, andb_prop in Hd as [Hd _]. apply Z.leb_le in Hd.
    apply (IH (n * 10 + (Z.of_nat (nat_of_ascii c) - 48))%Z un); [lia | exact H].
Qed.

Lemma Atoi_range (s : string) :
  (strconv.MinInt64 <= fst (strconv.Atoi s) <= strconv.MaxInt64)%Z.
Proof.
  unfold strconv.Atoi, strconv.MinInt64, strconv.MaxInt64.
  destruct s as [|c s']; [cbn; lia|].
  cbv zeta.
  destruct (if Ascii.eqb c "-" || Ascii.eqb c "+" then s' else String c s')
    as [|c0 s0] eqn:Hs0; [cbn; lia|].
  destruct (strconv.ParseUint (String c0 s0) 0) as [un| |] eqn:Hp.
  - apply ParseUint_range in Hp; [|lia].
    destruct (Ascii.eqb c "-"); cbn [negb andb].
    + destruct (Z.ltb_spec (2 ^ 63) un); cbn [fst]; lia.
    + destruct (Z.leb_spec (2 ^ 63) un); cbn [fst]; lia.
  - cbn; lia.
  - destruct (Ascii.eqb c "-"); cbn [fst]; lia.
Qed.

Lemma wrap64_small (z : Z) :
  (- 2 ^ 63 <= z < 2 ^ 63)%Z -> main.wrap64 z = z.
Proof.
  intros Hz. unfold main.wrap64. rewrite Z.mod_small; lia.
Qed.

Lemma wrap64_range (z : Z) : (- 2 ^ 63 <= main.wrap64 z < 2 ^ 63)%Z.
Proof.
  unfold main.wrap64.
  pose proof (Z.mod_pos_bound (z + 2 ^ 63) (2 ^ 64) ltac:(lia)). lia.
Qed.

(** X17.  The poll interval [main] computes from TM1_TRACKER_INTERVAL is
    at least one second, whatever the variable holds.  The duration
    given to
    [TrackCollection] is that many seconds exactly when the interval is
    at most 9223372036; above that the multiplication by [time.Second]
    overflows, and a value that [Atoi] clamps to the largest int gives a
    duration of minus one second, with which the loop does not sleep at
    all. *)
Theorem X17_poll_interval_bounds :
  (forall env : string,
     (1 <= main.interval env <= strconv.MaxInt64)%Z)
  /\
  (forall env : string,
     (main.interval env <= 9223372036)%Z ->
     main.poll_duration (main.interval env)
     = (main.interval env * 1000000000)%Z)
  /\
  (forall env : string,
     (9223372036 < main.interval env)%Z ->
     main.poll_duration (main.interval env)
     <> (main.interval env * 1000000000)%Z)
  /\
  (forall env : string,
     fst (strconv.Atoi env) = strconv.MaxInt64 ->
     main.poll_duration (main.interval env) = (- 1000000000)%Z).
Proof.
  assert (H1 : forall env, (1 <= main.interval env <= strconv.MaxInt64)%Z).
  { intros env. unfold main.interval. cbv zeta.
    pose proof (Atoi_range env) as Hr.
    destruct (Z.ltb_spec (fst (strconv.Atoi env)) 1);
      unfold strconv.MaxInt64 in *; lia. }
  split; [exact H1|]. split; [|split].
  - intros env Hle. specialize (H1 env).
    unfold main.poll_duration, main.Second. apply wrap64_small. lia.
  - intros env Hgt Heq.
    pose proof (wrap64_range (main.interval env * main.Second)) as Hr.
    unfold main.poll_duration in Heq. rewrite Heq in Hr. lia.
  - intros env Hmax. unfold main.interval. rewrite Hmax. reflexivity.
Qed.

Lemma X17_witness :
  main.poll_duration (main.interval "30") = 30000000000%Z /\
  main.poll_duration (main.interval "9223372037") <> 9223372037000000000%Z /\
  main.poll_duration (main.interval "99999999999999999999x")
  = (- 1000000000)%Z.
Proof.
  destruct X17_poll_interval_bounds as (_ & Hexact & Hwrap & Hmax).
  split; [|split].
  - apply (Hexact "30"). vm_compute. discriminate.
  - apply (Hwrap "9223372037"). vm_compute. reflexivity.
  - apply (Hmax "99999999999999999999x"). reflexivity.
Defined.

(** X18.  The version check of [main] compares bytes, not numbers.  A
    version of fewer than ten bytes makes the slice expression panic.  A
    version of ten bytes or more passes whenever its first byte is above
    the digit 1, so every version 2 to 9 passes, although it is older
    than the required 10.2.2 FP5; and a version that begins with
    10.2.20500 passes. *)
Theorem X18_version_check_is_bytewise :
  (forall version : string,
     (String.length version < 10)%nat ->
     main.check_version version = main.panics)
  /\
  (forall (c : ascii) (rest : string),
     Ascii.ltb "1" c = true ->
     (9 <= String.length rest)%nat ->
     main.check_version (String c rest) = main.proceeds)
  /\
  (forall rest : string,
     main.check_version ("10.2.20500" ++ rest)%string = main.proceeds).
Proof.
  split; [|split].
  - intros version Hlen. unfold main.check_version.
    apply Nat.ltb_lt in Hlen. now rewrite Hlen.
  - intros c rest Hc Hlen. unfold main.check_version.
    assert (Hl : (String.length (String c rest) <? 10)%nat = false).
    { apply Nat.ltb_ge. cbn [String.length]. lia. }
    rewrite Hl. cbn [substring]. unfold String.ltb. cbn [String.compare].
    unfold Ascii.ltb in Hc. rewrite Ascii.compare_antisym.
    destruct (Ascii.compare "1" c); try discriminate Hc. reflexivity.
  - intros rest. unfold main.check_version.
    change ("10.2.20500" ++ rest)%string
      with (String "1" (String "0" (String "." (String "2" (String "."
             (String "2" (String "0" (String "5" (String "0" (String "0"
              rest)))))))))).
    cbn [String.length Nat.ltb Nat.leb substring].
    destruct rest; reflexivity.
Qed.

Lemma X18_witness :
  main.check_version "11.8" = main.panics /\
  main.check_version "9.5.20000.1" = main.proceeds.
Proof.
  destruct X18_version_check_is_bytewise as (Hshort & Hbyte & _).
  split.
  - apply Hshort. cbn. lia.
  - apply Hbyte; [reflexivity | cbn; lia].
Defined.

(** ** The mock server *)

Lemma append_empty (s : string) : (s ++ "")%string = s.
Proof. induction s as [|c s IH]; cbn; [reflexivity | now rewrite IH]. Qed.

Lemma append_assoc (a b c : string) :
  ((a ++ b) ++ c)%string = (a ++ (b ++ c))%string.
Proof. induction a as [|x a IH]; cbn; [reflexivity | now rewrite IH]. Qed.

Lemma concat_cons (x : string) (xs : list string) :
  String.concat "" (x :: xs) = (x ++ String.concat "" xs)%string.
Proof.
  destruct xs as [|y xs]; cbn [String.concat].
  - now rewrite append_empty.
  - reflexivity.
Qed.

Lemma printed_data (data : string) :
  (if (0 <? String.length data)%nat then data else "") = data.
Proof. destruct data; reflexivity. Qed.

Lemma read_loop_chunks (chunks : list string)
    (tail : list (string * mock_server.read_error)) :
  mock_server.read_loop (map (fun d => (d, mock_server.ok)) chunks ++ tail)
  = ((String.concat "" chunks ++ fst (mock_server.read_loop tail))%string,
     snd (mock_server.read_loop tail)).
Proof.
  induction chunks as [|d chunks IH].
  - cbn [map app String.concat append].
    now destruct (mock_server.read_loop tail).
  - cbn [map app mock_server.read_loop]. rewrite IH, printed_data, concat_cons.
    now rewrite append_assoc.
Qed.

(** X19.  The handler of the mock server prints the body of a POST as it
    was sent, whatever the reads cut it into: the banner, then the bytes
    of every read up to and including the read that returns [io.EOF],
    after which it closes the body and reads no more.  On another read
    error it prints what it got, then the error, and returns without
    closing the body.  A request with another method is refused and its
    body is not read.  The POST of the forwarder has the method and the
    port the mock server accepts. *)
Theorem X19_mock_server_echoes :
  (forall (chunks : list string) (last : string)
          (more : list (string * mock_server.read_error)),
     mock_server.handler "POST"
       (map (fun d => (d, mock_server.ok)) chunks
        ++ (last, mock_server.EOF) :: more)
     = (("Mock server received a connection!" ++ mock_server.LF
         ++ String.concat "" chunks ++ last)%string,
        mock_server.served))
  /\
  (forall (chunks : list string) (last msg : string)
          (more : list (string * mock_server.read_error)),
     mock_server.handler "POST"
       (map (fun d => (d, mock_server.ok)) chunks
        ++ (last, mock_server.failed msg) :: more)
     = (("Mock server received a connection!" ++ mock_server.LF
         ++ String.concat "" chunks ++ last ++ msg ++ mock_server.LF)%string,
        mock_server.aborted))
  /\
  (forall (Method : string) (reads : list (string * mock_server.read_error)),
     Method <> "POST" ->
     mock_server.handler Method reads
     = (("Method not supported on this endpoint!" ++ mock_server.LF)%string,
        mock_server.refused))
  /\
  client.Method the_post = "POST" /\
  client.URL the_post = ("http://localhost:" ++ mock_server.port)%string.
Proof.
  split; [|split; [|split]].
  - intros chunks last more. unfold mock_server.handler.
    cbn [String.eqb Ascii.eqb Bool.eqb andb negb].
    rewrite read_loop_chunks. cbn [mock_server.read_loop fst snd].
    now rewrite printed_data.
  - intros chunks last msg more. unfold mock_server.handler.
    cbn [String.eqb Ascii.eqb Bool.eqb andb negb].
    rewrite read_loop_chunks. cbn [mock_server.read_loop fst snd].
    now rewrite printed_data.
  - intros Method reads Hm. unfold mock_server.handler.
    apply String.eqb_neq in Hm. now rewrite Hm.
  - split; reflexivity.
Qed.

Lemma X19_witness :
  mock_server.handler "GET" [("x", mock_server.EOF)]
  = (("Method not supported on this endpoint!" ++ mock_server.LF)%string,
     mock_server.refused).
Proof.
  apply (proj1 (proj2 (proj2 X19_mock_server_echoes))). discriminate.
Defined.
